(** * Strumboli: the strum engine, the byte decoder, the effect curve,
      note theory, the MIDI note scheduler and the chord progression

    A shallow embedding of the TypeScript sources.

    Numbers.  A JavaScript [number] that the code only ever uses as an
    integer (string indices, MIDI velocities, octaves, byte values, timer
    handles) is a [Z].  A [number] that carries a measurement (position,
    pressure, width, a normalised field) is an exact rational [Q]; where the
    code calls [Math.exp] or [Math.pow] it is a real [R].  The embedding is
    therefore the code over exact arithmetic: rounding of IEEE doubles, NaN
    and the infinities are outside the model, and a division is only
    meaningful where its divisor is not zero (the theorems say so by
    hypothesis where it matters).  The exception is a function that makes
    NaN of a value that is missing: its result is an option, and NaN is
    [None].

    [undefined] read from an array outside its bounds is [None].

    Time.  [Date.now()] is an argument of the call that reads it.  The
    timers of [window.setTimeout] live in a model of the browser with a
    clock in milliseconds; a timer fires when the clock reaches the time it
    is due, the earliest first.

    Layout.  The modules [Strummer], [DataHelpers], [Note], [Midi] and
    [ChordProgressionState] embed the source files, each definition under
    the name it has there; [StrummerSpec] holds the vocabulary of the
    statements.  The modules [StrummerFacts], [DataHelpersFacts],
    [NoteFacts], [MidiFacts] and [ChordProgressionStateFacts] hold the
    lemmas, the theorems C1 to C10 and the further properties X1 to X30. *)

From stdpp Require Import gmap strings list.
From stdpp Require Import pretty.
From Stdlib Require Import ZArith QArith Qround Qminmax Qabs Lia Lqa.
From Stdlib Require Import Reals Lra.

Set Default Proof Using "Type".

(** ** Shared JavaScript idioms *)

(** [arr[i]] for an integer [i]: [undefined] outside [0 .. length-1]. *)
Definition js_index {A : Type} (arr : list A) (i : Z) : option A :=
  if (i <? 0)%Z then None else arr !! Z.to_nat i.

(** [a < b] and [a >= b] on rationals, as booleans. *)
Definition Qltb (a b : Q) : bool := negb (Qle_bool b a).
Definition Qgeb (a b : Q) : bool := Qle_bool b a.

(** JavaScript's [ToInt32]: wrap an integer to a signed 32-bit one. *)
Definition toInt32 (z : Z) : Z :=
  let m := (z mod 2 ^ 32)%Z in
  if (m <? 2 ^ 31)%Z then m else (m - 2 ^ 32)%Z.

(** Truncation of a rational towards zero. *)
Definition Qtruncate (q : Q) : Z := Z.quot (Qnum q) (Z.pos (Qden q)).

(** The type [NoteObject] of note.ts; [secondary] is an optional field. *)
Record NoteObject : Type := mkNote {
  notation : string;
  octave : Z;
  secondary : option bool
}.

(** ** strummer.ts *)
Module Strummer.

(** The two shapes of a [StrumResult]. A note read outside the note list is
    [undefined], which the result carries as it is. *)
Inductive StrumResult : Type :=
| strum_result (notes : list (option NoteObject * Z))
| release_result (velocity : Z).

(** The private fields of the class, with their initial values in [init]. *)
Record t : Type := mk {
  _width : Q;
  _height : Q;
  _notes : list NoteObject;
  lastStrummedIndex : Z;
  lastPressure : Q;
  lastTimestamp : Q;
  pressureThreshold : Q;
  lastStrumVelocity : Z;
  pressureBuffer : list (Q * Q);
  bufferMaxSamples : Z;
  pendingTapIndex : Z
}.

Definition init : t :=
  {| _width := 1; _height := 1; _notes := [];
     lastStrummedIndex := -1; lastPressure := 0; lastTimestamp := 0;
     pressureThreshold := 1 # 10; lastStrumVelocity := 0;
     pressureBuffer := []; bufferMaxSamples := 3; pendingTapIndex := -1 |}.

Definition updateBounds (width height : Q) (s : t) : t :=
  {| _width := width; _height := height; _notes := _notes s;
     lastStrummedIndex := lastStrummedIndex s; lastPressure := lastPressure s;
     lastTimestamp := lastTimestamp s; pressureThreshold := pressureThreshold s;
     lastStrumVelocity := lastStrumVelocity s; pressureBuffer := pressureBuffer s;
     bufferMaxSamples := bufferMaxSamples s; pendingTapIndex := pendingTapIndex s |}.

(** The setter [set notes]: replaces the list and re-applies the bounds.
    (It also notifies the [notes_changed] listeners, which live outside
    the class and are not part of its state.) *)
Definition set_notes (notes : list NoteObject) (s : t) : t :=
  let s' :=
    {| _width := _width s; _height := _height s; _notes := notes;
       lastStrummedIndex := lastStrummedIndex s; lastPressure := lastPressure s;
       lastTimestamp := lastTimestamp s; pressureThreshold := pressureThreshold s;
       lastStrumVelocity := lastStrumVelocity s; pressureBuffer := pressureBuffer s;
       bufferMaxSamples := bufferMaxSamples s; pendingTapIndex := pendingTapIndex s |} in
  updateBounds (_width s') (_height s') s'.

(** [configure(_pluckVelocityScale = 4.0, pressureThreshold = 0.1)]: an
    omitted argument is [None] and takes its default. *)
Definition configure (_pluckVelocityScale pressureThreshold' : option Q) (s : t) : t :=
  let _scale := default (4 # 1) _pluckVelocityScale in
  let threshold := default (1 # 10) pressureThreshold' in
  {| _width := _width s; _height := _height s; _notes := _notes s;
     lastStrummedIndex := lastStrummedIndex s; lastPressure := lastPressure s;
     lastTimestamp := lastTimestamp s; pressureThreshold := threshold;
     lastStrumVelocity := lastStrumVelocity s; pressureBuffer := pressureBuffer s;
     bufferMaxSamples := bufferMaxSamples s; pendingTapIndex := pendingTapIndex s |}.

Definition clearStrum (s : t) : t :=
  {| _width := _width s; _height := _height s; _notes := _notes s;
     lastStrummedIndex := -1; lastPressure := 0; lastTimestamp := 0;
     pressureThreshold := pressureThreshold s; lastStrumVelocity := 0;
     pressureBuffer := []; bufferMaxSamples := bufferMaxSamples s;
     pendingTapIndex := -1 |}.

(** Lines 68-69 of [strum]: the string a position falls on. *)
Definition stringWidth (s : t) : Q :=
  _width s / inject_Z (Z.of_nat (length (_notes s))).

Definition stringIndex (s : t) (x : Q) : Z :=
  Z.min (Qfloor (x / stringWidth s)) (Z.of_nat (length (_notes s)) - 1).

(** The tap velocity of lines 136-141. *)
Definition tapVelocity (threshold currentPressure : Q) : Z :=
  let normalizedPressure := (currentPressure - threshold) / (1 - threshold) in
  let clampedPressure := Qmax 0 (Qmin 1 normalizedPressure) in
  let midiVelocity := Qfloor (20 + clampedPressure * 107) in
  Z.max 20 (Z.min 127 midiVelocity).

(** The two [for] loops of lines 171-179. *)
Definition indicesUp (from to : Z) : list Z := seqZ from (to - from + 1).
Definition indicesDown (from to : Z) : list Z :=
  (fun k => from - k)%Z <$> seqZ 0 (from - to + 1).

(** A record update for the transient fields that [strum] writes. *)
Definition upd (s : t) (lsi : Z) (lp lt : Q) (lsv : Z) (buf : list (Q * Q)) (pti : Z) : t :=
  {| _width := _width s; _height := _height s; _notes := _notes s;
     lastStrummedIndex := lsi; lastPressure := lp; lastTimestamp := lt;
     pressureThreshold := pressureThreshold s; lastStrumVelocity := lsv;
     pressureBuffer := buf; bufferMaxSamples := bufferMaxSamples s;
     pendingTapIndex := pti |}.

(** [strum(x, pressure)]; [now] is what [Date.now()] returns during the
    call, in milliseconds. *)
Definition strum (s : t) (x pressure : Q) (now : Z) : t * option StrumResult :=
  if (length (_notes s) =? 0)%nat then (s, None) else
  let index := stringIndex s x in
  let currentTime := inject_Z now / 1000 in
  let hasSufficientPressure := Qgeb pressure (pressureThreshold s) in
  let pressureDown :=
    Qltb (lastPressure s) (pressureThreshold s) && Qgeb pressure (pressureThreshold s) in
  let pressureUp :=
    Qgeb (lastPressure s) (pressureThreshold s) && Qltb pressure (pressureThreshold s) in
  if pressureUp then
    let releaseVelocity := lastStrumVelocity s in
    let s' := upd s (-1) pressure currentTime 0 [] (-1) in
    if (0 <? releaseVelocity)%Z then (s', Some (release_result releaseVelocity))
    else (s', None)
  else if pressureDown
          && ((lastStrummedIndex s =? -1)%Z || negb (lastStrummedIndex s =? index)%Z) then
    (upd s (lastStrummedIndex s) pressure currentTime (lastStrumVelocity s)
         [(lastPressure s, lastTimestamp s); (pressure, currentTime)] index,
     None)
  else if hasSufficientPressure && (lastStrummedIndex s =? -1)%Z
          && (pendingTapIndex s =? -1)%Z then
    (upd s (lastStrummedIndex s) pressure currentTime (lastStrumVelocity s)
         [(pressure, currentTime)] index,
     None)
  else if negb (pendingTapIndex s =? -1)%Z
          && (Z.of_nat (length (pressureBuffer s)) <? bufferMaxSamples s)%Z then
    let buf := pressureBuffer s ++ [(pressure, currentTime)] in
    if (bufferMaxSamples s <=? Z.of_nat (length buf))%Z then
      let midiVelocity := tapVelocity (pressureThreshold s) pressure in
      let note := js_index (_notes s) (pendingTapIndex s) in
      (upd s (pendingTapIndex s) pressure currentTime midiVelocity [] (-1),
       Some (strum_result [(note, midiVelocity)]))
    else
      (upd s (lastStrummedIndex s) pressure currentTime (lastStrumVelocity s)
           buf (pendingTapIndex s),
       None)
  else if hasSufficientPressure && negb (lastStrummedIndex s =? -1)%Z
          && negb (lastStrummedIndex s =? index)%Z then
    let midiVelocity := Z.max 20 (Qfloor (pressure * 127)) in
    let indices :=
      if (lastStrummedIndex s <? index)%Z
      then indicesUp (lastStrummedIndex s + 1) index
      else indicesDown (lastStrummedIndex s - 1) index in
    let notesToPlay := (fun i => (js_index (_notes s) i, midiVelocity)) <$> indices in
    let s' := upd s index pressure currentTime midiVelocity
                  (pressureBuffer s) (pendingTapIndex s) in
    (s', if (0 <? length notesToPlay)%nat then Some (strum_result notesToPlay) else None)
  else
    (upd s (lastStrummedIndex s) pressure currentTime (lastStrumVelocity s)
         (pressureBuffer s) (pendingTapIndex s),
     None).

(** One sample of the input stream: position, pressure and the clock. *)
Definition sample : Type := (Q * Q * Z)%type.

(** Feeding a stream of samples, collecting what each call returned. *)
Fixpoint run (s : t) (samples : list sample) : t * list (option StrumResult) :=
  match samples with
  | [] => (s, [])
  | (x, pressure, now) :: rest =>
      let '(s1, r) := strum s x pressure now in
      let '(s2, rs) := run s1 rest in
      (s2, r :: rs)
  end.

(** The object [getNotesState()] returns, its fields [type], [notes],
    [stringCount], [baseNotes] and [timestamp]; [now] is what [Date.now()]
    returns during the call. A note is a base note unless its [secondary]
    is true. *)
Record NotesState : Type := mkNotesState {
  nsType : string;
  nsNotes : list NoteObject;
  nsStringCount : Z;
  nsBaseNotes : list NoteObject;
  nsTimestamp : Z
}.

Definition isSecondary (note : NoteObject) : bool :=
  match secondary note with
  | Some true => true
  | _ => false
  end.

Definition getNotesState (s : t) (now : Z) : NotesState :=
  let baseNotes := List.filter (fun note => negb (isSecondary note)) (_notes s) in
  {| nsType := "notes"; nsNotes := _notes s;
     nsStringCount := Z.of_nat (length (_notes s));
     nsBaseNotes := baseNotes; nsTimestamp := now |}.

End Strummer.


(** ** Vocabulary for the properties of the strum engine *)
Module StrummerSpec.
Import Strummer.

Definition stringCount (s : t) : Z := Z.of_nat (length (_notes s)).

(** [x] lies on string [k]: between the left edge of string [k] and the
    left edge of string [k+1]. *)
Definition inside (s : t) (k : Z) (x : Q) : Prop :=
  (inject_Z k * stringWidth s <= x)%Q /\ (x < inject_Z (k + 1) * stringWidth s)%Q.

(** A strum is committed on string [k] and the pen has stayed down since:
    nothing is pending and the last pressure seen is at or above the
    threshold. *)
Definition held (s : t) (k : Z) : Prop :=
  lastStrummedIndex s = k /\ pendingTapIndex s = (-1)%Z
  /\ (pressureThreshold s <= lastPressure s)%Q.

(** A surface of width [w] carrying three strings, threshold 0.1. *)
Definition threeStrings (n0 n1 n2 : NoteObject) (w h : Q) : t :=
  configure None (Some (1 # 10)) (updateBounds w h (set_notes [n0; n1; n2] init)).

Definition noteC4 : NoteObject := mkNote "C" 4 None.
Definition noteE4 : NoteObject := mkNote "E" 4 None.
Definition noteG4 : NoteObject := mkNote "G" 4 None.

(** The state in which the pen has just committed a tap on string 0 of the
    C-E-G surface, two samples after touching down at x = 0.1. *)
Definition tappedString0 : t :=
  fst (run (threeStrings noteC4 noteE4 noteG4 1 1)
           [(1 # 10, 0, 0%Z); (1 # 10, 1 # 2, 10%Z)]).


(** The velocity remembered for the release is either none (0) or an audible
    one. *)
Definition audible (s : t) : Prop :=
  lastStrumVelocity s = 0%Z \/ (20 <= lastStrumVelocity s)%Z.


End StrummerSpec.
(** ** data-helpers.ts *)
Module DataHelpers.

(** JavaScript's 32-bit [<<]: the left operand is wrapped to a signed 32-bit
    integer, the shift count is taken modulo 32, and the result is wrapped
    again. *)
Definition js_shl (a b : Z) : Z := toInt32 (Z.shiftl (toInt32 a) (b mod 32)).

(** [parseRangeData(data, byteIndex, minVal = 0, maxVal = 0)]. The byte is
    [undefined] outside the buffer, and arithmetic on it gives NaN, which is
    [None] here. *)
Definition parseRangeData (data : list Z) (byteIndex : Z) (minVal maxVal : Q) : option Q :=
  let value := js_index data byteIndex in
  if Qeq_bool maxVal minVal then Some 0%Q
  else match value with
       | Some value => Some ((inject_Z value - minVal) / (maxVal - minVal))%Q
       | None => None
       end.

(** The [for] loop of [parseMultiByteRangeData], from index [i] on. A byte
    index left of the buffer reads [undefined], which [<<] turns into 0. *)
Fixpoint combineBytes (data byteIndices : list Z) (i value : Z) : Z :=
  match byteIndices with
  | [] => value
  | byteIdx :: rest =>
      let value' :=
        if (byteIdx <? Z.of_nat (length data))%Z
        then (value + js_shl (default 0%Z (js_index data byteIdx)) (8 * i))%Z
        else value in
      combineBytes data rest (i + 1) value'
  end.

(** [parseMultiByteRangeData(data, byteIndices, minVal, maxVal)]; a missing
    [byteIndices] behaves as the empty list. *)
Definition parseMultiByteRangeData
    (data byteIndices : list Z) (minVal maxVal : Q) : Q :=
  if (length byteIndices =? 0)%nat then 0%Q else
  let value := combineBytes data byteIndices 0 0 in
  if Qeq_bool maxVal minVal then 0%Q
  else ((inject_Z value - minVal) / (maxVal - minVal))%Q.

(** The bytes a list of indices selects, and their little-endian value in
    the words of the specification: byte [i] shifted left by [8 * i]. *)
Definition bytesAt (data byteIndices : list Z) : list Z :=
  (fun k => default 0%Z (js_index data k)) <$> byteIndices.

Fixpoint littleEndian (i : Z) (bytes : list Z) : Z :=
  match bytes with
  | [] => 0%Z
  | b :: rest => (Z.shiftl b (8 * i) + littleEndian (i + 1) rest)%Z
  end.

(** The three spreads of an effect. *)
Inductive Spread : Type := direct | inverse | central.

(** [applyCurve(value, curve, inputRange)]. *)
Definition applyCurve (value curve : R) (inputRange : R * R) : R :=
  let '(minVal, maxVal) := inputRange in
  if Rle_dec value minVal then minVal
  else if Rge_dec value maxVal then maxVal
  else if Req_dec_T curve 1 then value
  else
    let normalized := ((value - minVal) / (maxVal - minVal))%R in
    let curved := ((exp (curve * normalized) - 1) / (exp curve - 1))%R in
    (minVal + curved * (maxVal - minVal))%R.

(** [calculateEffectValue(inputValue, minVal, maxVal, multiplier, curve, spread)]. *)
Definition calculateEffectValue
    (inputValue minVal maxVal multiplier curve : R) (spread : Spread) : R :=
  let scaledInput := (inputValue * multiplier)%R in
  let scaledInput := Rmax 0 (Rmin 1 scaledInput) in
  match spread with
  | central =>
      let distanceFromCenter := (Rabs (scaledInput - 5 / 10) * 2)%R in
      let curvedDistance := applyCurve distanceFromCenter curve (0, 1)%R in
      (maxVal - curvedDistance * (maxVal - minVal))%R
  | inverse =>
      let curvedValue := applyCurve scaledInput curve (0, 1)%R in
      (maxVal - curvedValue * (maxVal - minVal))%R
  | direct =>
      let curvedValue := applyCurve scaledInput curve (0, 1)%R in
      (minVal + curvedValue * (maxVal - minVal))%R
  end.

(** *** The rest of data-helpers.ts *)

(** [parseBipolarRangeData(data, byteIndex, posMin, posMax, negMin, negMax)].
    A comparison with [undefined] is false, and arithmetic on it gives NaN
    ([None]). *)
Definition parseBipolarRangeData (data : list Z) (byteIndex : Z)
    (posMin posMax negMin negMax : Q) : option Q :=
  match js_index data byteIndex with
  | Some value =>
      if Qltb (inject_Z value) negMax then
        if Qeq_bool posMax posMin then Some 0%Q
        else Some (inject_Z value / (posMax - posMin))%Q
      else
        if Qeq_bool negMin negMax then Some 0%Q
        else Some (- (negMin - inject_Z value) / (negMin - negMax))%Q
  | None => if Qeq_bool negMin negMax then Some 0%Q else None
  end.

(** JavaScript's 32-bit [&]. *)
Definition js_and (a b : Z) : Z := Z.land (toInt32 a) (toInt32 b).

(** The key [`button${i + 1}`]. *)
Definition buttonKey (i : Z) : string := String.append "button" (pretty (i + 1)%Z).

(** [parseBitFlags(data, byteIndex, buttonCount = 8)]: an object with one
    boolean per button. *)
Definition parseBitFlags (data : list Z) (byteIndex : Z) (buttonCount : option Z)
  : gmap string bool :=
  let buttonCount := default 8%Z buttonCount in
  if (Z.of_nat (length data) <=? byteIndex)%Z then ∅ else
  let flags := default 0%Z (js_index data byteIndex) in
  foldl (fun result i =>
           <[buttonKey i := negb (js_and flags (js_shl 1 i) =? 0)%Z]> result)
        ∅ (seqZ 0 buttonCount).

(** An effect configuration, every field of which may be missing, and
    [applyEffect(effectConfig, controlInputs)]. *)
Record EffectConfig : Type := mkEffectConfig {
  effectControl : option string;
  effectDefault : option R;
  effectMin : option R;
  effectMax : option R;
  effectMultiplier : option R;
  effectCurve : option R;
  effectSpread : option Spread
}.

(** The names every object literal inherits from [Object.prototype]; the
    operator [in] finds them as well as the object's own keys. *)
Definition objectPrototype : list string :=
  ["constructor"; "__defineGetter__"; "__defineSetter__"; "hasOwnProperty";
   "__lookupGetter__"; "__lookupSetter__"; "isPrototypeOf"; "propertyIsEnumerable";
   "toString"; "valueOf"; "__proto__"; "toLocaleString"].

(** [applyEffect]. The result is [None] for NaN, which is what the
    arithmetic of [calculateEffectValue] makes of an inherited member. *)
Definition applyEffect (effectConfig : EffectConfig) (controlInputs : gmap string R)
  : option R :=
  let fallback := Some (default 0%R (effectDefault effectConfig)) in
  match effectControl effectConfig with
  | None => fallback
  | Some controlType =>
      if String.eqb controlType "" then fallback else
      match controlInputs !! controlType with
      | Some inputValue =>
          Some (calculateEffectValue inputValue
                  (default 0%R (effectMin effectConfig))
                  (default 1%R (effectMax effectConfig))
                  (default 1%R (effectMultiplier effectConfig))
                  (default 1%R (effectCurve effectConfig))
                  (default direct (effectSpread effectConfig)))
      | None =>
          if bool_decide (controlType ∈ objectPrototype) then None else fallback
      end
  end.

End DataHelpers.

(** ** note.ts *)
Module Note.

Definition sharpNotations : list string :=
  ["C"; "C#"; "D"; "D#"; "E"; "F"; "F#"; "G"; "G#"; "A"; "A#"; "B"].

Definition flatNotations : list string :=
  ["C"; "Db"; "D"; "Eb"; "E"; "F"; "Gb"; "G"; "Ab"; "A"; "Bb"; "B"].

Definition oddNotations : list string := ["B#"; "Cb"; "E#"; "Fb"].

Definition correctedNotations : list string := ["C"; "C"; "F"; "F"].

(** [Array.prototype.indexOf]: the first position of [x], or -1. *)
Fixpoint indexOfFrom (x : string) (l : list string) (i : Z) : Z :=
  match l with
  | [] => (-1)%Z
  | y :: rest => if String.eqb y x then i else indexOfFrom x rest (i + 1)
  end.

Definition indexOf (l : list string) (x : string) : Z := indexOfFrom x l 0.

(** [s.charAt(i)]: the empty string outside the string. *)
Definition charAt (s : string) (i : Z) : string :=
  if (i <? 0)%Z then ""
  else match String.get (Z.to_nat i) s with
       | Some c => String c ""
       | None => ""
       end.

Definition strlen (s : string) : Z := Z.of_nat (String.length s).

(** [s.substring(from)] and [s.substr(0, n)] for [0 <= from] and [0 <= n]. *)
Definition substringFrom (s : string) (from : nat) : string :=
  String.substring from (String.length s - from) s.

Definition substr0 (s : string) (n : Z) : string :=
  String.substring 0 (Z.to_nat n) s.

(** [parseInt] on a string of at most one character: a decimal digit gives
    its value, anything else gives NaN ([None]). *)
Definition parseIntChar (c : string) : option Z :=
  match c with
  | String a "" => Z.of_nat <$> Ascii.is_nat a
  | _ => None
  end.

(** [String(n)] for an integer [n]. *)
Definition String_of (n : Z) : string := pretty n.

Definition indexOfNotation (nt : string) : Z :=
  let index := indexOf sharpNotations nt in
  if (index =? -1)%Z then indexOf flatNotations nt else index.

(** [parseNotation]: a trailing digit is the octave, which otherwise is 4. *)
Definition parseNotation (nt : string) : NoteObject :=
  let last := charAt nt (strlen nt - 1) in
  match parseIntChar last with
  | Some d =>
      {| notation := if (strlen nt =? 3)%Z
                     then String.append (charAt nt 0) (charAt nt 1)
                     else charAt nt 0;
         octave := d; secondary := None |}
  | None => {| notation := nt; octave := 4; secondary := None |}
  end.

(** [notationToMIDI]. *)
Definition notationToMIDI (nt : string) : Z :=
  let ntObj := parseNotation nt in
  let ntindx := indexOf sharpNotations (notation ntObj) in
  let ntindx := if (ntindx =? -1)%Z then indexOf flatNotations (notation ntObj) else ntindx in
  (octave ntObj * Z.of_nat (length sharpNotations) + ntindx)%Z.

(** The semitone offset that [getFrequencyForNotation] feeds to [Math.pow],
    when the notation is known. *)
Definition frequencyIndex (nt : string) : option Z :=
  let last := charAt nt (strlen nt - 1) in
  let '(oct, nt) :=
    match parseIntChar last with
    | Some d => (d, substr0 nt (strlen nt - 1))
    | None => (4%Z, nt)
    end in
  let nt :=
    if negb (indexOf oddNotations nt =? -1)%Z
    then default nt (js_index correctedNotations (indexOf oddNotations nt))
    else nt in
  let indx := indexOf sharpNotations nt in
  let indx := if (indx =? -1)%Z then indexOf flatNotations nt else indx in
  if negb (indx =? -1)%Z
  then Some (indx + (oct - 4) * Z.of_nat (length sharpNotations))%Z
  else None.

(** [getFrequencyForNotation]: [undefined] for an unknown notation. *)
Definition getFrequencyForNotation (nt : string) : option R :=
  match frequencyIndex nt with
  | Some indx => Some (440 * Rpower 2 (IZR indx / 12))%R
  | None => None
  end.

(** The interval table of [parseChord], in the order of the source. *)
Definition chordIntervals : list (string * list Z) :=
  [("maj", [0; 4; 7]); ("min", [0; 3; 7]); ("m", [0; 3; 7]); ("dim", [0; 3; 6]);
   ("aug", [0; 4; 8]); ("sus2", [0; 2; 7]); ("sus4", [0; 5; 7]); ("5", [0; 7]);
   ("7", [0; 4; 7; 10]); ("maj7", [0; 4; 7; 11]); ("min7", [0; 3; 7; 10]);
   ("m7", [0; 3; 7; 10]); ("dim7", [0; 3; 6; 9]); ("aug7", [0; 4; 8; 10]);
   ("maj9", [0; 4; 7; 11; 14]); ("min9", [0; 3; 7; 10; 14]);
   ("m9", [0; 3; 7; 10; 14]); ("9", [0; 4; 7; 10; 14]);
   ("add9", [0; 4; 7; 14]); ("6", [0; 4; 7; 9]); ("min6", [0; 3; 7; 9]);
   ("m6", [0; 3; 7; 9])]%Z.

Fixpoint intervalsOf (table : list (string * list Z)) (chordType : string)
  : option (list Z) :=
  match table with
  | [] => None
  | (name, intervals) :: rest =>
      if String.eqb name chordType then Some intervals else intervalsOf rest chordType
  end.

(** A chord tone as [parseChord] builds it: the notation is read from
    [sharpNotations] and is [undefined] when the index is outside it. *)
Record ChordNote : Type := mkChordNote {
  chordNotation : option string;
  chordOctave : Z
}.

(** [parseChord(chordNotation, octave = 4)]. An empty chord string has
    [undefined] as its first character, which the concatenation with the
    octave spells out. *)
Definition parseChord (chord : string) (octave' : option Z) : list ChordNote :=
  let oct := default 4%Z octave' in
  let second := charAt chord 1 in
  let '(root, chordType) :=
    if (2 <=? strlen chord)%Z && (String.eqb second "#" || String.eqb second "b")
    then (String.substring 0 2 chord, substringFrom chord 2)
    else (match String.get 0 chord with
          | Some c => String c ""
          | None => "undefined"
          end, substringFrom chord 1) in
  let chordType := if String.eqb chordType "" then "maj" else chordType in
  let intervals :=
    match intervalsOf chordIntervals chordType with
    | Some intervals => intervals
    | None => default [] (intervalsOf chordIntervals "maj")
    end in
  let rootNote := parseNotation (String.append root (String_of oct)) in
  let rootIndex := indexOfNotation (notation rootNote) in
  (fun interval =>
     let noteIndex := Z.rem (rootIndex + interval) 12 in
     let noteOctave := (oct + (rootIndex + interval) / 12)%Z in
     {| chordNotation := js_index sharpNotations noteIndex;
        chordOctave := noteOctave |}) <$> intervals.

(** *** The rest of note.ts *)

(** A note whose notation has been read from one of the tables: it is
    [undefined] when the index was outside the table. *)
Record NoteValue : Type := mkNoteValue {
  valueNotation : option string;
  valueOctave : Z;
  valueSecondary : option bool
}.

Definition valueOf (note : NoteObject) : NoteValue :=
  {| valueNotation := Some (notation note); valueOctave := octave note;
     valueSecondary := secondary note |}.

(** [s.includes(needle)]. *)
Fixpoint includes (needle s : string) : bool :=
  String.prefix needle s
  || match s with
     | EmptyString => false
     | String _ rest => includes needle rest
     end.

(** [transposeNote(note, semitones)]. *)
Definition transposeNote (note : NoteObject) (semitones : Z) : NoteValue :=
  if (semitones =? 0)%Z then valueOf note else
  let noteIndex := indexOf sharpNotations (notation note) in
  let noteIndex := if (noteIndex =? -1)%Z then indexOf flatNotations (notation note)
                   else noteIndex in
  let noteIndex := if (noteIndex =? -1)%Z then 0%Z else noteIndex in
  let midiNumber := (octave note * 12 + noteIndex)%Z in
  let transposedMidi := (midiNumber + semitones)%Z in
  let newOctave := (transposedMidi / 12)%Z in
  let newNoteIndex := Z.rem transposedMidi 12 in
  let newNotation :=
    if includes "#" (notation note) then js_index sharpNotations newNoteIndex
    else if includes "b" (notation note) then js_index flatNotations newNoteIndex
    else js_index sharpNotations newNoteIndex in
  {| valueNotation := newNotation; valueOctave := newOctave;
     valueSecondary := secondary note |}.

(** [notationAtIndex(index, preferFlat)]. *)
Definition notationAtIndex (index : Z) (preferFlat : bool) : option string :=
  let index :=
    if (Z.of_nat (length sharpNotations) <=? index)%Z
    then Z.rem index (Z.of_nat (length sharpNotations)) else index in
  if preferFlat then js_index flatNotations index else js_index sharpNotations index.

(** [MIDItoNotation(index)]. *)
Definition MIDItoNotation (index : Z) : option string :=
  js_index sharpNotations (Z.rem index (Z.of_nat (length sharpNotations))).

(** [s.toUpperCase()] on ASCII letters. *)
Definition upperChar (c : Stdlib.Strings.Ascii.ascii) : Stdlib.Strings.Ascii.ascii :=
  let n := Stdlib.Strings.Ascii.nat_of_ascii c in
  if ((97 <=? n) && (n <=? 122))%nat
  then Stdlib.Strings.Ascii.ascii_of_nat (n - 32) else c.

Fixpoint toUpperCase (s : string) : string :=
  match s with
  | EmptyString => EmptyString
  | String c rest => String (upperChar c) (toUpperCase rest)
  end.

(** [a.splice(0, n)] as far as what is left in [a]: a negative [n] removes
    nothing. *)
Definition spliceFront {A : Type} (n : Z) (a : list A) : list A :=
  drop (Z.to_nat n) a.

(** [notesInKeySignature(key, major, octave)]. An octave of 0 counts as no
    octave, as an omitted one does. *)
Definition notesInKeySignature (key : string) (major : bool) (octave' : option Z)
  : list (option string) :=
  let key := toUpperCase key in
  let key :=
    if negb (indexOf oddNotations key =? -1)%Z
    then default key (js_index correctedNotations (indexOf oddNotations key))
    else key in
  let '(notesToIndex, startPos) :=
    if negb (indexOf sharpNotations key =? -1)%Z
    then (sharpNotations, indexOf sharpNotations key)
    else (flatNotations, indexOf flatNotations key) in
  let withOctave :=
    match octave' with
    | Some o => negb (o =? 0)%Z
    | None => false
    end in
  let o := default 0%Z octave' in
  let second :=
    if withOctave
    then (fun name => String.append name (String_of (o + 1))) <$> notesToIndex
    else notesToIndex in
  let first :=
    if withOctave
    then (fun name => String.append name (String_of o)) <$> notesToIndex
    else notesToIndex in
  let notesToIndex := spliceFront startPos (first ++ second) in
  let degrees : list Z :=
    if major then [0; 2; 4; 5; 7; 9; 11]%Z else [0; 2; 3; 5; 7; 8; 10]%Z in
  js_index notesToIndex <$> degrees.

(** One note of a spread: the note at [index] moved by [shift] octaves and
    flagged secondary. *)
Definition spreadNote (notes : list NoteObject) (index : nat) (shift : Z)
  : option NoteObject :=
  match notes !! index with
  | Some note =>
      Some {| notation := notation note; octave := (octave note + shift)%Z;
              secondary := Some true |}
  | None => None
  end.

(** [fillNoteSpread(notes, lowerSpread = 0, upperSpread = 0)]; the counts
    are integers. *)
Definition fillNoteSpread (notes : list NoteObject) (lowerSpread upperSpread : Z)
  : list NoteObject :=
  if (length notes =? 0)%nat then [] else
  let n := length notes in
  let upper :=
    omap (fun c => spreadNote notes (c mod n) (Z.of_nat (c / n) + 1)%Z)
         (seq 0 (Z.to_nat upperSpread)) in
  let lower :=
    omap (fun c => spreadNote notes (n - 1 - c mod n) (- Z.of_nat (c / n) - 1)%Z)
         (seq 0 (Z.to_nat lowerSpread)) in
  lower ++ notes ++ upper.

(** The pitch number of a notation and an octave, as [notationToMIDI] and
    [transposeNote] count it. *)
Definition pitchOf (nt : string) (oct : Z) : Z := (oct * 12 + indexOfNotation nt)%Z.

Definition knownNotation (nt : string) : Prop := indexOfNotation nt <> (-1)%Z.

(** The names of the twelve pitch classes in either spelling. *)
Definition noteName (nt : string) : Prop := nt ∈ sharpNotations \/ nt ∈ flatNotations.

(** The table [transposeNote] reads the new notation from: the flat one for
    a notation that has a "b" and no "#", the sharp one otherwise. *)
Definition spellingOf (nt : string) : list string :=
  if includes "#" nt then sharpNotations
  else if includes "b" nt then flatNotations
  else sharpNotations.



End Note.

(** ** midi.ts, with the part of the browser it talks to *)
Module Midi.

(** What a call either completes with or throws; an exception leaves the
    objects as they were when it was thrown. *)
Inductive result (A : Type) : Type :=
| Ok (a : A)
| Throw (error : string) (a : A).
Arguments Ok {A} a.
Arguments Throw {A} error a.

Definition stateOf {A : Type} (r : result A) : A :=
  match r with
  | Ok a => a
  | Throw _ a => a
  end.

Definition bind {A : Type} (r : result A) (f : A -> result A) : result A :=
  match r with
  | Ok a => f a
  | Throw error a => Throw error a
  end.

Notation "x <- r ;; k" := (bind r (fun x => k))
  (at level 100, r at next level, right associativity).

(** The closure handed to [setTimeout] by [sendNote] and [sendRawNote]: it
    captures the channels, the pitch and the key, and is due at [fireAt]. *)
Record Timer : Type := mkTimer {
  fireAt : Z;
  timerChannels : list Z;
  timerNote : Z;
  timerKey : string
}.

(** The browser side: a clock in milliseconds, the timers that are set and
    not yet fired or cleared (oldest first), the next timer handle, and the
    messages the MIDI output has been sent, each with the time of sending. *)
Record Env : Type := mkEnv {
  clock : Z;
  nextHandle : Z;
  pending : list (Z * Timer);
  wire : list (Z * list Z)
}.

(** The fields of the class [Midi] that the send operations use. *)
Record t : Type := mk {
  midiOut : option string;
  midiStrumChannel : option Z;
  activeNoteTimers : gmap string Z;
  noteStartTimes : gmap string Z
}.

Definition World : Type := (t * Env)%type.

Definition newMidi (midiStrumChannel : option Z) : t :=
  {| midiOut := None; midiStrumChannel := midiStrumChannel;
     activeNoteTimers := ∅; noteStartTimes := ∅ |}.

Definition newEnv : Env :=
  {| clock := 0; nextHandle := 1; pending := []; wire := [] |}.

(** What [refreshConnection] does to [midiOut]: the first output port, if
    the browser lists one. *)
Definition refreshConnection (outputs : list string) (m : t) : t :=
  match outputs with
  | port :: _ =>
      {| midiOut := Some port; midiStrumChannel := midiStrumChannel m;
         activeNoteTimers := activeNoteTimers m; noteStartTimes := noteStartTimes m |}
  | [] => m
  end.

(** *** Browser primitives *)

(** [midiOut.send(message)]. *)
Definition send (message : list Z) (e : Env) : Env :=
  {| clock := clock e; nextHandle := nextHandle e; pending := pending e;
     wire := wire e ++ [(clock e, message)] |}.

Definition sendAll (messages : list (list Z)) (e : Env) : Env :=
  foldl (fun e message => send message e) e messages.

(** The delay [setTimeout] makes of its argument: truncated to a 32-bit
    integer, and not negative. *)
Definition delayOf (ms : Q) : Z := Z.max 0 (toInt32 (Qtruncate ms)).

(** [window.setTimeout(callback, ms)]: the handle and the new browser state. *)
Definition setTimeout (callback : Z -> Timer) (ms : Q) (e : Env) : Z * Env :=
  let handle := nextHandle e in
  (handle,
   {| clock := clock e; nextHandle := (handle + 1)%Z;
      pending := pending e ++ [(handle, callback (clock e + delayOf ms)%Z)];
      wire := wire e |}).

(** [window.clearTimeout(handle)]. *)
Definition clearTimeout (handle : Z) (e : Env) : Env :=
  {| clock := clock e; nextHandle := nextHandle e;
     pending := filter (fun entry => fst entry <> handle) (pending e);
     wire := wire e |}.

(** *** The class *)

Definition withTimers (m : t) (timers starts : gmap string Z) : t :=
  {| midiOut := midiOut m; midiStrumChannel := midiStrumChannel m;
     activeNoteTimers := timers; noteStartTimes := starts |}.

Definition allChannels : list Z := seqZ 0 16.

(** The channels a strummed note goes to: the configured one, 0-indexed, or
    all sixteen. *)
Definition strumChannels (m : t) : list Z :=
  match midiStrumChannel m with
  | Some channel => [(channel - 1)%Z]
  | None => allChannels
  end.

(** [channels.join(',')]. *)
Fixpoint join (parts : list string) : string :=
  match parts with
  | [] => ""
  | [part] => part
  | part :: rest => String.append part (String.append "," (join rest))
  end.

(** The template [`${midiNote}-${channels.join(',')}`]. *)
Definition noteKeyOf (midiNote : Z) (channels : list Z) : string :=
  String.append (pretty midiNote) (String.append "-" (join (pretty <$> channels))).

Definition noteOn (midiNote velocity channel : Z) : list Z :=
  [(0x90 + channel)%Z; midiNote; velocity].

Definition noteOff (midiNote channel : Z) : list Z :=
  [(0x80 + channel)%Z; midiNote; 0x40%Z].

(** The body of the timer callback, run when the timer fires. *)
Definition fire (tm : Timer) (w : World) : World :=
  let '(m, e) := w in
  let e :=
    match midiOut m with
    | Some _ => sendAll (noteOff (timerNote tm) <$> timerChannels tm) e
    | None => e
    end in
  (withTimers m (delete (timerKey tm) (activeNoteTimers m))
              (delete (timerKey tm) (noteStartTimes m)), e).

(** Lines shared by [sendNote] and [sendRawNote], from the key on. *)
Definition startNote (midiNote velocity : Z) (channels : list Z) (duration : Q)
    (w : World) : World :=
  let '(m, e) := w in
  let noteKey := noteKeyOf midiNote channels in
  let '(timers, e) :=
    match activeNoteTimers m !! noteKey with
    | Some oldTimer => (delete noteKey (activeNoteTimers m), clearTimeout oldTimer e)
    | None => (activeNoteTimers m, e)
    end in
  let e := sendAll ((noteOn midiNote velocity) <$> channels) e in
  let starts := <[noteKey := clock e]> (noteStartTimes m) in
  let '(timer, e) :=
    setTimeout (fun due => mkTimer due channels midiNote noteKey)
               (duration * 1000)%Q e in
  (withTimers m (<[noteKey := timer]> timers) starts, e).

(** [sendNote(note, velocity, duration = 1.5)]. Reading [note.notation] of
    an undefined note throws. *)
Definition sendNote (note : option NoteObject) (velocity : Z) (duration : option Q)
    (w : World) : result World :=
  let '(m, e) := w in
  match midiOut m with
  | None => Ok w
  | Some _ =>
      match note with
      | None => Throw "TypeError" w
      | Some note =>
          let midiNote :=
            Note.notationToMIDI
              (String.append (notation note) (Note.String_of (octave note))) in
          Ok (startNote midiNote velocity (strumChannels m)
                        (default (3 # 2) duration) w)
      end
  end.

(** [sendRawNote(midiNote, velocity, channel = null, duration = 1.5)]. *)
Definition sendRawNote (midiNote velocity : Z) (channel : option Z)
    (duration : option Q) (w : World) : result World :=
  let '(m, e) := w in
  match midiOut m with
  | None => Ok w
  | Some _ =>
      let channels :=
        match channel with
        | Some channel => [(channel - 1)%Z]
        | None => strumChannels m
        end in
      Ok (startNote midiNote velocity channels (default (3 # 2) duration) w)
  end.

(** One turn of the loop of [releaseNotes]. *)
Definition releaseNote (channels : list Z) (note : option NoteObject) (w : World)
  : result World :=
  let '(m, e) := w in
  match note with
  | None => Throw "TypeError" w
  | Some note =>
      let midiNote :=
        Note.notationToMIDI
          (String.append (notation note) (Note.String_of (octave note))) in
      let noteKey := noteKeyOf midiNote channels in
      let '(timers, e) :=
        match activeNoteTimers m !! noteKey with
        | Some timer => (delete noteKey (activeNoteTimers m), clearTimeout timer e)
        | None => (activeNoteTimers m, e)
        end in
      let starts := delete noteKey (noteStartTimes m) in
      let e := sendAll (noteOff midiNote <$> channels) e in
      Ok (withTimers m timers starts, e)
  end.

Fixpoint releaseEach (channels : list Z) (notes : list (option NoteObject))
    (w : World) : result World :=
  match notes with
  | [] => Ok w
  | note :: rest => w' <- releaseNote channels note w ;; releaseEach channels rest w'
  end.

(** [releaseNotes(notes)]; a missing list behaves as the empty one. *)
Definition releaseNotes (notes : list (option NoteObject)) (w : World) : result World :=
  let '(m, e) := w in
  match midiOut m with
  | None => Ok w
  | Some _ =>
      if (length notes =? 0)%nat then Ok w
      else releaseEach (strumChannels m) notes w
  end.

(** [sendPitchBend(bendValue)]. *)
Definition sendPitchBend (bendValue : Q) (w : World) : result World :=
  let '(m, e) := w in
  match midiOut m with
  | None => Ok w
  | Some _ =>
      let bendValue := Qmax (-1) (Qmin 1 bendValue) in
      let midiBend := Qfloor ((bendValue + 1) * 8192) in
      let midiBend := Z.max 0 (Z.min 16383 midiBend) in
      let lsb := Z.land midiBend 0x7F in
      let msb := Z.land (Z.shiftr midiBend 7) 0x7F in
      Ok (m, sendAll ((fun channel => [(0xE0 + channel)%Z; lsb; msb])
                        <$> strumChannels m) e)
  end.

(** [close()]: every timer the map knows is cleared, then both maps are. *)
Definition close (w : World) : World :=
  let '(m, e) := w in
  let e := foldl (fun e entry => clearTimeout (snd entry) e) e
                 (map_to_list (activeNoteTimers m)) in
  (withTimers m ∅ ∅, e).

(** *** The passing of time *)

(** The timer to fire next when the clock is allowed to reach [time]: the
    earliest one due by then, the oldest among equals. *)
Fixpoint nextDue (timers : list (Z * Timer)) (time : Z) : option (Z * Timer) :=
  match timers with
  | [] => None
  | (handle, tm) :: rest =>
      match nextDue rest time with
      | Some (handle', tm') =>
          if (fireAt tm <=? time)%Z && (fireAt tm <=? fireAt tm')%Z
          then Some (handle, tm) else Some (handle', tm')
      | None => if (fireAt tm <=? time)%Z then Some (handle, tm) else None
      end
  end.

Definition setClock (time : Z) (e : Env) : Env :=
  {| clock := time; nextHandle := nextHandle e; pending := pending e; wire := wire e |}.

(** Fire the due timers in order, each at its own due time. A callback sets
    no timer, so one round per pending timer is enough. *)
Fixpoint fireDue (rounds : nat) (time : Z) (w : World) : World :=
  match rounds with
  | O => w
  | S rounds =>
      match nextDue (pending (snd w)) time with
      | None => w
      | Some (handle, tm) =>
          let e := setClock (Z.max (clock (snd w)) (fireAt tm)) (clearTimeout handle (snd w)) in
          fireDue rounds time (fire tm (fst w, e))
      end
  end.

(** Let the clock run up to [time]. *)
Definition advanceTo (time : Z) (w : World) : World :=
  let w := fireDue (length (pending (snd w))) time w in
  (fst w, setClock (Z.max (clock (snd w)) time) (snd w)).

(** The note-off messages on the wire (status byte 0x80..0x8F). *)
Definition isNoteOff (entry : Z * list Z) : bool :=
  match snd entry with
  | status :: _ => (0x80 <=? status)%Z && (status <? 0x90)%Z
  | [] => false
  end.

Definition noteOffs (e : Env) : list (Z * list Z) := List.filter isNoteOff (wire e).

(** *** Use of the class over time *)

(** What can happen to a [Midi] object: its methods are called, and time
    passes between the calls. *)
Inductive Op : Type :=
| DoRefreshConnection (outputs : list string)
| DoSendNote (note : option NoteObject) (velocity : Z) (duration : option Q)
| DoSendRawNote (midiNote velocity : Z) (channel : option Z) (duration : option Q)
| DoReleaseNotes (notes : list (option NoteObject))
| DoSendPitchBend (bendValue : Q)
| DoClose
| DoAdvanceTo (time : Z).

Definition perform (op : Op) (w : World) : result World :=
  match op with
  | DoRefreshConnection outputs => Ok (refreshConnection outputs (fst w), snd w)
  | DoSendNote note velocity duration => sendNote note velocity duration w
  | DoSendRawNote midiNote velocity channel duration =>
      sendRawNote midiNote velocity channel duration w
  | DoReleaseNotes notes => releaseNotes notes w
  | DoSendPitchBend bendValue => sendPitchBend bendValue w
  | DoClose => Ok (close w)
  | DoAdvanceTo time => Ok (advanceTo time w)
  end.

(** A history of calls; a call that throws does not stop the later ones. *)
Definition performAll (ops : list Op) (w : World) : World :=
  foldl (fun w op => stateOf (perform op w)) w ops.

(** The timers that are set, not yet fired or cleared, and carry key [k]. *)
Definition liveTimers (k : string) (e : Env) : list (Z * Timer) :=
  filter (fun entry => timerKey (snd entry) = k) (pending e).

(** The bookkeeping invariant: every live timer is the one its key maps to
    in [activeNoteTimers], handles are not reused, and none is set twice. *)
Definition consistent (w : World) : Prop :=
  (forall handle tm, (handle, tm) ∈ pending (snd w) ->
     activeNoteTimers (fst w) !! timerKey tm = Some handle)
  /\ (forall handle tm, (handle, tm) ∈ pending (snd w) ->
       (handle < nextHandle (snd w))%Z)
  /\ NoDup (fst <$> pending (snd w)).

(** The browser state once the old timer of key [k], if there is one, is
    cleared: the first thing [sendNote], [sendRawNote] and [releaseNotes] do
    for a key. *)
Definition cancelled (k : string) (w : World) : Env :=
  match activeNoteTimers (fst w) !! k with
  | Some old => clearTimeout old (snd w)
  | None => snd w
  end.

(** A valid MIDI channel configuration: 1 to 16, or none. *)
Definition validChannel (channel : option Z) : Prop :=
  match channel with
  | Some c => (1 <= c <= 16)%Z
  | None => True
  end.

(** Channels as they are on the wire: 0 to 15. *)
Definition validChannels (channels : list Z) : Prop :=
  Forall (fun channel => 0 <= channel < 16)%Z channels.

(** The retrigger scenario: a note is sent at time 0 for 0.2 s and sent
    again at time 50 ms; the result is the world at 200 ms and at 250 ms. *)
Definition retrigger (port : string) (channel : option Z) (note : NoteObject)
    (velocity1 velocity2 : Z) : World * World :=
  let w0 := (refreshConnection [port] (newMidi channel), newEnv) in
  let w1 := stateOf (sendNote (Some note) velocity1 (Some (2 # 10)) w0) in
  let w2 := advanceTo 50 w1 in
  let w3 := stateOf (sendNote (Some note) velocity2 (Some (2 # 10)) w2) in
  let w4 := advanceTo 200 w3 in
  (w4, advanceTo 250 w4).

End Midi.

(** ** chord-progression-state.ts *)
Module ChordProgressionState.

(** The fields of the class that its navigation methods use. *)
Record t : Type := mk {
  chords : list string;
  currentIndex : Z
}.

(** What a method returns that gives [string | null] and reads an array:
    [null], [undefined] for an index outside the array, or a chord. *)
Inductive Chord : Type :=
| null
| undefined
| chord (name : string).

Definition chordAt (chords : list string) (index : Z) : Chord :=
  match js_index chords index with
  | Some name => chord name
  | None => undefined
  end.

(** [((index % n) + n) % n], where [%] is the remainder of JavaScript, which
    has the sign of the dividend. *)
Definition wrap (index n : Z) : Z := Z.rem (Z.rem index n + n) n.

(** [setIndex(index)]: the value returned and the object afterwards. *)
Definition setIndex (index : Z) (s : t) : Z * t :=
  if (Z.of_nat (length (chords s)) =? 0)%Z then (0%Z, s)
  else
    let currentIndex := wrap index (Z.of_nat (length (chords s))) in
    (currentIndex, {| chords := chords s; currentIndex := currentIndex |}).

(** [incrementIndex(amount = 1)]. *)
Definition incrementIndex (amount : option Z) (s : t) : Z * t :=
  let amount := default 1%Z amount in
  if (Z.of_nat (length (chords s)) =? 0)%Z then (0%Z, s)
  else
    let currentIndex := wrap (currentIndex s + amount) (Z.of_nat (length (chords s))) in
    (currentIndex, {| chords := chords s; currentIndex := currentIndex |}).

(** [getCurrentChord()]. *)
Definition getCurrentChord (s : t) : Chord :=
  if (Z.of_nat (length (chords s)) =? 0)%Z then null
  else chordAt (chords s) (currentIndex s).

(** [getChordAtIndex(index)]. *)
Definition getChordAtIndex (index : Z) (s : t) : Chord :=
  if (Z.of_nat (length (chords s)) =? 0)%Z then null
  else
    let wrappedIndex := wrap index (Z.of_nat (length (chords s))) in
    chordAt (chords s) wrappedIndex.

(** [reset()]. *)
Definition reset (s : t) : t := {| chords := chords s; currentIndex := 0 |}.

(** [incrementIndex(1)] called [count] times. *)
Fixpoint advance (count : nat) (s : t) : t :=
  match count with
  | O => s
  | S count => advance count (snd (incrementIndex (Some 1%Z) s))
  end.

End ChordProgressionState.

(** ** Proof automation *)

(** Side conditions of the rules on a state whose fields are known. *)
Ltac side := first [reflexivity | discriminate | (intro; discriminate) | done].

(** Unfold the record updates of the browser model and project the fields of
    the records that result. *)
Ltac norm :=
  unfold Midi.setClock, Midi.clearTimeout, Midi.withTimers, Midi.refreshConnection,
    Midi.newMidi, Midi.newEnv;
  cbn [fst snd Midi.clock Midi.nextHandle Midi.pending Midi.wire Midi.midiOut
       Midi.midiStrumChannel Midi.activeNoteTimers Midi.noteStartTimes Midi.fireAt
       Midi.timerChannels Midi.timerNote Midi.timerKey app].

(** Case analysis on membership in a list that is written out, and on an
    integer known to be a decimal digit. *)
Ltac each_name H :=
  repeat (apply elem_of_cons in H as [-> | H]); try (now apply elem_of_nil in H).

Ltac each_digit d H :=
  assert (Hdigit : (d = 0 \/ d = 1 \/ d = 2 \/ d = 3 \/ d = 4 \/ d = 5 \/ d = 6
                    \/ d = 7 \/ d = 8 \/ d = 9)%Z) by lia;
  clear H; repeat (destruct Hdigit as [-> | Hdigit]); try subst d.

(** Membership of a written-out name in one of the notation tables. *)
Ltac in_table :=
  solve [unfold Note.sharpNotations, Note.flatNotations; repeat constructor].

(** ** Properties of the strum engine *)
Module StrummerFacts.
Import Strummer StrummerSpec.

Lemma stringWidth_pos (s : t) :
  (0 < _width s)%Q -> _notes s <> [] -> (0 < stringWidth s)%Q.
Proof.
  intros Hw Hn. unfold stringWidth.
  apply Qlt_shift_div_l.
  - change 0%Q with (inject_Z 0). rewrite <- Zlt_Qlt.
    destruct (_notes s); [congruence | simpl; lia].
  - now rewrite Qmult_0_l.
Qed.

Lemma floor_between (q : Q) (k : Z) :
  (inject_Z k <= q)%Q -> (q < inject_Z (k + 1))%Q -> Qfloor q = k.
Proof.
  intros Hlo Hhi.
  assert (H1 : (k <= Qfloor q)%Z).
  { rewrite <- (Qfloor_Z k). now apply Qfloor_resp_le. }
  assert (H2 : (Qfloor q < k + 1)%Z).
  { rewrite Zlt_Qlt. eapply Qle_lt_trans; [apply Qfloor_le | exact Hhi]. }
  lia.
Qed.

Lemma floor_inside (s : t) (k : Z) (x : Q) :
  (0 < _width s)%Q -> _notes s <> [] -> inside s k x ->
  Qfloor (x / stringWidth s) = k.
Proof.
  intros Hw Hn [Hlo Hhi].
  pose proof (stringWidth_pos s Hw Hn) as Hsw.
  apply floor_between.
  - now apply Qle_shift_div_l.
  - now apply Qlt_shift_div_r.
Qed.

Lemma stringIndex_inside (s : t) (k : Z) (x : Q) :
  (0 < _width s)%Q -> _notes s <> [] -> (k < stringCount s)%Z -> inside s k x ->
  stringIndex s x = k.
Proof.
  intros Hw Hn Hk Hin. unfold stringIndex.
  rewrite (floor_inside s k x Hw Hn Hin). unfold stringCount in Hk. lia.
Qed.

(** [strum] never touches the width or the note list, so the string a
    position falls on is the same before and after. *)
Lemma stringIndex_upd (s : t) lsi lp lt lsv buf pti (x : Q) :
  stringIndex (upd s lsi lp lt lsv buf pti) x = stringIndex s x.
Proof. reflexivity. Qed.


Lemma Qltb_geb (a b : Q) : Qltb a b = negb (Qgeb a b).
Proof. reflexivity. Qed.

Lemma Qgeb_true (a b : Q) : Qgeb a b = true <-> (b <= a)%Q.
Proof. unfold Qgeb. apply Qle_bool_iff. Qed.

Lemma Qgeb_false (a b : Q) : Qgeb a b = false <-> (a < b)%Q.
Proof.
  unfold Qgeb. rewrite <- not_true_iff_false, Qle_bool_iff. split.
  - apply Qnot_le_lt.
  - apply Qlt_not_le.
Qed.

Lemma run_step (s s1 : t) (r : option StrumResult) (x p : Q) (now : Z)
    (rest : list sample) :
  strum s x p now = (s1, r) ->
  run s ((x, p, now) :: rest) = (fst (run s1 rest), r :: snd (run s1 rest)).
Proof. intros H. simpl. rewrite H. now destruct (run s1 rest). Qed.

(** *** The branches of [strum], one rule each *)
Section Rules.
Variables (s : t) (x p : Q) (now : Z).
Hypothesis Hnotes : _notes s <> [].

Lemma notes_nonempty : (length (_notes s) =? 0)%nat = false.
Proof using Hnotes. destruct (_notes s); [congruence | reflexivity]. Qed.

(** Pressure falls through the threshold: everything transient is reset
    and a release is reported if a strum had been committed. *)
Lemma strum_release :
  (pressureThreshold s <= lastPressure s)%Q -> (p < pressureThreshold s)%Q ->
  strum s x p now
  = (upd s (-1) p (inject_Z now / 1000)%Q 0 [] (-1),
     if (0 <? lastStrumVelocity s)%Z
     then Some (release_result (lastStrumVelocity s)) else None).
Proof using Hnotes.
  intros Hl Hp. apply Qgeb_true in Hl. apply Qgeb_false in Hp.
  unfold strum. rewrite notes_nonempty, Qltb_geb. rewrite Hl, Hp. simpl.
  now destruct (0 <? lastStrumVelocity s)%Z.
Qed.

(** Below the threshold, before and now, with no tap pending. *)
Lemma strum_idle :
  (lastPressure s < pressureThreshold s)%Q -> (p < pressureThreshold s)%Q ->
  pendingTapIndex s = (-1)%Z ->
  strum s x p now
  = (upd s (lastStrummedIndex s) p (inject_Z now / 1000)%Q (lastStrumVelocity s)
         (pressureBuffer s) (pendingTapIndex s), None).
Proof using Hnotes.
  intros Hl Hp Hpend. apply Qgeb_false in Hl. apply Qgeb_false in Hp.
  unfold strum. rewrite notes_nonempty, !Qltb_geb.
  rewrite Hl, Hp, Hpend. reflexivity.
Qed.

(** Pressure rises through the threshold with nothing committed: the tap
    is recorded on the string under the pen and nothing is reported. *)
Lemma strum_tap_start :
  (lastPressure s < pressureThreshold s)%Q -> (pressureThreshold s <= p)%Q ->
  lastStrummedIndex s = (-1)%Z ->
  strum s x p now
  = (upd s (-1) p (inject_Z now / 1000)%Q (lastStrumVelocity s)
         [(lastPressure s, lastTimestamp s); (p, (inject_Z now / 1000)%Q)]
         (stringIndex s x), None).
Proof using Hnotes.
  intros Hl Hp Hlsi. apply Qgeb_false in Hl. apply Qgeb_true in Hp.
  unfold strum. rewrite notes_nonempty, !Qltb_geb.
  rewrite Hl, Hp, Hlsi. reflexivity.
Qed.

(** A pending tap whose buffer this sample fills: the strum is committed
    on the pending string with the tap velocity of this sample. *)
Lemma strum_commit :
  (pressureThreshold s <= lastPressure s)%Q -> (pressureThreshold s <= p)%Q ->
  pendingTapIndex s <> (-1)%Z ->
  (Z.of_nat (length (pressureBuffer s)) < bufferMaxSamples s)%Z ->
  (bufferMaxSamples s <= Z.of_nat (length (pressureBuffer s)) + 1)%Z ->
  strum s x p now
  = (upd s (pendingTapIndex s) p (inject_Z now / 1000)%Q
         (tapVelocity (pressureThreshold s) p) [] (-1),
     Some (strum_result
             [(js_index (_notes s) (pendingTapIndex s),
               tapVelocity (pressureThreshold s) p)])).
Proof using Hnotes.
  intros Hl Hp Hpend Hlt Hfull. apply Qgeb_true in Hl. apply Qgeb_true in Hp.
  unfold strum. rewrite notes_nonempty, !Qltb_geb. rewrite Hl, Hp.
  apply Z.eqb_neq in Hpend. rewrite Hpend.
  apply Z.ltb_lt in Hlt. rewrite Hlt.
  rewrite length_app. simpl length.
  replace (bufferMaxSamples s <=? Z.of_nat (length (pressureBuffer s) + 1))%Z
    with true by (symmetry; apply Z.leb_le; lia).
  simpl. now rewrite andb_false_r.
Qed.

(** Pressure held on the string that was last strummed. *)
Lemma strum_held_same :
  (pressureThreshold s <= lastPressure s)%Q -> (pressureThreshold s <= p)%Q ->
  pendingTapIndex s = (-1)%Z ->
  lastStrummedIndex s <> (-1)%Z -> stringIndex s x = lastStrummedIndex s ->
  strum s x p now
  = (upd s (lastStrummedIndex s) p (inject_Z now / 1000)%Q (lastStrumVelocity s)
         (pressureBuffer s) (pendingTapIndex s), None).
Proof using Hnotes.
  intros Hl Hp Hpend Hlsi Hidx. apply Qgeb_true in Hl. apply Qgeb_true in Hp.
  unfold strum. rewrite notes_nonempty, !Qltb_geb.
  rewrite Hl, Hp, Hpend, Hidx. apply Z.eqb_neq in Hlsi. rewrite Hlsi.
  rewrite Z.eqb_refl. reflexivity.
Qed.

(** Pressure held while the pen has moved to another string. *)
Lemma strum_held_cross :
  (pressureThreshold s <= lastPressure s)%Q -> (pressureThreshold s <= p)%Q ->
  pendingTapIndex s = (-1)%Z ->
  lastStrummedIndex s <> (-1)%Z -> stringIndex s x <> lastStrummedIndex s ->
  let velocity := Z.max 20 (Qfloor (p * 127)) in
  let indices :=
    if (lastStrummedIndex s <? stringIndex s x)%Z
    then indicesUp (lastStrummedIndex s + 1) (stringIndex s x)
    else indicesDown (lastStrummedIndex s - 1) (stringIndex s x) in
  let notesToPlay := (fun i => (js_index (_notes s) i, velocity)) <$> indices in
  strum s x p now
  = (upd s (stringIndex s x) p (inject_Z now / 1000)%Q velocity
         (pressureBuffer s) (pendingTapIndex s),
     if (0 <? length notesToPlay)%nat then Some (strum_result notesToPlay) else None).
Proof using Hnotes.
  intros Hl Hp Hpend Hlsi Hidx. apply Qgeb_true in Hl. apply Qgeb_true in Hp.
  unfold strum. rewrite notes_nonempty, !Qltb_geb.
  rewrite Hl, Hp, Hpend. apply Z.eqb_neq in Hlsi. rewrite Hlsi.
  assert (Hne : (lastStrummedIndex s =? stringIndex s x)%Z = false)
    by (apply Z.eqb_neq; congruence).
  rewrite Hne. reflexivity.
Qed.

End Rules.

(** With nothing committed yet, the only branch of [strum] that returns a
    strum is the one that commits the pending tap. *)
Lemma strum_result_commit (sp s : t) (x p : Q) (now : Z)
    (played : list (option NoteObject * Z)) :
  lastStrummedIndex sp = (-1)%Z ->
  strum sp x p now = (s, Some (strum_result played)) ->
  s = upd sp (pendingTapIndex sp) p (inject_Z now / 1000)
          (tapVelocity (pressureThreshold sp) p) [] (-1)
  /\ played = [(js_index (_notes sp) (pendingTapIndex sp),
                tapVelocity (pressureThreshold sp) p)].
Proof.
  intros Hlsi. unfold strum. rewrite Hlsi.
  change (-1 =? -1)%Z with true. cbn [negb].
  rewrite andb_false_r, andb_false_l.
  repeat match goal with
         | |- context [if ?b then _ else _] => destruct b
         end; intros H; inversion H; subst; auto.
Qed.

Lemma commit_enters_held (sp s : t) (x p : Q) (now : Z)
    (played : list (option NoteObject * Z)) :
  lastStrummedIndex sp = (-1)%Z ->
  strum sp x p now = (s, Some (strum_result played)) ->
  (pressureThreshold sp <= p)%Q ->
  held s (pendingTapIndex sp) /\ _notes s = _notes sp
  /\ pressureThreshold s = pressureThreshold sp.
Proof.
  intros Hlsi Hstrum Hp.
  destruct (strum_result_commit sp s x p now played Hlsi Hstrum) as [-> _].
  repeat split. exact Hp.
Qed.

(** *** The specified scenarios *)

(** C1. Three equal strings, threshold 0.1, pressures 0, 0.5, 0.5, 0.5 at
    a position [x] that stays on string 1: the first two calls return
    nothing; the second leaves the tap buffer one short of its capacity;
    the third call fills it and returns one strum of string 1 alone; the
    fourth returns nothing again. The velocity is the pressure 0.5 of that
    third sample, normalised against [0.1, 1], scaled into 20..127 and
    floored, which is 67. *)
Theorem tap_buffer_emits_one_strum
    (n0 n1 n2 : NoteObject) (w h x : Q) (t1 t2 t3 t4 : Z) :
  (0 < w)%Q ->
  inside (threeStrings n0 n1 n2 w h) 1 x ->
  let s0 := threeStrings n0 n1 n2 w h in
  let velocity :=
    Z.max 20 (Z.min 127
      (Qfloor (20 + Qmax 0 (Qmin 1 (((1 # 2) - (1 # 10)) / (1 - (1 # 10)))) * 107))) in
  snd (run s0 [(x, 0, t1); (x, 1 # 2, t2); (x, 1 # 2, t3); (x, 1 # 2, t4)])
    = [None; None; Some (strum_result [(Some n1, velocity)]); None]
  /\ (let s2 := fst (run s0 [(x, 0, t1); (x, 1 # 2, t2)]) in
      (Z.of_nat (length (pressureBuffer s2)) + 1)%Z = bufferMaxSamples s2
      /\ pendingTapIndex s2 = 1%Z)
  /\ velocity = 67%Z /\ (20 <= velocity <= 127)%Z.
Proof.
  intros Hw Hin s0 velocity.
  assert (Hidx : stringIndex s0 x = 1%Z).
  { apply stringIndex_inside; [exact Hw | discriminate | reflexivity | exact Hin]. }
  assert (Hv : velocity = 67%Z) by (vm_compute; reflexivity).
  split; [| split; [| split; [exact Hv | lia]]].
  - erewrite run_step; [| apply strum_idle; side].
    erewrite run_step; [| apply strum_tap_start; side].
    erewrite run_step.
    2: { apply strum_commit; try side.
         cbn [pendingTapIndex upd]. rewrite stringIndex_upd, Hidx. discriminate. }
    erewrite run_step.
    2: { apply strum_held_same; try side.
         cbn [lastStrummedIndex pendingTapIndex upd].
         rewrite stringIndex_upd, Hidx. discriminate. }
    cbn [fst snd run pendingTapIndex upd].
    rewrite stringIndex_upd, Hidx. reflexivity.
  - erewrite run_step; [| apply strum_idle; side].
    erewrite run_step; [| apply strum_tap_start; side].
    cbn [fst snd run pendingTapIndex upd]. split; [reflexivity |].
    now rewrite stringIndex_upd.
Qed.

Lemma tap_buffer_emits_one_strum_witness :
  snd (run (threeStrings noteC4 noteE4 noteG4 1 1)
           [(1 # 2, 0, 0%Z); (1 # 2, 1 # 2, 10%Z); (1 # 2, 1 # 2, 20%Z);
            (1 # 2, 1 # 2, 30%Z)])
  = [None; None; Some (strum_result [(Some noteE4, 67%Z)]); None].
Proof.
  refine (proj1 (tap_buffer_emits_one_strum noteC4 noteE4 noteG4 1 1 (1 # 2)
                   0 10 20 30 _ _)).
  - reflexivity.
  - split; [discriminate | reflexivity].
Defined.

(** Held on one string, a sample on another string with pressure kept up
    plucks every string from the one after the old to the new one. *)
Lemma held_cross_0_2 (s : t) (x p : Q) (now : Z)
    (n0 n1 n2 : NoteObject) (more : list NoteObject) :
  _notes s = n0 :: n1 :: n2 :: more ->
  held s 0 -> (pressureThreshold s <= p)%Q -> stringIndex s x = 2%Z ->
  let velocity := Z.max 20 (Qfloor (p * 127)) in
  strum s x p now
  = (upd s 2 p (inject_Z now / 1000) velocity (pressureBuffer s) (pendingTapIndex s),
     Some (strum_result [(Some n1, velocity); (Some n2, velocity)])).
Proof.
  intros Hnotes (Hlsi & Hpend & Hlast) Hp Hidx velocity.
  rewrite strum_held_cross; try assumption.
  - rewrite Hidx, Hlsi, Hnotes. reflexivity.
  - rewrite Hnotes. discriminate.
  - rewrite Hlsi. discriminate.
  - rewrite Hidx, Hlsi. discriminate.
Qed.

(** C2. A call of [strum] commits a tap on string 0 (nothing was committed
    before it, and its pressure is at or above the threshold). The next
    call, with pressure still at or above the threshold and a position on
    string 2, returns one strum that lists string 1 and then string 2,
    each once, both with velocity max(20, floor(pressure * 127)); string 2
    becomes the committed string. *)
Theorem sustained_move_strums_crossed_strings
    (sp s : t) (x0 p0 : Q) (t0 : Z) (played : list (option NoteObject * Z))
    (x p : Q) (now : Z) (n0 n1 n2 : NoteObject) (more : list NoteObject) :
  _notes sp = n0 :: n1 :: n2 :: more ->
  lastStrummedIndex sp = (-1)%Z ->
  strum sp x0 p0 t0 = (s, Some (strum_result played)) ->
  lastStrummedIndex s = 0%Z ->
  (pressureThreshold sp <= p0)%Q ->
  (pressureThreshold s <= p)%Q ->
  stringIndex s x = 2%Z ->
  let velocity := Z.max 20 (Qfloor (p * 127)) in
  played = [(Some n0, tapVelocity (pressureThreshold sp) p0)]
  /\ snd (strum s x p now)
     = Some (strum_result [(Some n1, velocity); (Some n2, velocity)])
  /\ lastStrummedIndex (fst (strum s x p now)) = 2%Z
  /\ indicesUp (lastStrummedIndex s + 1) (stringIndex s x) = [1%Z; 2%Z].
Proof.
  intros Hnotes Hnone Hcommit Hzero Hp0 Hp Hidx velocity.
  destruct (commit_enters_held sp s x0 p0 t0 played Hnone Hcommit Hp0)
    as ((Hlsi & Hheld) & Hsame & _).
  destruct (strum_result_commit sp s x0 p0 t0 played Hnone Hcommit) as [_ Hplayed].
  assert (Hpend : pendingTapIndex sp = 0%Z) by congruence.
  rewrite Hnotes in Hsame.
  rewrite (held_cross_0_2 s x p now n0 n1 n2 more Hsame (conj Hzero Hheld) Hp Hidx).
  split; [| split; [reflexivity | split; [reflexivity |]]].
  - rewrite Hplayed, Hpend, Hnotes. reflexivity.
  - rewrite Hzero, Hidx. reflexivity.
Qed.

Lemma sustained_move_strums_crossed_strings_witness :
  snd (strum (fst (strum tappedString0 (1 # 10) (1 # 2) 20)) (9 # 10) (1 # 2) 30)
  = Some (strum_result [(Some noteE4, 63%Z); (Some noteG4, 63%Z)]).
Proof.
  refine (proj1 (proj2 (sustained_move_strums_crossed_strings
            tappedString0 (fst (strum tappedString0 (1 # 10) (1 # 2) 20))
            (1 # 10) (1 # 2) 20 [(Some noteC4, 67%Z)]
            (9 # 10) (1 # 2) 30 noteC4 noteE4 noteG4 [] _ _ _ _ _ _ _)));
    vm_compute; first [reflexivity | discriminate].
Defined.

(** C4, at positions left of the surface. With three strings on a surface
    of width 1 the position x = -1/2 is given the string index -2: [strum]
    bounds the index from above only. The tap that starts there is
    committed with an undefined note. At x = -1/10 the index is -1, the
    value that also marks "no tap pending", and the tap is never committed. *)
Theorem negative_position_escapes_clamp :
  let s0 := threeStrings noteC4 noteE4 noteG4 1 1 in
  stringIndex s0 (-1 # 2) = (-2)%Z
  /\ stringIndex s0 (-1 # 2)
     <> Z.max 0 (Z.min (Qfloor ((-1 # 2) / stringWidth s0)) (stringCount s0 - 1))
  /\ ~ (0 <= stringIndex s0 (-1 # 2) <= stringCount s0 - 1)%Z
  /\ snd (run s0 [(-1 # 2, 0, 0%Z); (-1 # 2, 1 # 2, 10%Z); (-1 # 2, 1 # 2, 20%Z)])
     = [None; None; Some (strum_result [(None, 67%Z)])]
  /\ stringIndex s0 (-1 # 10) = (-1)%Z
  /\ snd (run s0 [(-1 # 10, 0, 0%Z); (-1 # 10, 1 # 2, 10%Z); (-1 # 10, 1 # 2, 20%Z);
                  (-1 # 10, 1 # 2, 30%Z); (-1 # 10, 1 # 2, 40%Z)])
     = [None; None; None; None; None].
Proof.
  vm_compute. repeat split; try discriminate. intros [H _]. now apply H.
Qed.

(** What does hold of the index on every sample: it is the floor of the
    position over the string width, bounded above by the last string; for
    a position that is not negative it is a valid string index and equals
    the two-sided clamp. *)
Lemma stringIndex_bounds (s : t) (x : Q) :
  (0 < _width s)%Q -> _notes s <> [] ->
  stringIndex s x = Z.min (Qfloor (x / stringWidth s)) (stringCount s - 1)
  /\ (stringIndex s x <= stringCount s - 1)%Z
  /\ ((0 <= x)%Q ->
      (0 <= stringIndex s x <= stringCount s - 1)%Z
      /\ stringIndex s x
         = Z.max 0 (Z.min (Qfloor (x / stringWidth s)) (stringCount s - 1))).
Proof.
  intros Hw Hn. pose proof (stringWidth_pos s Hw Hn) as Hsw.
  unfold stringIndex, stringCount.
  split; [reflexivity | split; [lia |]]. intros Hx.
  assert (H0 : (0 <= Qfloor (x / stringWidth s))%Z).
  { rewrite <- (Qfloor_Z 0). apply Qfloor_resp_le.
    apply Qle_shift_div_l; [exact Hsw |]. now rewrite Qmult_0_l. }
  assert (Hlen : (1 <= Z.of_nat (length (_notes s)))%Z)
    by (destruct (_notes s); [congruence | simpl; lia]).
  lia.
Qed.

(** C10. The first argument of [configure] is not used: whatever it is,
    the configured state is the same, hence so are the results of any
    stream of samples fed afterwards and the state they end in. *)
Theorem configure_scale_unobservable
    (s : t) (scale1 scale2 threshold : option Q) (samples : list sample) :
  configure scale1 threshold s = configure scale2 threshold s
  /\ snd (run (configure scale1 threshold s) samples)
     = snd (run (configure scale2 threshold s) samples)
  /\ fst (run (configure scale1 threshold s) samples)
     = fst (run (configure scale2 threshold s) samples).
Proof. repeat split. Qed.

(** *** Further properties of [strum] *)

Lemma run_cons (s : t) (x p : Q) (now : Z) (rest : list sample) :
  run s (@cons sample (x, p, now) rest)
  = (fst (run (fst (strum s x p now)) rest),
     snd (strum s x p now) :: snd (run (fst (strum s x p now)) rest)).
Proof.
  simpl. destruct (strum s x p now) as [s1 r]. simpl. now destruct (run s1 rest).
Qed.

(** One call leaves the bounds, the notes, the threshold and the buffer
    capacity as they are. *)
Lemma strum_frame (s : t) (x p : Q) (now : Z) :
  let s' := fst (strum s x p now) in
  _width s' = _width s /\ _height s' = _height s /\ _notes s' = _notes s
  /\ pressureThreshold s' = pressureThreshold s
  /\ bufferMaxSamples s' = bufferMaxSamples s.
Proof.
  unfold strum.
  repeat match goal with
         | |- context [if ?b then _ else _] => destruct b
         end; simpl; auto.
Qed.

(** X1. Whatever stream of samples is fed to [strum], the width, the
    height, the note list, the pressure threshold and the buffer capacity
    are the ones before the stream. *)
Theorem run_keeps_configuration (s : t) (samples : list sample) :
  let s' := fst (run s samples) in
  _width s' = _width s /\ _height s' = _height s /\ _notes s' = _notes s
  /\ pressureThreshold s' = pressureThreshold s
  /\ bufferMaxSamples s' = bufferMaxSamples s.
Proof.
  revert s. induction samples as [| [[x p] now] rest IH]; intros s; [simpl; auto |].
  cbv zeta. rewrite run_cons. cbn [fst].
  destruct (IH (fst (strum s x p now))) as (H1 & H2 & H3 & H4 & H5).
  destruct (strum_frame s x p now) as (G1 & G2 & G3 & G4 & G5).
  rewrite H1, H2, H3, H4, H5. auto.
Qed.

(** X2. With no notes loaded every call returns nothing and changes
    nothing, whatever the positions and pressures. *)
Theorem run_without_notes (s : t) (samples : list sample) :
  _notes s = [] ->
  run s samples = (s, replicate (length samples) None).
Proof.
  intros Hnotes. induction samples as [| [[x p] now] rest IH]; [reflexivity |].
  assert (Hstrum : strum s x p now = (s, None)).
  { unfold strum. now rewrite Hnotes. }
  rewrite run_cons, Hstrum. cbn [fst snd]. rewrite IH. reflexivity.
Qed.

Lemma run_without_notes_witness :
  run init [(1 # 2, 1 # 2, 0%Z); (1 # 2, 0, 10%Z)] = (init, [None; None]).
Proof.
  apply (run_without_notes init). reflexivity.
Defined.




(** X4. Lifting the pen after a committed strum: the call that sees the
    pressure fall below the threshold returns one release carrying the
    velocity of the last strum and forgets the committed string, the pending
    tap, the buffer and that velocity; a further call below the threshold
    returns nothing. *)
Theorem release_reported_once (s : t) (x p x' p' : Q) (now now' : Z) :
  _notes s <> [] ->
  (pressureThreshold s <= lastPressure s)%Q ->
  (p < pressureThreshold s)%Q -> (p' < pressureThreshold s)%Q ->
  (0 < lastStrumVelocity s)%Z ->
  let s1 := fst (strum s x p now) in
  snd (strum s x p now) = Some (release_result (lastStrumVelocity s))
  /\ lastStrummedIndex s1 = (-1)%Z /\ pendingTapIndex s1 = (-1)%Z
  /\ pressureBuffer s1 = [] /\ lastStrumVelocity s1 = 0%Z
  /\ snd (strum s1 x' p' now') = None.
Proof.
  intros Hnotes Hlast Hp Hp' Hvel s1. subst s1.
  rewrite (strum_release s x p now Hnotes Hlast Hp).
  apply Z.ltb_lt in Hvel. rewrite Hvel. cbn [fst snd upd lastStrummedIndex
    pendingTapIndex pressureBuffer lastStrumVelocity].
  repeat split.
  rewrite strum_idle; [reflexivity | exact Hnotes | exact Hp | exact Hp' | reflexivity].
Qed.

Lemma release_reported_once_witness :
  let s := fst (strum tappedString0 (1 # 10) (1 # 2) 20) in
  snd (strum s (1 # 10) 0 30) = Some (release_result 67)
  /\ snd (strum (fst (strum s (1 # 10) 0 30)) (1 # 10) 0 40) = None.
Proof.
  pose proof (release_reported_once (fst (strum tappedString0 (1 # 10) (1 # 2) 20))
                (1 # 10) 0 (1 # 10) 0 30 40) as H.
  cbv zeta in H. destruct H as (H1 & _ & _ & _ & _ & H2).
  1-5: vm_compute; first [reflexivity | discriminate].
  split; [exact H1 | exact H2].
Defined.








(** X8. [clearStrum] is silent: whatever the strummer was doing, the call
    that follows it returns nothing, so a pen that was down when the state
    was cleared produces no release; and the reset leaves the bounds, the
    notes and the threshold alone. *)
Theorem clearStrum_is_silent (s : t) (x p : Q) (now : Z) :
  snd (strum (clearStrum s) x p now) = None
  /\ _notes (clearStrum s) = _notes s /\ _width (clearStrum s) = _width s
  /\ pressureThreshold (clearStrum s) = pressureThreshold s
  /\ audible (clearStrum s).
Proof.
  split; [| repeat split; now left].
  unfold strum. cbn [clearStrum _notes lastPressure pressureThreshold lastStrumVelocity
    lastStrummedIndex pendingTapIndex pressureBuffer].
  change (-1 =? -1)%Z with true. change (0 <? 0)%Z with false. cbn [negb andb orb].
  rewrite !andb_false_r. cbn [andb].
  repeat match goal with
         | |- context [if ?b then _ else _] => destruct b
         end; reflexivity.
Qed.

(** X7. The tap velocity as a function of the pressure, for a threshold
    below 1: it never decreases when the pressure increases, it is 20 at the
    threshold (and below it) and 127 from pressure 1 on. *)
Theorem tapVelocity_shape (threshold : Q) :
  (threshold < 1)%Q ->
  (forall p p' : Q, (p <= p')%Q ->
     (tapVelocity threshold p <= tapVelocity threshold p')%Z)
  /\ (forall p : Q, (p <= threshold)%Q -> tapVelocity threshold p = 20%Z)
  /\ (forall p : Q, (1 <= p)%Q -> tapVelocity threshold p = 127%Z).
Proof.
  intros Hth.
  assert (Hden : (0 < 1 - threshold)%Q) by Lqa.lra.
  assert (Hinv : (0 <= / (1 - threshold))%Q)
    by (apply Qinv_le_0_compat; Lqa.lra).
  assert (Hmono : forall p p', (p <= p')%Q ->
            ((p - threshold) / (1 - threshold) <= (p' - threshold) / (1 - threshold))%Q).
  { intros p p' Hle. unfold Qdiv. apply Qmult_le_compat_r; [Lqa.lra | exact Hinv]. }
  split; [| split].
  - intros p p' Hle. unfold tapVelocity.
    apply Z.max_le_compat_l, Z.min_le_compat_l, Qfloor_resp_le.
    apply Qplus_le_r. apply Qmult_le_compat_r; [| Lqa.lra].
    apply Q.max_le_compat_l, Q.min_le_compat_l, Hmono, Hle.
  - intros p Hle. unfold tapVelocity.
    assert (Hneg : ((p - threshold) / (1 - threshold) <= 0)%Q).
    { assert (H0 : ((threshold - threshold) / (1 - threshold) == 0)%Q)
        by (unfold Qdiv; ring).
      rewrite <- H0. now apply Hmono. }
    assert (Hclamp : (Qmax 0 (Qmin 1 ((p - threshold) / (1 - threshold))) == 0)%Q).
    { apply Q.max_l. eapply Qle_trans; [apply Q.le_min_r | exact Hneg]. }
    assert (Hfloor : Qfloor (20 + Qmax 0 (Qmin 1 ((p - threshold) / (1 - threshold))) * 107)
                     = 20%Z).
    { rewrite Hclamp. reflexivity. }
    rewrite Hfloor. reflexivity.
  - intros p Hge. unfold tapVelocity.
    assert (Hone : (1 <= (p - threshold) / (1 - threshold))%Q).
    { apply Qle_shift_div_l; [exact Hden | Lqa.lra]. }
    assert (Hclamp : (Qmax 0 (Qmin 1 ((p - threshold) / (1 - threshold))) == 1)%Q).
    { rewrite (Q.min_l _ _ Hone). apply Q.max_r. Lqa.lra. }
    assert (Hfloor : Qfloor (20 + Qmax 0 (Qmin 1 ((p - threshold) / (1 - threshold))) * 107)
                     = 127%Z).
    { rewrite Hclamp. reflexivity. }
    rewrite Hfloor. reflexivity.
Qed.

Lemma tapVelocity_shape_witness :
  tapVelocity (1 # 10) (1 # 10) = 20%Z /\ tapVelocity (1 # 10) (3 # 2) = 127%Z
  /\ (tapVelocity (1 # 10) (3 # 10) <= tapVelocity (1 # 10) (6 # 10))%Z.
Proof.
  destruct (tapVelocity_shape (1 # 10)) as (Hmono & Hlow & Hhigh); [reflexivity |].
  split; [apply Hlow; discriminate | split; [apply Hhigh; discriminate |]].
  apply Hmono. discriminate.
Defined.

End StrummerFacts.


(** ** Properties of the decoder and of the effect curve *)
Module DataHelpersFacts.
Import DataHelpers.

Lemma toInt32_small (z : Z) : (0 <= z < 2 ^ 31)%Z -> toInt32 z = z.
Proof.
  intros Hz. unfold toInt32.
  rewrite Z.mod_small by lia.
  destruct (Z.ltb_spec z (2 ^ 31)); lia.
Qed.

(** On a byte, and for the first three positions, the 32-bit shift is the
    mathematical one. *)
Lemma js_shl_byte (b i : Z) :
  (0 <= b < 256)%Z -> (0 <= i <= 2)%Z -> js_shl b (8 * i) = Z.shiftl b (8 * i).
Proof.
  intros Hb Hi. unfold js_shl.
  rewrite (toInt32_small b) by lia.
  rewrite (Z.mod_small (8 * i) 32) by lia.
  apply toInt32_small.
  rewrite Z.shiftl_mul_pow2 by lia.
  assert (H : (0 < 2 ^ (8 * i) <= 2 ^ 16)%Z).
  { split; [apply Z.pow_pos_nonneg; lia | apply Z.pow_le_mono_r; lia]. }
  nia.
Qed.

Lemma combineBytes_littleEndian (data byteIndices : list Z) (i value : Z) :
  Forall (fun k => 0 <= k < Z.of_nat (length data))%Z byteIndices ->
  Forall (fun b => 0 <= b < 256)%Z data ->
  (0 <= i)%Z -> (i + Z.of_nat (length byteIndices) <= 3)%Z ->
  combineBytes data byteIndices i value
  = (value + littleEndian i (bytesAt data byteIndices))%Z.
Proof.
  intros Hidx Hdata. revert i value.
  induction Hidx as [| k rest Hk Hrest IH]; intros i value Hi Hlen.
  - simpl. lia.
  - simpl in Hlen. cbn [combineBytes bytesAt fmap list_fmap littleEndian].
    destruct (Z.ltb_spec k (Z.of_nat (length data))) as [_ | Hge]; [| lia].
    fold (bytesAt data rest).
    rewrite IH by lia.
    assert (Hbyte : (0 <= default 0 (js_index data k) < 256)%Z).
    { unfold js_index. destruct (Z.ltb_spec k 0); [lia |].
      destruct (data !! Z.to_nat k) as [b |] eqn:Hb; simpl; [| lia].
      rewrite Forall_lookup in Hdata. exact (Hdata _ _ Hb). }
    rewrite js_shl_byte by lia. lia.
Qed.

(** C5, as the code has it. For up to three byte indices inside a buffer of
    bytes, and [max] different from [min], the decoder returns
    (v - min) / (max - min) where v is the little-endian value of the
    selected bytes, byte [i] shifted left by [8 * i]. On the bytes 0x9b, 0x15
    with indices 0, 1 and the range 0..16383 that is 0x159b / 16383, that is
    5531 / 16383, which lies between 0.33755 and 0.33765. *)
Theorem multi_byte_range_little_endian :
  (forall (data byteIndices : list Z) (minVal maxVal : Q),
      byteIndices <> [] ->
      (length byteIndices <= 3)%nat ->
      Forall (fun k => 0 <= k < Z.of_nat (length data))%Z byteIndices ->
      Forall (fun b => 0 <= b < 256)%Z data ->
      ~ (maxVal == minVal)%Q ->
      parseMultiByteRangeData data byteIndices minVal maxVal
      = ((inject_Z (littleEndian 0 (bytesAt data byteIndices)) - minVal)
         / (maxVal - minVal))%Q)
  /\ littleEndian 0 [0x9b; 0x15]%Z = 0x159b%Z
  /\ (parseMultiByteRangeData [0x9b; 0x15]%Z [0; 1]%Z 0 16383 == 0x159b # 16383)%Q
  /\ (33755 # 100000 < parseMultiByteRangeData [0x9b; 0x15]%Z [0; 1]%Z 0 16383)%Q
  /\ (parseMultiByteRangeData [0x9b; 0x15]%Z [0; 1]%Z 0 16383 < 33765 # 100000)%Q.
Proof.
  split; [| repeat split; vm_compute; reflexivity].
  intros data byteIndices minVal maxVal Hne Hlen Hidx Hdata Hrange.
  unfold parseMultiByteRangeData.
  destruct byteIndices as [| k rest]; [congruence |].
  cbn [length Nat.eqb].
  destruct (Qeq_bool maxVal minVal) eqn:Heq.
  - apply Qeq_bool_iff in Heq. contradiction.
  - rewrite combineBytes_littleEndian; [reflexivity | assumption .. | lia |].
    apply Nat2Z.inj_le in Hlen. simpl in Hlen |- *. lia.
Qed.

Lemma multi_byte_range_little_endian_witness :
  parseMultiByteRangeData [0x9b; 0x15]%Z [0; 1]%Z 0 16383
  = ((inject_Z (littleEndian 0 (bytesAt [0x9b; 0x15]%Z [0; 1]%Z)) - 0) / (16383 - 0))%Q.
Proof.
  apply (proj1 multi_byte_range_little_endian).
  - discriminate.
  - simpl. lia.
  - repeat constructor; simpl; lia.
  - repeat constructor; lia.
  - discriminate.
Defined.

(** C5, as the specification words it: the value decoded from 0x9b, 0x15 is
    not 0.3403 to the four digits given; it falls short of it by more than
    0.0026. *)
Lemma multi_byte_range_not_03403 :
  let decoded := parseMultiByteRangeData [0x9b; 0x15]%Z [0; 1]%Z 0 16383 in
  (decoded == 5531 # 16383)%Q
  /\ ~ (Qabs (decoded - (3403 # 10000)) <= 5 # 100000)%Q
  /\ (26 # 10000 < (3403 # 10000) - decoded)%Q.
Proof.
  vm_compute. repeat split; try discriminate. intros H. now apply H.
Qed.

(** The curve fixes both ends of its input range, whatever the exponent. *)
Lemma applyCurve_0 (curve : R) : applyCurve 0 curve (0, 1)%R = 0%R.
Proof.
  unfold applyCurve. destruct (Rle_dec 0 0) as [_ | H]; [reflexivity | lra].
Qed.

Lemma applyCurve_1 (curve : R) : applyCurve 1 curve (0, 1)%R = 1%R.
Proof.
  unfold applyCurve.
  destruct (Rle_dec 1 0) as [H | _]; [lra |].
  destruct (Rge_dec 1 1) as [_ | H]; [reflexivity | lra].
Qed.

Lemma clamp01 (x : R) : (0 <= x <= 1)%R -> Rmax 0 (Rmin 1 x) = x.
Proof.
  intros [H0 H1]. rewrite Rmin_right by exact H1. now apply Rmax_right.
Qed.

(** C6. Central spread with multiplier 1, for every [min], [max] (in
    particular whenever [min <= max]) and every curve exponent: the input
    0.5 gives exactly [max]; the inputs 0 and 1 give exactly [min]. *)
Theorem central_spread_center_and_edges (minVal maxVal curve : R) :
  calculateEffectValue (5 / 10) minVal maxVal 1 curve central = maxVal
  /\ calculateEffectValue 0 minVal maxVal 1 curve central = minVal
  /\ calculateEffectValue 1 minVal maxVal 1 curve central = minVal.
Proof.
  unfold calculateEffectValue. repeat split.
  - rewrite Rmult_1_r, clamp01 by lra.
    replace (Rabs (5 / 10 - 5 / 10) * 2)%R with 0%R.
    + rewrite applyCurve_0. lra.
    + replace (5 / 10 - 5 / 10)%R with 0%R by lra. rewrite Rabs_R0. lra.
  - rewrite Rmult_1_r, clamp01 by lra.
    replace (Rabs (0 - 5 / 10) * 2)%R with 1%R.
    + rewrite applyCurve_1. lra.
    + rewrite Rabs_left by lra. lra.
  - rewrite Rmult_1_r, clamp01 by lra.
    replace (Rabs (1 - 5 / 10) * 2)%R with 1%R.
    + rewrite applyCurve_1. lra.
    + rewrite Rabs_right by lra. lra.
Qed.

(** *** Normalised fields *)

(** X18. [parseRangeData] with [min < max] on a byte inside the buffer
    returns [(byte - min) / (max - min)]: a number from 0 to 1 when the byte
    lies between [min] and [max], 0 exactly at [min] and 1 exactly at [max].
    When [max] equals [min] it returns 0 whatever the buffer holds. *)
Theorem parseRangeData_normalises (data : list Z) (byteIndex value : Z) (minVal maxVal : Q) :
  js_index data byteIndex = Some value ->
  (minVal < maxVal)%Q ->
  (exists r,
      parseRangeData data byteIndex minVal maxVal = Some r
      /\ (r == (inject_Z value - minVal) / (maxVal - minVal))%Q
      /\ ((minVal <= inject_Z value)%Q -> (inject_Z value <= maxVal)%Q ->
          (0 <= r)%Q /\ (r <= 1)%Q)
      /\ ((inject_Z value == minVal)%Q -> (r == 0)%Q)
      /\ ((inject_Z value == maxVal)%Q -> (r == 1)%Q))
  /\ (forall data' index', parseRangeData data' index' minVal minVal = Some 0%Q).
Proof.
  intros Hvalue Hlt. split.
  - unfold parseRangeData. rewrite Hvalue.
    destruct (Qeq_bool maxVal minVal) eqn:Heq.
    { apply Qeq_bool_iff in Heq. Lqa.lra. }
    eexists. split; [reflexivity |]. split; [reflexivity |].
    assert (Hden : (0 < maxVal - minVal)%Q) by Lqa.lra.
    split; [| split].
    + intros Hlo Hhi. split.
      * apply Qle_shift_div_l; [exact Hden | Lqa.lra].
      * apply Qle_shift_div_r; [exact Hden | Lqa.lra].
    + intros ->. unfold Qdiv. ring.
    + intros ->. field. Lqa.lra.
  - intros data' index'. unfold parseRangeData.
    now rewrite (proj2 (Qeq_bool_iff minVal minVal) (Qeq_refl minVal)).
Qed.

Lemma parseRangeData_normalises_witness :
  exists r, parseRangeData [2; 128; 255]%Z 1 0 255 = Some r
            /\ (r == (inject_Z 128 - 0) / (255 - 0))%Q.
Proof.
  destruct (proj1 (parseRangeData_normalises [2; 128; 255]%Z 1 128 0 255
                     eq_refl eq_refl)) as (r & H1 & H2 & _).
  exists r. split; [exact H1 | exact H2].
Defined.

(** X19. [parseBipolarRangeData] on a byte inside the buffer, with
    [posMin = 0 < posMax] and [negMax < negMin]: a byte below [negMax] is
    taken as positive and gives [byte / posMax], a number from 0 to 1 when
    the byte is from 0 to [posMax]; a byte from [negMax] to [negMin] is
    taken as wrapped negative and gives
    [- (negMin - byte) / (negMin - negMax)], a number from -1 to 0. *)
Theorem parseBipolarRangeData_ranges (data : list Z) (byteIndex value : Z)
    (posMax negMin negMax : Q) :
  js_index data byteIndex = Some value ->
  (0 < posMax)%Q -> (negMax < negMin)%Q ->
  ((inject_Z value < negMax)%Q -> (0 <= inject_Z value)%Q -> (inject_Z value <= posMax)%Q ->
   exists r, parseBipolarRangeData data byteIndex 0 posMax negMin negMax = Some r
             /\ (r == inject_Z value / posMax)%Q /\ (0 <= r)%Q /\ (r <= 1)%Q)
  /\ ((negMax <= inject_Z value)%Q -> (inject_Z value <= negMin)%Q ->
      exists r, parseBipolarRangeData data byteIndex 0 posMax negMin negMax = Some r
                /\ (r == - ((negMin - inject_Z value) / (negMin - negMax)))%Q
                /\ (-1 <= r)%Q /\ (r <= 0)%Q).
Proof.
  intros Hvalue Hpos Hneg. unfold parseBipolarRangeData. rewrite Hvalue. split.
  - intros Hlt H0 Hmax.
    assert (Hb : Qltb (inject_Z value) negMax = true).
    { unfold Qltb. apply negb_true_iff, not_true_iff_false.
      rewrite Qle_bool_iff. now apply Qlt_not_le. }
    rewrite Hb.
    destruct (Qeq_bool posMax 0) eqn:Heq.
    { apply Qeq_bool_iff in Heq. Lqa.lra. }
    eexists. split; [reflexivity |].
    assert (Hden : (0 < posMax - 0)%Q) by Lqa.lra.
    split; [| split].
    + assert (Hzero : (posMax - 0 == posMax)%Q) by ring. now rewrite Hzero.
    + apply Qle_shift_div_l; [exact Hden | Lqa.lra].
    + apply Qle_shift_div_r; [exact Hden | Lqa.lra].
  - intros Hge Hle.
    assert (Hb : Qltb (inject_Z value) negMax = false).
    { unfold Qltb. apply negb_false_iff. now apply Qle_bool_iff. }
    rewrite Hb.
    destruct (Qeq_bool negMin negMax) eqn:Heq.
    { apply Qeq_bool_iff in Heq. Lqa.lra. }
    eexists. split; [reflexivity |].
    assert (Hden : (0 < negMin - negMax)%Q) by Lqa.lra.
    assert (Hfrac : (0 <= (negMin - inject_Z value) / (negMin - negMax))%Q
                    /\ ((negMin - inject_Z value) / (negMin - negMax) <= 1)%Q).
    { split; [apply Qle_shift_div_l | apply Qle_shift_div_r]; Lqa.lra. }
    assert (Hopp : (- (negMin - inject_Z value) / (negMin - negMax)
                    == - ((negMin - inject_Z value) / (negMin - negMax)))%Q)
      by (unfold Qdiv; ring).
    split; [exact Hopp |]. rewrite Hopp. split; Lqa.lra.
Qed.

Lemma parseBipolarRangeData_ranges_witness :
  (exists r, parseBipolarRangeData [10]%Z 0 0 60 256 196 = Some r
             /\ (r == inject_Z 10 / 60)%Q /\ (0 <= r)%Q /\ (r <= 1)%Q).
Proof.
  apply (proj1 (parseBipolarRangeData_ranges [10]%Z 0 10 60 256 196
                  eq_refl eq_refl eq_refl)); reflexivity || discriminate.
Defined.

(** *** Button flags *)

Lemma buttonKey_inj (i j : Z) : buttonKey i = buttonKey j -> i = j.
Proof.
  unfold buttonKey. intros H.
  assert (Hp : pretty (i + 1)%Z = pretty (j + 1)%Z).
  { now apply (inj (String.app "button")) in H. }
  apply (inj pretty) in Hp. lia.
Qed.

(** On a byte, [flags & (1 << i)] is non-zero exactly when bit [i] is set. *)
Lemma flag_bit (flags i : Z) :
  (0 <= flags < 256)%Z -> (0 <= i < 31)%Z ->
  negb (js_and flags (js_shl 1 i) =? 0)%Z = Z.testbit flags i.
Proof.
  intros Hflags Hi. unfold js_and, js_shl.
  rewrite (Z.mod_small i 32) by lia.
  change (toInt32 1) with 1%Z.
  rewrite Z.shiftl_1_l.
  assert (Hpow : (0 < 2 ^ i < 2 ^ 31)%Z).
  { split; [apply Z.pow_pos_nonneg; lia | apply Z.pow_lt_mono_r; lia]. }
  rewrite (toInt32_small (2 ^ i)), (toInt32_small (2 ^ i)), (toInt32_small flags) by lia.
  destruct (Z.testbit flags i) eqn:Hbit.
  - apply negb_true_iff, Z.eqb_neq. intros Hzero.
    assert (Hland : Z.testbit (Z.land flags (2 ^ i)) i = true).
    { rewrite Z.land_spec, Hbit, Z.pow2_bits_true by lia. reflexivity. }
    rewrite Hzero, Z.bits_0 in Hland. discriminate.
  - apply negb_false_iff, Z.eqb_eq. apply Z.bits_inj'. intros n Hn.
    rewrite Z.land_spec, Z.bits_0.
    destruct (Z.eq_dec n i) as [-> | Hne].
    + now rewrite Hbit.
    + rewrite Z.pow2_bits_false by lia. apply andb_false_r.
Qed.

Lemma flags_fold (value : Z -> bool) (indices : list Z) (acc : gmap string bool) (i : Z) :
  foldl (fun result j => <[buttonKey j := value j]> result) acc indices !! buttonKey i
  = if decide (i ∈ indices) then Some (value i) else acc !! buttonKey i.
Proof.
  revert acc. induction indices as [| j rest IH]; intros acc; simpl.
  - destruct (decide (i ∈ [])) as [Hin | _]; [inversion Hin | reflexivity].
  - rewrite IH.
    destruct (decide (i ∈ rest)) as [Hin | Hnotin].
    + destruct (decide (i ∈ j :: rest)) as [_ | Hno]; [reflexivity |].
      exfalso. apply Hno. now right.
    + destruct (decide (i = j)) as [-> | Hne].
      * rewrite lookup_insert_eq.
        destruct (decide (j ∈ j :: rest)) as [_ | Hno]; [reflexivity |].
        exfalso. apply Hno. left.
      * rewrite lookup_insert_ne by (intros Heq; apply Hne; symmetry;
          now apply buttonKey_inj).
        destruct (decide (i ∈ j :: rest)) as [Hin | _]; [| reflexivity].
        apply elem_of_cons in Hin as [? | ?]; congruence.
Qed.

(** X20. [parseBitFlags] on a byte inside the buffer, for up to 31 buttons:
    the entry [button(i+1)] is present for each [i] below the button count
    and tells whether bit [i] of the byte is set; no entry exists for a
    button from the count on. When the byte index is at or beyond the end of
    the buffer the result is the empty object. *)
Theorem parseBitFlags_reads_bits (data : list Z) (byteIndex flags buttonCount : Z) :
  js_index data byteIndex = Some flags -> (0 <= flags < 256)%Z ->
  (buttonCount <= 31)%Z ->
  (forall i, (0 <= i < buttonCount)%Z ->
     parseBitFlags data byteIndex (Some buttonCount) !! buttonKey i
     = Some (Z.testbit flags i))
  /\ (forall i, (buttonCount <= i)%Z -> (0 <= i)%Z ->
        parseBitFlags data byteIndex (Some buttonCount) !! buttonKey i = None)
  /\ (forall data' index' count,
        (Z.of_nat (length data') <= index')%Z -> parseBitFlags data' index' count = ∅).
Proof.
  intros Hflags Hbyte Hcount.
  assert (Hin : (byteIndex < Z.of_nat (length data))%Z).
  { unfold js_index in Hflags. destruct (Z.ltb_spec byteIndex 0); [discriminate |].
    apply lookup_lt_Some in Hflags. lia. }
  split; [| split].
  - intros i Hi. unfold parseBitFlags.
    change (default 8%Z (Some buttonCount)) with buttonCount. cbv zeta.
    destruct (Z.leb_spec (Z.of_nat (length data)) byteIndex); [lia |].
    rewrite Hflags. change (default 0%Z (Some flags)) with flags.
    rewrite (flags_fold (fun j => negb (js_and flags (js_shl 1 j) =? 0)%Z)).
    destruct (decide (i ∈ seqZ 0 buttonCount)) as [_ | Hno].
    + f_equal. apply flag_bit; lia.
    + exfalso. apply Hno, elem_of_seqZ. lia.
  - intros i Hi Hnonneg. unfold parseBitFlags.
    change (default 8%Z (Some buttonCount)) with buttonCount. cbv zeta.
    destruct (Z.leb_spec (Z.of_nat (length data)) byteIndex); [lia |].
    rewrite (flags_fold (fun j => negb (js_and (default 0%Z (js_index data byteIndex))
                                               (js_shl 1 j) =? 0)%Z)).
    destruct (decide (i ∈ seqZ 0 buttonCount)) as [Hyes | _]; [| apply lookup_empty].
    apply elem_of_seqZ in Hyes. lia.
  - intros data' index' count Hout. unfold parseBitFlags.
    destruct (Z.leb_spec (Z.of_nat (length data')) index'); [reflexivity | lia].
Qed.

Lemma parseBitFlags_reads_bits_witness :
  parseBitFlags [6; 5]%Z 1 (Some 8%Z) !! buttonKey 2 = Some (Z.testbit 5 2).
Proof.
  apply (proj1 (parseBitFlags_reads_bits [6; 5]%Z 1 5 8 eq_refl ltac:(lia) ltac:(lia))).
  lia.
Defined.

(** *** The response curve and the three spreads *)

Lemma clamp_range (x : R) : (0 <= Rmax 0 (Rmin 1 x) <= 1)%R.
Proof.
  split; [apply Rmax_l |].
  apply Rmax_lub; [lra | apply Rmin_l].
Qed.

Lemma clamp_monotone (x y : R) :
  (x <= y)%R -> (Rmax 0 (Rmin 1 x) <= Rmax 0 (Rmin 1 y))%R.
Proof.
  intros Hxy. apply Rle_max_compat_l. apply Rle_min_compat_l. exact Hxy.
Qed.

(** The exponential ramp [(e^(c x) - 1) / (e^c - 1)] stays between 0 and 1
    on the unit interval and never decreases, for a rising ([c > 0]) and for
    a falling ([c < 0]) exponent alike. *)
Lemma ramp_monotone (curve x y : R) :
  curve <> 0%R -> (x <= y)%R ->
  ((exp (curve * x) - 1) / (exp curve - 1)
   <= (exp (curve * y) - 1) / (exp curve - 1))%R.
Proof.
  intros Hcurve Hxy.
  destruct (Rtotal_order curve 0) as [Hneg | [Hzero | Hpos]]; [| contradiction |].
  - assert (Hden : (exp curve - 1 < 0)%R).
    { pose proof (exp_increasing curve 0 Hneg) as H. rewrite exp_0 in H. lra. }
    assert (Hnum : (exp (curve * y) <= exp (curve * x))%R).
    { destruct (Req_dec x y) as [-> | Hne]; [lra |].
      left. apply exp_increasing. nra. }
    unfold Rdiv.
    assert (Hinv : (/ (exp curve - 1) < 0)%R) by (apply Rinv_lt_0_compat; exact Hden).
    nra.
  - assert (Hden : (0 < exp curve - 1)%R).
    { pose proof (exp_increasing 0 curve Hpos) as H. rewrite exp_0 in H. lra. }
    assert (Hnum : (exp (curve * x) <= exp (curve * y))%R).
    { destruct (Req_dec x y) as [-> | Hne]; [lra |].
      left. apply exp_increasing. nra. }
    unfold Rdiv.
    assert (Hinv : (0 < / (exp curve - 1))%R) by (apply Rinv_0_lt_compat; exact Hden).
    nra.
Qed.

Lemma ramp_0 (curve : R) : ((exp (curve * 0) - 1) / (exp curve - 1) = 0)%R.
Proof. rewrite Rmult_0_r, exp_0. unfold Rdiv. lra. Qed.

Lemma ramp_1 (curve : R) :
  curve <> 0%R -> ((exp (curve * 1) - 1) / (exp curve - 1) = 1)%R.
Proof.
  intros Hcurve. rewrite Rmult_1_r. field.
  intros Hzero.
  assert (Hexp : exp curve = exp 0) by (rewrite exp_0; lra).
  apply exp_inv in Hexp. contradiction.
Qed.

Lemma applyCurve_interior (value curve : R) :
  (0 < value < 1)%R -> curve <> 1%R ->
  applyCurve value curve (0, 1)%R
  = ((exp (curve * value) - 1) / (exp curve - 1))%R.
Proof.
  intros Hvalue Hcurve. unfold applyCurve.
  destruct (Rle_dec value 0); [lra |].
  destruct (Rge_dec value 1); [lra |].
  destruct (Req_dec_T curve 1); [contradiction |].
  replace ((value - 0) / (1 - 0))%R with value by (field; lra).
  lra.
Qed.

Lemma applyCurve_range (value curve : R) :
  curve <> 0%R -> (0 <= value <= 1)%R ->
  (0 <= applyCurve value curve (0, 1)%R <= 1)%R.
Proof.
  intros Hcurve Hvalue.
  destruct (Req_dec value 0) as [-> | H0]; [rewrite applyCurve_0; lra |].
  destruct (Req_dec value 1) as [-> | H1]; [rewrite applyCurve_1; lra |].
  destruct (Req_dec_T curve 1) as [-> | Hone].
  - unfold applyCurve.
    destruct (Rle_dec value 0); [lra |].
    destruct (Rge_dec value 1); [lra |].
    destruct (Req_dec_T 1 1); [lra | contradiction].
  - rewrite applyCurve_interior by (lra || assumption).
    pose proof (ramp_monotone curve 0 value Hcurve ltac:(lra)) as Hlow.
    pose proof (ramp_monotone curve value 1 Hcurve ltac:(lra)) as Hhigh.
    rewrite ramp_0 in Hlow. rewrite ramp_1 in Hhigh by assumption. lra.
Qed.

Lemma applyCurve_monotone (x y curve : R) :
  curve <> 0%R -> (0 <= x)%R -> (x <= y)%R -> (y <= 1)%R ->
  (applyCurve x curve (0, 1)%R <= applyCurve y curve (0, 1)%R)%R.
Proof.
  intros Hcurve Hx Hxy Hy.
  destruct (Req_dec x 0) as [-> | Hx0].
  { rewrite applyCurve_0. apply applyCurve_range; [assumption | lra]. }
  destruct (Req_dec y 1) as [-> | Hy1].
  { rewrite applyCurve_1. apply applyCurve_range; [assumption | lra]. }
  destruct (Req_dec_T curve 1) as [-> | Hone].
  - unfold applyCurve.
    destruct (Rle_dec x 0); [lra |]. destruct (Rge_dec x 1); [lra |].
    destruct (Rle_dec y 0); [lra |]. destruct (Rge_dec y 1); [lra |].
    destruct (Req_dec_T 1 1); [lra | contradiction].
  - rewrite !applyCurve_interior by (lra || assumption).
    now apply ramp_monotone.
Qed.

(** X21. On the unit range and for a curve exponent other than 0 (where the
    code divides 0 by 0), [applyCurve] maps the unit interval into itself
    and never decreases: a larger input never gives a smaller output. *)
Theorem applyCurve_bounded_and_monotone (x y curve : R) :
  curve <> 0%R -> (0 <= x)%R -> (x <= y)%R -> (y <= 1)%R ->
  (0 <= applyCurve x curve (0, 1)%R)%R
  /\ (applyCurve x curve (0, 1)%R <= applyCurve y curve (0, 1)%R)%R
  /\ (applyCurve y curve (0, 1)%R <= 1)%R.
Proof.
  intros Hcurve Hx Hxy Hy. split; [| split].
  - apply applyCurve_range; [assumption | lra].
  - now apply applyCurve_monotone.
  - apply applyCurve_range; [assumption | lra].
Qed.

Lemma applyCurve_bounded_and_monotone_witness :
  (0 <= applyCurve (1 / 4) 2 (0, 1)%R)%R
  /\ (applyCurve (1 / 4) 2 (0, 1)%R <= applyCurve (3 / 4) 2 (0, 1)%R)%R
  /\ (applyCurve (3 / 4) 2 (0, 1)%R <= 1)%R.
Proof.
  apply (applyCurve_bounded_and_monotone (1 / 4) (3 / 4) 2); lra.
Defined.

Lemma effect_value_range
    (inputValue minVal maxVal multiplier curve : R) (spread : Spread) :
  (minVal <= maxVal)%R -> curve <> 0%R ->
  (minVal <= calculateEffectValue inputValue minVal maxVal multiplier curve spread
     <= maxVal)%R.
Proof.
  intros Hrange Hcurve. unfold calculateEffectValue.
  pose proof (clamp_range (inputValue * multiplier)) as Hclamp.
  set (scaled := Rmax 0 (Rmin 1 (inputValue * multiplier))) in *.
  destruct spread.
  - pose proof (applyCurve_range scaled curve Hcurve Hclamp) as Hc. nra.
  - pose proof (applyCurve_range scaled curve Hcurve Hclamp) as Hc. nra.
  - assert (Hdist : (0 <= Rabs (scaled - 5 / 10) * 2 <= 1)%R).
    { split.
      - pose proof (Rabs_pos (scaled - 5 / 10)). lra.
      - assert (Rabs (scaled - 5 / 10) <= 5 / 10)%R by (apply Rabs_le; lra). lra. }
    pose proof (applyCurve_range _ curve Hcurve Hdist) as Hc. nra.
Qed.

(** X22. With [min <= max] and a curve exponent other than 0, the effect
    value lies between [min] and [max] for every input, every multiplier and
    each of the three spreads; and the direct and the inverse spread mirror
    each other: their values add up to [min + max]. *)
Theorem calculateEffectValue_within_range
    (inputValue minVal maxVal multiplier curve : R) (spread : Spread) :
  (minVal <= maxVal)%R -> curve <> 0%R ->
  (minVal <= calculateEffectValue inputValue minVal maxVal multiplier curve spread
     <= maxVal)%R
  /\ (calculateEffectValue inputValue minVal maxVal multiplier curve direct
      + calculateEffectValue inputValue minVal maxVal multiplier curve inverse
      = minVal + maxVal)%R.
Proof.
  intros Hrange Hcurve. split; [now apply effect_value_range |].
  unfold calculateEffectValue. lra.
Qed.

Lemma calculateEffectValue_within_range_witness :
  (0 <= calculateEffectValue (3 / 10) 0 127 2 3 central <= 127)%R
  /\ (calculateEffectValue (3 / 10) 0 127 2 3 direct
      + calculateEffectValue (3 / 10) 0 127 2 3 inverse = 0 + 127)%R.
Proof.
  apply (calculateEffectValue_within_range (3 / 10) 0 127 2 3 central); lra.
Defined.

(** X23. With [min <= max], a curve exponent other than 0 and a multiplier
    that is not negative, the direct spread never decreases and the inverse
    spread never increases when the input grows. *)
Theorem direct_rises_inverse_falls
    (x y minVal maxVal multiplier curve : R) :
  (minVal <= maxVal)%R -> curve <> 0%R -> (0 <= multiplier)%R -> (x <= y)%R ->
  (calculateEffectValue x minVal maxVal multiplier curve direct
   <= calculateEffectValue y minVal maxVal multiplier curve direct)%R
  /\ (calculateEffectValue y minVal maxVal multiplier curve inverse
      <= calculateEffectValue x minVal maxVal multiplier curve inverse)%R.
Proof.
  intros Hrange Hcurve Hmult Hxy.
  assert (Hscaled : (x * multiplier <= y * multiplier)%R) by nra.
  pose proof (clamp_range (x * multiplier)) as Hcx.
  pose proof (clamp_range (y * multiplier)) as Hcy.
  pose proof (clamp_monotone _ _ Hscaled) as Hclamp.
  pose proof (applyCurve_monotone _ _ curve Hcurve (proj1 Hcx) Hclamp (proj2 Hcy)) as Hc.
  unfold calculateEffectValue. split; nra.
Qed.

Lemma direct_rises_inverse_falls_witness :
  (calculateEffectValue (1 / 4) 0 127 1 2 direct
   <= calculateEffectValue (3 / 4) 0 127 1 2 direct)%R
  /\ (calculateEffectValue (3 / 4) 0 127 1 2 inverse
      <= calculateEffectValue (1 / 4) 0 127 1 2 inverse)%R.
Proof.
  apply (direct_rises_inverse_falls (1 / 4) (3 / 4) 0 127 1 2); lra.
Defined.

(** X24. [applyEffect] returns the configured default (0 when there is
    none) when the effect names no control, names the empty one, or names a
    control that the inputs neither hold nor inherit from [Object.prototype].
    When the inputs hold the control, the configured range is in order
    (missing bounds standing for 0 and 1) and the curve exponent is not 0,
    the result is a number in that range. *)
Theorem applyEffect_default_or_in_range
    (effectConfig : EffectConfig) (controlInputs : gmap string R)
    (controlType : string) (inputValue : R) :
  effectControl effectConfig = Some controlType -> controlType <> "" ->
  controlInputs !! controlType = Some inputValue ->
  (default 0 (effectMin effectConfig) <= default 1 (effectMax effectConfig))%R ->
  default 1%R (effectCurve effectConfig) <> 0%R ->
  (exists value,
      applyEffect effectConfig controlInputs = Some value
      /\ (default 0 (effectMin effectConfig) <= value
          <= default 1 (effectMax effectConfig))%R)
  /\ (forall config inputs,
        effectControl config = None
        \/ effectControl config = Some ""
        \/ (exists control, effectControl config = Some control
                             /\ inputs !! control = None
                             /\ control ∉ objectPrototype) ->
        applyEffect config inputs = Some (default 0%R (effectDefault config))).
Proof.
  intros Hcontrol Hname Hinput Hrange Hcurve. split.
  - unfold applyEffect. rewrite Hcontrol, Hinput.
    destruct (String.eqb_spec controlType ""); [contradiction |].
    eexists. split; [reflexivity |].
    now apply effect_value_range.
  - intros config inputs [Hnone | [Hempty | (control & Hsome & Hmissing & Hown)]];
      unfold applyEffect.
    + now rewrite Hnone.
    + now rewrite Hempty.
    + rewrite Hsome, Hmissing. destruct (String.eqb control ""); [reflexivity |].
      now rewrite bool_decide_eq_false_2.
Qed.

Lemma applyEffect_default_or_in_range_witness :
  exists value,
    applyEffect (mkEffectConfig (Some "pressure") None None (Some 127%R) None None None)
                (<["pressure" := (1 / 2)%R]> ∅) = Some value
    /\ (0 <= value <= 127)%R.
Proof.
  apply (proj1 (applyEffect_default_or_in_range
           (mkEffectConfig (Some "pressure") None None (Some 127%R) None None None)
           (<["pressure" := (1 / 2)%R]> ∅) "pressure" (1 / 2)%R
           eq_refl ltac:(discriminate) eq_refl ltac:(simpl; lra) ltac:(simpl; lra))).
Defined.

End DataHelpersFacts.

(** ** Properties of note theory *)
Module NoteFacts.
Import Note.

(** Three quarters of an octave above a pitch: the fourth power of the
    frequency ratio is 8. *)
Lemma three_quarter_octave : (Rpower 2 (9 / 12) ^ 4 = 8)%R.
Proof.
  rewrite <- (Rpower_pow 4) by apply exp_pos.
  rewrite Rpower_mult.
  replace (9 / 12 * INR 4)%R with (INR 3) by (simpl; lra).
  rewrite Rpower_pow by lra. lra.
Qed.

Lemma three_quarter_octave_bounds :
  (739 < 440 * Rpower 2 (9 / 12) < 741)%R.
Proof.
  pose proof three_quarter_octave as H4.
  assert (Hpos : (0 < Rpower 2 (9 / 12))%R) by apply exp_pos.
  set (y := Rpower 2 (9 / 12)) in *.
  assert (Hsq : (y ^ 4 = (y * y) * (y * y))%R) by ring.
  rewrite Hsq in H4. clear Hsq.
  assert (Hz : (0 < y * y)%R) by nra.
  split.
  - destruct (Rlt_le_dec (739 / 440) y) as [H | H]; [lra |].
    assert (Hyy : (y * y <= 739 / 440 * (739 / 440))%R) by nra.
    assert (Hzz : ((y * y) * (y * y)
                   <= 739 / 440 * (739 / 440) * (739 / 440 * (739 / 440)))%R) by nra.
    lra.
  - destruct (Rlt_le_dec y (741 / 440)) as [H | H]; [lra |].
    assert (Hyy : (741 / 440 * (741 / 440) <= y * y)%R) by nra.
    assert (Hzz : (741 / 440 * (741 / 440) * (741 / 440 * (741 / 440))
                   <= (y * y) * (y * y))%R) by nra.
    lra.
Qed.

(** C7, on the notations "A4" and "A". The function measures the semitone
    distance from C4, not from A4: for "A4", and for "A" whose octave
    defaults to 4, the exponent is 9/12 and the result is 440 * 2^(9/12),
    between 739 and 741 Hz; it is "C4" that yields exactly 440 Hz. *)
Theorem frequency_anchored_at_C4 :
  frequencyIndex "A4" = Some 9%Z
  /\ getFrequencyForNotation "A4" = Some (440 * Rpower 2 (9 / 12))%R
  /\ getFrequencyForNotation "A" = Some (440 * Rpower 2 (9 / 12))%R
  /\ (739 < 440 * Rpower 2 (9 / 12) < 741)%R
  /\ getFrequencyForNotation "A4" <> Some 440%R
  /\ getFrequencyForNotation "C4" = Some 440%R.
Proof.
  assert (HA4 : getFrequencyForNotation "A4" = Some (440 * Rpower 2 (9 / 12))%R).
  { unfold getFrequencyForNotation.
    replace (frequencyIndex "A4") with (Some 9%Z) by (vm_compute; reflexivity).
    reflexivity. }
  split; [vm_compute; reflexivity |].
  split; [exact HA4 |].
  split.
  { unfold getFrequencyForNotation.
    replace (frequencyIndex "A") with (Some 9%Z) by (vm_compute; reflexivity).
    reflexivity. }
  split; [apply three_quarter_octave_bounds |].
  split.
  { rewrite HA4. intros [= H]. pose proof three_quarter_octave_bounds. lra. }
  unfold getFrequencyForNotation.
  replace (frequencyIndex "C4") with (Some 0%Z) by (vm_compute; reflexivity).
  replace (IZR 0 / 12)%R with 0%R by lra.
  rewrite Rpower_O by lra. f_equal. lra.
Qed.

(** C8. [parseChord("Am7", 4)] is A4, C5, E5, G5: the pitch classes A, C,
    E, G on the sharp spelling, from the base octave 4, where the root A
    (chromatic index 9) stays in octave 4 and each of the intervals 3, 7
    and 10, whose offset 9 + interval reaches 12, rolls over into octave 5:
    every tone sits in octave 4 + floor((9 + interval) / 12). *)
Theorem parseChord_Am7 :
  parseChord "Am7" (Some 4%Z)
  = [mkChordNote (Some "A") 4; mkChordNote (Some "C") 5;
     mkChordNote (Some "E") 5; mkChordNote (Some "G") 5]
  /\ chordNotation <$> parseChord "Am7" (Some 4%Z)
     = [Some "A"; Some "C"; Some "E"; Some "G"]
  /\ intervalsOf chordIntervals "m7" = Some [0; 3; 7; 10]%Z
  /\ indexOfNotation "A" = 9%Z
  /\ chordOctave <$> parseChord "Am7" (Some 4%Z)
     = (fun interval => 4 + (9 + interval) / 12)%Z <$> [0; 3; 7; 10]%Z
  /\ parseChord "Am7" None = parseChord "Am7" (Some 4%Z).
Proof. repeat split; vm_compute; reflexivity. Qed.

(** *** Spreads *)

Lemma omap_all_some {A B : Type} (f : A -> option B) (l : list A) :
  (forall x, x ∈ l -> is_Some (f x)) ->
  Forall2 (fun x y => f x = Some y) l (omap f l).
Proof.
  induction l as [| x rest IH]; intros Hall; [constructor |].
  destruct (Hall x) as [y Hy]; [left |].
  change (omap f (x :: rest)) with (match f x with
                                    | Some y => y :: omap f rest
                                    | None => omap f rest
                                    end).
  rewrite Hy. constructor; [exact Hy |]. apply IH. intros z Hz. apply Hall. now right.
Qed.

Lemma spreadNote_some (notes : list NoteObject) (index : nat) (shift : Z) :
  (index < length notes)%nat -> is_Some (spreadNote notes index shift).
Proof.
  intros Hlt. unfold spreadNote.
  destruct (lookup_lt_is_Some_2 notes index Hlt) as [note ->]. eauto.
Qed.

Section Spread.
Variables (notes : list NoteObject) (lowerSpread upperSpread : Z).
Hypothesis Hnotes : notes <> [].

Lemma notes_positive : (0 < length notes)%nat.
Proof using Hnotes. destruct notes; [congruence | simpl; lia]. Qed.

Lemma upper_all_some (c : nat) :
  is_Some (spreadNote notes (c mod length notes) (Z.of_nat (c / length notes) + 1)).
Proof using Hnotes.
  apply spreadNote_some, Nat.mod_upper_bound. pose proof notes_positive. lia.
Qed.

Lemma lower_all_some (c : nat) :
  is_Some (spreadNote notes (length notes - 1 - c mod length notes)
                      (- Z.of_nat (c / length notes) - 1)).
Proof using Hnotes.
  apply spreadNote_some. pose proof notes_positive. lia.
Qed.

(** X9. [fillNoteSpread] on a non-empty list puts [lowerSpread] notes before
    the given ones and [upperSpread] notes after them (none for a count that
    is not positive), and leaves the given notes as they are, in their
    order, in between. *)
Theorem fillNoteSpread_keeps_notes_in_place :
  length (fillNoteSpread notes lowerSpread upperSpread)
  = (Z.to_nat lowerSpread + length notes + Z.to_nat upperSpread)%nat
  /\ (forall i : nat,
        (i < length notes)%nat ->
        fillNoteSpread notes lowerSpread upperSpread !! (Z.to_nat lowerSpread + i)%nat
        = notes !! i).
Proof using Hnotes.
  unfold fillNoteSpread.
  destruct (Nat.eqb_spec (length notes) 0) as [Hzero | _];
    [pose proof notes_positive; lia |].
  set (upper := omap _ (seq 0 (Z.to_nat upperSpread))).
  set (lower := omap _ (seq 0 (Z.to_nat lowerSpread))).
  assert (Hupper : length upper = Z.to_nat upperSpread).
  { subst upper. erewrite <- Forall2_length by (apply omap_all_some; intros c _;
      apply upper_all_some). apply length_seq. }
  assert (Hlower : length lower = Z.to_nat lowerSpread).
  { subst lower. erewrite <- Forall2_length by (apply omap_all_some; intros c _;
      apply lower_all_some). apply length_seq. }
  split.
  - rewrite !length_app, Hupper, Hlower. lia.
  - intros i Hi. rewrite lookup_app_r by lia.
    rewrite Hlower. replace (Z.to_nat lowerSpread + i - Z.to_nat lowerSpread)%nat
      with i by lia.
    now apply lookup_app_l.
Qed.

(** X10. The notes a spread adds are octave copies of the given ones, flagged
    secondary: the [c]-th note above is the note at [c mod n] raised by
    [c / n + 1] octaves, and the [c]-th note of the lower part, counted from
    the front of the result, is the note at [n - 1 - c mod n] lowered by
    [c / n + 1] octaves, where [n] is the number of given notes. *)
Theorem fillNoteSpread_octave_copies :
  (forall c : nat,
      (c < Z.to_nat upperSpread)%nat ->
      exists note,
        notes !! (c mod length notes)%nat = Some note
        /\ fillNoteSpread notes lowerSpread upperSpread
             !! (Z.to_nat lowerSpread + length notes + c)%nat
           = Some (mkNote (notation note)
                          (octave note + (Z.of_nat (c / length notes) + 1))
                          (Some true)))
  /\ (forall c : nat,
        (c < Z.to_nat lowerSpread)%nat ->
        exists note,
          notes !! (length notes - 1 - c mod length notes)%nat = Some note
          /\ fillNoteSpread notes lowerSpread upperSpread !! c
             = Some (mkNote (notation note)
                            (octave note + (- Z.of_nat (c / length notes) - 1))
                            (Some true))).
Proof using Hnotes.
  unfold fillNoteSpread.
  destruct (Nat.eqb_spec (length notes) 0) as [Hzero | _];
    [pose proof notes_positive; lia |].
  set (upper := omap _ (seq 0 (Z.to_nat upperSpread))).
  set (lower := omap _ (seq 0 (Z.to_nat lowerSpread))).
  assert (Hupper : Forall2 (fun c y =>
            spreadNote notes (c mod length notes) (Z.of_nat (c / length notes) + 1)
            = Some y) (seq 0 (Z.to_nat upperSpread)) upper)
    by (apply omap_all_some; intros c _; apply upper_all_some).
  assert (Hlower : Forall2 (fun c y =>
            spreadNote notes (length notes - 1 - c mod length notes)
                       (- Z.of_nat (c / length notes) - 1)
            = Some y) (seq 0 (Z.to_nat lowerSpread)) lower)
    by (apply omap_all_some; intros c _; apply lower_all_some).
  pose proof (Forall2_length _ _ _ Hlower) as Hlen. rewrite length_seq in Hlen.
  split; intros c Hc.
  - destruct (Forall2_lookup_l _ _ _ c c Hupper) as (y & Hy & Hspread);
      [now apply lookup_seq_lt |].
    unfold spreadNote in Hspread.
    destruct (notes !! (c mod length notes)%nat) as [note |] eqn:Hnote; [| discriminate].
    exists note. split; [reflexivity |].
    rewrite lookup_app_r by lia. rewrite lookup_app_r by lia.
    replace (Z.to_nat lowerSpread + length notes + c - length lower - length notes)%nat
      with c by lia.
    rewrite Hy. congruence.
  - destruct (Forall2_lookup_l _ _ _ c c Hlower) as (y & Hy & Hspread);
      [now apply lookup_seq_lt |].
    unfold spreadNote in Hspread.
    destruct (notes !! (length notes - 1 - c mod length notes)%nat) as [note |] eqn:Hnote;
      [| discriminate].
    exists note. split; [reflexivity |].
    rewrite lookup_app_l by lia. rewrite Hy. congruence.
Qed.

(** The parts a spread adds carry the secondary flag. *)
Lemma spread_parts :
  exists lower upper,
    fillNoteSpread notes lowerSpread upperSpread = lower ++ notes ++ upper
    /\ Forall (fun note => secondary note = Some true) lower
    /\ Forall (fun note => secondary note = Some true) upper.
Proof using Hnotes.
  unfold fillNoteSpread.
  destruct (Nat.eqb_spec (length notes) 0) as [Hzero | _];
    [pose proof notes_positive; lia |].
  eexists _, _. split; [reflexivity |].
  split; apply Forall_forall; intros note Hin;
    apply list_elem_of_omap in Hin as (c & _ & Hc); unfold spreadNote in Hc;
    destruct (notes !! _); try discriminate; injection Hc as <-; reflexivity.
Qed.

End Spread.

Lemma fillNoteSpread_keeps_notes_in_place_witness :
  length (fillNoteSpread [mkNote "C" 4 None; mkNote "E" 4 None; mkNote "G" 4 None] 1 1)
  = 5%nat.
Proof.
  apply (proj1 (fillNoteSpread_keeps_notes_in_place
                  [mkNote "C" 4 None; mkNote "E" 4 None; mkNote "G" 4 None] 1 1
                  ltac:(discriminate))).
Defined.

Lemma fillNoteSpread_octave_copies_witness :
  exists note,
    [mkNote "C" 4 None; mkNote "E" 4 None; mkNote "G" 4 None] !! 2%nat = Some note
    /\ fillNoteSpread [mkNote "C" 4 None; mkNote "E" 4 None; mkNote "G" 4 None] 1 1
         !! 0%nat
       = Some (mkNote (notation note) (octave note + (- 0 - 1)) (Some true)).
Proof.
  apply (proj2 (fillNoteSpread_octave_copies
                  [mkNote "C" 4 None; mkNote "E" 4 None; mkNote "G" 4 None] 1 1
                  ltac:(discriminate)) 0%nat).
  simpl. lia.
Defined.

Lemma filter_base_none (l : list NoteObject) :
  Forall (fun note => secondary note = Some true) l ->
  List.filter (fun note => negb (Strummer.isSecondary note)) l = [].
Proof.
  induction 1 as [| note rest Hsec _ IH]; [reflexivity |].
  simpl. unfold Strummer.isSecondary at 1. rewrite Hsec. exact IH.
Qed.

Lemma filter_base_all (l : list NoteObject) :
  Forall (fun note => secondary note <> Some true) l ->
  List.filter (fun note => negb (Strummer.isSecondary note)) l = l.
Proof.
  induction 1 as [| note rest Hsec _ IH]; [reflexivity |].
  simpl. unfold Strummer.isSecondary at 1.
  destruct (secondary note) as [[|] |]; try congruence; simpl; now rewrite IH.
Qed.

(** X11. Loading a spread into the strummer and asking for its notes state
    gives back the notes the spread was made from as [baseNotes], as long as
    none of them was flagged secondary itself; [stringCount] counts the
    spread notes as well. *)
Theorem baseNotes_recover_spread_input
    (s : Strummer.t) (notes : list NoteObject) (lowerSpread upperSpread now : Z) :
  Forall (fun note => secondary note <> Some true) notes ->
  let state :=
    Strummer.getNotesState
      (Strummer.set_notes (fillNoteSpread notes lowerSpread upperSpread) s) now in
  Strummer.nsBaseNotes state = notes
  /\ Strummer.nsNotes state = fillNoteSpread notes lowerSpread upperSpread
  /\ Strummer.nsStringCount state
     = Z.of_nat (length (fillNoteSpread notes lowerSpread upperSpread)).
Proof.
  intros Hbase state. subst state.
  unfold Strummer.getNotesState.
  cbn [Strummer.nsBaseNotes Strummer.nsNotes Strummer.nsStringCount
       Strummer.set_notes Strummer.updateBounds Strummer._notes].
  split; [| split; reflexivity].
  destruct notes as [| first rest]; [reflexivity |].
  destruct (spread_parts (first :: rest) lowerSpread upperSpread ltac:(discriminate))
    as (lower & upper & -> & Hlower & Hupper).
  rewrite !List.filter_app, (filter_base_none lower Hlower),
    (filter_base_none upper Hupper), (filter_base_all _ Hbase).
  now rewrite app_nil_r.
Qed.

Lemma baseNotes_recover_spread_input_witness :
  Strummer.nsBaseNotes
    (Strummer.getNotesState
       (Strummer.set_notes
          (fillNoteSpread [mkNote "C" 4 None; mkNote "E" 4 (Some false)] 2 3)
          Strummer.init) 0)
  = [mkNote "C" 4 None; mkNote "E" 4 (Some false)].
Proof.
  apply (proj1 (baseNotes_recover_spread_input Strummer.init
                  [mkNote "C" 4 None; mkNote "E" 4 (Some false)] 2 3 0
                  ltac:(repeat constructor; discriminate))).
Defined.

(** *** Notations and pitch numbers *)

(** Reading a name with its octave digit back. *)
Lemma parseNotation_name_octave (nt : string) (d : Z) :
  noteName nt -> (0 <= d <= 9)%Z ->
  parseNotation (String.append nt (String_of d)) = mkNote nt d None
  /\ notationToMIDI (String.append nt (String_of d)) = (d * 12 + indexOfNotation nt)%Z
  /\ (0 <= indexOfNotation nt < 12)%Z
  /\ (notationToMIDI (String.append nt (String_of d)) / 12)%Z = d
  /\ MIDItoNotation (notationToMIDI (String.append nt (String_of d)))
     = js_index sharpNotations (indexOfNotation nt).
Proof.
  intros [Hin | Hin] Hd; each_name Hin; each_digit d Hd;
    vm_compute; repeat split; congruence.
Qed.

(** X12. A pitch-class name in either spelling followed by an octave digit
    is read back by [parseNotation] as that name and that octave;
    [notationToMIDI] numbers it octave * 12 + chromatic index, a number
    whose quotient by 12 is the octave again and which [MIDItoNotation]
    names by the sharp spelling of the same pitch class. *)
Theorem notation_round_trip (nt : string) (d : Z) :
  noteName nt -> (0 <= d <= 9)%Z ->
  parseNotation (String.append nt (String_of d)) = mkNote nt d None
  /\ notationToMIDI (String.append nt (String_of d)) = (d * 12 + indexOfNotation nt)%Z
  /\ (0 <= indexOfNotation nt < 12)%Z
  /\ (notationToMIDI (String.append nt (String_of d)) / 12)%Z = d
  /\ MIDItoNotation (notationToMIDI (String.append nt (String_of d)))
     = js_index sharpNotations (indexOfNotation nt).
Proof. exact (parseNotation_name_octave nt d). Qed.

Lemma notation_round_trip_witness :
  parseNotation (String.append "Bb" (String_of 3)) = mkNote "Bb" 3 None
  /\ notationToMIDI (String.append "Bb" (String_of 3)) = 46%Z.
Proof.
  destruct (notation_round_trip "Bb" 3) as (H1 & H2 & _).
  - right. in_table.
  - lia.
  - split; [exact H1 | exact H2].
Defined.

(** *** Transposition *)

Lemma indexOfFrom_range (x : string) (l : list string) (i : Z) :
  indexOfFrom x l i = (-1)%Z
  \/ (i <= indexOfFrom x l i < i + Z.of_nat (length l))%Z.
Proof.
  revert i. induction l as [| y rest IH]; intros i; simpl; [now left |].
  destruct (String.eqb y x); [right; lia |].
  destruct (IH (i + 1)%Z) as [-> | H]; [now left | right; lia].
Qed.

Lemma indexOfFrom_elem (x : string) (l : list string) (i : Z) :
  indexOfFrom x l i <> (-1)%Z -> x ∈ l.
Proof.
  revert i. induction l as [| y rest IH]; intros i; simpl; [congruence |].
  destruct (String.eqb_spec y x) as [-> | _]; [left | right; eauto].
Qed.

Lemma indexOfNotation_range (nt : string) :
  knownNotation nt -> (0 <= indexOfNotation nt < 12)%Z.
Proof.
  unfold knownNotation, indexOfNotation, indexOf.
  destruct (Z.eqb_spec (indexOfFrom nt sharpNotations 0) (-1)) as [_ | Hsharp]; intros H.
  - destruct (indexOfFrom_range nt flatNotations 0) as [? | Hr]; [congruence |].
    change (Z.of_nat (length flatNotations)) with 12%Z in Hr. lia.
  - destruct (indexOfFrom_range nt sharpNotations 0) as [? | Hr]; [congruence |].
    change (Z.of_nat (length sharpNotations)) with 12%Z in Hr. lia.
Qed.

Lemma known_is_name (nt : string) : knownNotation nt <-> noteName nt.
Proof.
  split.
  - unfold knownNotation, indexOfNotation, indexOf, noteName.
    destruct (Z.eqb_spec (indexOfFrom nt sharpNotations 0) (-1)) as [_ | Hsharp]; intros H.
    + right. eapply indexOfFrom_elem, H.
    + left. eapply indexOfFrom_elem, Hsharp.
  - intros [Hin | Hin]; each_name Hin; vm_compute; discriminate.
Qed.

(** Every entry of either table is a name whose chromatic index is its
    position. *)
Lemma table_entry (table : list string) (i : Z) :
  table = sharpNotations \/ table = flatNotations -> (0 <= i < 12)%Z ->
  exists name, js_index table i = Some name /\ noteName name /\ indexOfNotation name = i.
Proof.
  intros Htable Hi.
  assert (Hcases : (i = 0 \/ i = 1 \/ i = 2 \/ i = 3 \/ i = 4 \/ i = 5 \/ i = 6 \/ i = 7
                    \/ i = 8 \/ i = 9 \/ i = 10 \/ i = 11)%Z) by lia.
  destruct Htable as [-> | ->];
    repeat (destruct Hcases as [-> | Hcases]); try subst i;
    eexists; (split; [reflexivity |]);
    (split; [| reflexivity]);
    first [left; in_table | right; in_table].
Qed.

Lemma spellingOf_table (nt : string) :
  spellingOf nt = sharpNotations \/ spellingOf nt = flatNotations.
Proof.
  unfold spellingOf. destruct (includes "#" nt); [now left |].
  destruct (includes "b" nt); [now right | now left].
Qed.

(** The spelling table of a name has that name at its chromatic index. *)
Lemma spelling_own (nt : string) :
  noteName nt -> js_index (spellingOf nt) (indexOfNotation nt) = Some nt.
Proof. intros [Hin | Hin]; each_name Hin; reflexivity. Qed.

Lemma transposeNote_known (note : NoteObject) (semitones : Z) :
  knownNotation (notation note) -> semitones <> 0%Z ->
  (0 <= pitchOf (notation note) (octave note) + semitones)%Z ->
  transposeNote note semitones
  = {| valueNotation :=
         js_index (spellingOf (notation note))
                  ((pitchOf (notation note) (octave note) + semitones) mod 12);
       valueOctave := ((pitchOf (notation note) (octave note) + semitones) / 12)%Z;
       valueSecondary := secondary note |}.
Proof.
  intros Hknown Hsemi Hpitch.
  unfold transposeNote, pitchOf, spellingOf in *.
  apply Z.eqb_neq in Hsemi. rewrite Hsemi.
  unfold knownNotation in Hknown. unfold indexOfNotation in *.
  set (found := if (indexOf sharpNotations (notation note) =? -1)%Z
                then indexOf flatNotations (notation note)
                else indexOf sharpNotations (notation note)) in *.
  apply Z.eqb_neq in Hknown. rewrite Hknown.
  rewrite Z.rem_mod_nonneg by lia.
  destruct (includes "#" (notation note)); [reflexivity |].
  destruct (includes "b" (notation note)); reflexivity.
Qed.

(** X13. Transposing a note of known notation by any number of semitones,
    as long as the resulting pitch number is not negative, yields a defined
    notation, read from the table of the note's own spelling (flat for a
    notation with a "b", sharp otherwise), whose pitch number is the old one
    plus the semitones; the secondary flag is kept. *)
Theorem transposeNote_adds_semitones (note : NoteObject) (semitones : Z) :
  knownNotation (notation note) ->
  (0 <= pitchOf (notation note) (octave note) + semitones)%Z ->
  exists name,
    valueNotation (transposeNote note semitones) = Some name
    /\ noteName name
    /\ pitchOf name (valueOctave (transposeNote note semitones))
       = (pitchOf (notation note) (octave note) + semitones)%Z
    /\ valueSecondary (transposeNote note semitones) = secondary note
    /\ (semitones <> 0%Z -> name ∈ spellingOf (notation note)).
Proof.
  intros Hknown Hpitch.
  destruct (Z.eq_dec semitones 0) as [-> | Hsemi].
  - exists (notation note). unfold transposeNote. simpl.
    repeat split; [now apply known_is_name | lia | congruence].
  - rewrite (transposeNote_known note semitones Hknown Hsemi Hpitch). simpl.
    set (m := (pitchOf (notation note) (octave note) + semitones)%Z) in *.
    destruct (table_entry (spellingOf (notation note)) (m mod 12))
      as (name & Hname & Hknown' & Hindex);
      [apply spellingOf_table | apply Z.mod_pos_bound; lia |].
    exists name. split; [exact Hname |]. split; [exact Hknown' |].
    split; [| split; [reflexivity |]].
    + unfold pitchOf at 1. rewrite Hindex.
      pose proof (Z.div_mod m 12). lia.
    + intros _. unfold js_index in Hname.
      destruct (m mod 12 <? 0)%Z; [discriminate |].
      eapply list_elem_of_lookup_2, Hname.
Qed.

Lemma transposeNote_adds_semitones_witness :
  exists name,
    valueNotation (transposeNote (mkNote "Eb" 3 None) (-5)) = Some name
    /\ pitchOf name (valueOctave (transposeNote (mkNote "Eb" 3 None) (-5)))
       = (pitchOf "Eb" 3 + -5)%Z.
Proof.
  destruct (transposeNote_adds_semitones (mkNote "Eb" 3 None) (-5))
    as (name & H1 & _ & H2 & _).
  - vm_compute. discriminate.
  - vm_compute. discriminate.
  - exists name. split; [exact H1 | exact H2].
Defined.

(** X14. Transposing by whole octaves keeps the name: a note with a
    pitch-class name in either spelling, moved by 12 * k semitones to a
    pitch number that is not negative, is the same name [k] octaves away,
    with the same secondary flag. *)
Theorem transposeNote_by_octaves (nt : string) (oct k : Z) (flag : option bool) :
  noteName nt -> (0 <= pitchOf nt oct + 12 * k)%Z ->
  transposeNote (mkNote nt oct flag) (12 * k)
  = mkNoteValue (Some nt) (oct + k) flag.
Proof.
  intros Hname Hpitch.
  destruct (Z.eq_dec k 0) as [-> | Hk].
  - unfold transposeNote, valueOf. simpl. now rewrite Z.add_0_r.
  - rewrite transposeNote_known; simpl; [| now apply known_is_name | lia | exact Hpitch].
    pose proof (indexOfNotation_range nt (proj2 (known_is_name nt) Hname)) as Hrange.
    unfold pitchOf.
    replace (oct * 12 + indexOfNotation nt + 12 * k)%Z
      with (indexOfNotation nt + (oct + k) * 12)%Z by lia.
    rewrite Z.mod_add, Z.div_add by lia.
    rewrite Z.mod_small, Z.div_small by lia.
    now rewrite spelling_own.
Qed.

Lemma transposeNote_by_octaves_witness :
  transposeNote (mkNote "C" 4 None) (12 * 1) = mkNoteValue (Some "C") (4 + 1) None
  /\ transposeNote (mkNote "G" 4 None) (12 * -1) = mkNoteValue (Some "G") (4 + -1) None.
Proof.
  split; apply transposeNote_by_octaves;
    first [left; in_table | vm_compute; discriminate].
Defined.

(** X15. For a sharp-spelled or natural name, transposing up or down and
    then back by the same number of semitones returns the note itself, as
    long as neither pitch number is negative. *)
Theorem transposeNote_there_and_back (nt : string) (oct semitones : Z)
    (flag : option bool) :
  nt ∈ sharpNotations ->
  (0 <= pitchOf nt oct)%Z -> (0 <= pitchOf nt oct + semitones)%Z ->
  exists name,
    valueNotation (transposeNote (mkNote nt oct flag) semitones) = Some name
    /\ transposeNote
         (mkNote name (valueOctave (transposeNote (mkNote nt oct flag) semitones))
                 (valueSecondary (transposeNote (mkNote nt oct flag) semitones)))
         (- semitones)
       = valueOf (mkNote nt oct flag).
Proof.
  intros Hin Hhere Hthere.
  assert (Hname : noteName nt) by now left.
  assert (Hsharp : spellingOf nt = sharpNotations) by (each_name Hin; reflexivity).
  destruct (Z.eq_dec semitones 0) as [-> | Hsemi].
  { exists nt. split; reflexivity. }
  rewrite transposeNote_known; simpl;
    [| now apply known_is_name | exact Hsemi | exact Hthere].
  set (m := (pitchOf nt oct + semitones)%Z) in *.
  rewrite Hsharp.
  destruct (table_entry sharpNotations (m mod 12)) as (name & Hentry & Hname' & Hindex);
    [now left | apply Z.mod_pos_bound; lia |].
  exists name. split; [exact Hentry |].
  assert (Hin' : name ∈ sharpNotations).
  { unfold js_index in Hentry. destruct (m mod 12 <? 0)%Z; [discriminate |].
    eapply list_elem_of_lookup_2, Hentry. }
  assert (Hsharp' : spellingOf name = sharpNotations) by (each_name Hin'; reflexivity).
  assert (Hback : (pitchOf name (m / 12) + - semitones = pitchOf nt oct)%Z).
  { unfold pitchOf at 1. rewrite Hindex. pose proof (Z.div_mod m 12). lia. }
  rewrite transposeNote_known; simpl;
    [| now apply known_is_name | lia | rewrite Hback; exact Hhere].
  rewrite Hback, Hsharp'.
  pose proof (indexOfNotation_range nt (proj2 (known_is_name nt) Hname)) as Hrange.
  unfold pitchOf, valueOf. simpl.
  replace (oct * 12 + indexOfNotation nt)%Z with (indexOfNotation nt + oct * 12)%Z by lia.
  rewrite Z.mod_add, Z.div_add by lia.
  rewrite Z.mod_small, Z.div_small by lia.
  rewrite <- Hsharp, spelling_own by exact Hname. reflexivity.
Qed.

Lemma transposeNote_there_and_back_witness :
  exists name,
    valueNotation (transposeNote (mkNote "A#" 2 (Some true)) 7) = Some name
    /\ transposeNote
         (mkNote name (valueOctave (transposeNote (mkNote "A#" 2 (Some true)) 7))
                 (valueSecondary (transposeNote (mkNote "A#" 2 (Some true)) 7)))
         (- 7)
       = valueOf (mkNote "A#" 2 (Some true)).
Proof.
  apply transposeNote_there_and_back.
  - in_table.
  - vm_compute. discriminate.
  - vm_compute. discriminate.
Defined.

(** *** Chords *)











(** X17. For each of the twelve sharp-spelled keys, given in upper or lower
    case, [notesInKeySignature] without an octave returns the seven degrees
    of the scale on that key: the pitch classes 0, 2, 4, 5, 7, 9, 11
    semitones above the key for a major key and 0, 2, 3, 5, 7, 8, 10 for a
    minor one, wrapping round the octave, in sharp spelling. *)
Theorem key_signature_degrees (key : string) (major : bool) :
  key ∈ sharpNotations ->
  let degrees := if major then [0; 2; 4; 5; 7; 9; 11]%Z else [0; 2; 3; 5; 7; 8; 10]%Z in
  notesInKeySignature key major None
  = (fun degree => js_index sharpNotations ((indexOf sharpNotations key + degree) mod 12))
      <$> degrees
  /\ notesInKeySignature (toUpperCase key) major None = notesInKeySignature key major None
  /\ Forall (fun name => is_Some name) (notesInKeySignature key major None)
  /\ NoDup (notesInKeySignature key major None).
Proof.
  intros Hin degrees. subst degrees.
  each_name Hin; destruct major;
    (split; [vm_compute; reflexivity |]);
    (split; [vm_compute; reflexivity |]);
    (split; [vm_compute; repeat constructor; eauto |]);
    apply (bool_decide_unpack _); vm_compute; exact I.
Qed.

Lemma key_signature_degrees_witness :
  notesInKeySignature "A" false None
  = [Some "A"; Some "B"; Some "C"; Some "D"; Some "E"; Some "F"; Some "G"].
Proof.
  apply (proj1 (key_signature_degrees "A" false ltac:(in_table))).
Defined.

End NoteFacts.

(** ** Properties of the note scheduler *)
Module MidiFacts.
Import Midi.

(** *** Sending touches the wire only *)

Lemma sendAll_frame (messages : list (list Z)) (e : Env) :
  clock (sendAll messages e) = clock e
  /\ nextHandle (sendAll messages e) = nextHandle e
  /\ pending (sendAll messages e) = pending e.
Proof.
  revert e. unfold sendAll.
  induction messages as [| message rest IH]; intros e; [done |].
  simpl. destruct (IH (send message e)) as (-> & -> & ->). done.
Qed.

Lemma sendAll_wire (messages : list (list Z)) (e : Env) :
  wire (sendAll messages e) = wire e ++ ((fun message => (clock e, message)) <$> messages).
Proof.
  revert e. unfold sendAll.
  induction messages as [| message rest IH]; intros e.
  - simpl. now rewrite app_nil_r.
  - simpl. rewrite IH. simpl. now rewrite <- app_assoc.
Qed.

(** *** The invariant *)

Lemma consistent_initial (channel : option Z) : consistent (newMidi channel, newEnv).
Proof.
  repeat split; simpl.
  - intros handle tm H. inversion H.
  - intros handle tm H. inversion H.
  - constructor.
Qed.

(** Clearing the timer a key maps to leaves no live timer with that key,
    and leaves the timers of the other keys alone. *)
Lemma cleared_key (w : World) (k : string) (old : Z) :
  consistent w -> activeNoteTimers (fst w) !! k = Some old ->
  forall handle tm,
    (handle, tm) ∈ pending (clearTimeout old (snd w)) ->
    (handle, tm) ∈ pending (snd w) /\ timerKey tm <> k.
Proof.
  intros (Hmap & _ & _) Hold handle tm Hin. simpl in Hin.
  apply list_elem_of_filter in Hin as [Hne Hin]. simpl in Hne.
  split; [exact Hin |]. intros <-.
  specialize (Hmap _ _ Hin). congruence.
Qed.

Lemma unmapped_key (w : World) (k : string) :
  consistent w -> activeNoteTimers (fst w) !! k = None ->
  forall handle tm, (handle, tm) ∈ pending (snd w) -> timerKey tm <> k.
Proof.
  intros (Hmap & _ & _) Hnone handle tm Hin <-.
  specialize (Hmap _ _ Hin). congruence.
Qed.

Lemma NoDup_handles_filter (P : Z * Timer -> Prop) `{!forall x, Decision (P x)}
    (timers : list (Z * Timer)) :
  NoDup (fst <$> timers) -> NoDup (fst <$> filter P timers).
Proof.
  induction timers as [| entry rest IH]; [done |].
  rewrite fmap_cons, NoDup_cons. intros [Hnotin Hrest].
  rewrite filter_cons. destruct (decide (P entry)); [| auto].
  rewrite fmap_cons, NoDup_cons. split; [| auto].
  intros Hin. apply Hnotin.
  apply list_elem_of_fmap in Hin as (x & -> & Hx).
  apply list_elem_of_filter in Hx as [_ Hx].
  now apply list_elem_of_fmap_2.
Qed.

(** *** What [startNote] leaves behind *)

Lemma cancelled_frame (k : string) (w : World) :
  clock (cancelled k w) = clock (snd w)
  /\ nextHandle (cancelled k w) = nextHandle (snd w)
  /\ wire (cancelled k w) = wire (snd w).
Proof. unfold cancelled. now destruct (activeNoteTimers (fst w) !! k). Qed.

Lemma startNote_normal_form (midiNote velocity : Z) (channels : list Z) (duration : Q)
    (w : World) :
  let k := noteKeyOf midiNote channels in
  startNote midiNote velocity channels duration w
  = (withTimers (fst w)
       (<[k := nextHandle (snd w)]> (delete k (activeNoteTimers (fst w))))
       (<[k := clock (snd w)]> (noteStartTimes (fst w))),
     {| clock := clock (snd w);
        nextHandle := (nextHandle (snd w) + 1)%Z;
        pending := pending (cancelled k w)
                   ++ [(nextHandle (snd w),
                        mkTimer (clock (snd w) + delayOf (duration * 1000))%Z
                                channels midiNote k)];
        wire := wire (snd w)
                ++ ((fun message => (clock (snd w), message))
                      <$> (noteOn midiNote velocity <$> channels)) |}).
Proof.
  intros k. destruct w as [m e]. unfold startNote, cancelled. fold k. simpl fst. simpl snd.
  destruct (activeNoteTimers m !! k) as [old |] eqn:Hold.
  - unfold setTimeout.
    destruct (sendAll_frame (noteOn midiNote velocity <$> channels) (clearTimeout old e))
      as (Hc & Hn & Hp).
    rewrite Hc, Hn, Hp, sendAll_wire. reflexivity.
  - unfold setTimeout.
    destruct (sendAll_frame (noteOn midiNote velocity <$> channels) e) as (Hc & Hn & Hp).
    rewrite Hc, Hn, Hp, sendAll_wire.
    rewrite (delete_id (activeNoteTimers m) k Hold). reflexivity.
Qed.

(** No timer that survives the cancellation carries the key. *)
Lemma cancelled_no_key (k : string) (w : World) :
  consistent w ->
  forall handle tm,
    (handle, tm) ∈ pending (cancelled k w) ->
    (handle, tm) ∈ pending (snd w) /\ timerKey tm <> k.
Proof.
  intros Hcons handle tm Hin. unfold cancelled in Hin.
  destruct (activeNoteTimers (fst w) !! k) as [old |] eqn:Hold.
  - exact (cleared_key w k old Hcons Hold handle tm Hin).
  - split; [exact Hin |]. exact (unmapped_key w k Hcons Hold handle tm Hin).
Qed.

Lemma cancelled_NoDup (k : string) (w : World) :
  consistent w -> NoDup (fst <$> pending (cancelled k w)).
Proof.
  intros (_ & _ & Hnodup). unfold cancelled.
  destruct (activeNoteTimers (fst w) !! k); [| exact Hnodup].
  simpl. now apply NoDup_handles_filter.
Qed.

Lemma consistent_startNote (midiNote velocity : Z) (channels : list Z) (duration : Q)
    (w : World) :
  consistent w -> consistent (startNote midiNote velocity channels duration w).
Proof.
  intros Hcons. rewrite startNote_normal_form.
  set (k := noteKeyOf midiNote channels).
  pose proof (cancelled_no_key k w Hcons) as Hkeep.
  destruct Hcons as (Hmap & Hfresh & Hnodup) eqn:E. clear E.
  repeat split; simpl.
  - intros handle tm Hin. apply elem_of_app in Hin as [Hin | Hin].
    + destruct (Hkeep _ _ Hin) as [Hold Hne].
      rewrite lookup_insert_ne by congruence.
      rewrite lookup_delete_ne by congruence. eauto.
    + apply list_elem_of_singleton in Hin. injection Hin as -> ->. simpl.
      apply lookup_insert_eq.
  - intros handle tm Hin. apply elem_of_app in Hin as [Hin | Hin].
    + destruct (Hkeep _ _ Hin) as [Hold _]. specialize (Hfresh _ _ Hold). lia.
    + apply list_elem_of_singleton in Hin. injection Hin as -> ->. lia.
  - rewrite fmap_app. apply NoDup_app. split; [| split].
    + apply cancelled_NoDup. repeat split; assumption.
    + intros handle Hin Hnew. simpl in Hnew. apply list_elem_of_singleton in Hnew. subst.
      apply list_elem_of_fmap in Hin as ([h tm] & Heq & Hin). simpl in Heq. subst.
      destruct (Hkeep _ _ Hin) as [Hold _]. specialize (Hfresh _ _ Hold). lia.
    + simpl. apply NoDup_singleton.
Qed.

Lemma consistent_sendNote note velocity duration (w : World) :
  consistent w -> consistent (stateOf (sendNote note velocity duration w)).
Proof.
  intros Hcons. unfold sendNote. destruct w as [m e].
  destruct (midiOut m); [| exact Hcons].
  destruct note; [| exact Hcons].
  cbn [stateOf]. now apply consistent_startNote.
Qed.

Lemma consistent_sendRawNote midiNote velocity channel duration (w : World) :
  consistent w ->
  consistent (stateOf (sendRawNote midiNote velocity channel duration w)).
Proof.
  intros Hcons. unfold sendRawNote. destruct w as [m e].
  destruct (midiOut m); [| exact Hcons].
  cbn [stateOf]. now apply consistent_startNote.
Qed.

Lemma releaseNote_normal_form (channels : list Z) (note : NoteObject) (w : World) :
  let midiNote :=
    Note.notationToMIDI (String.append (notation note) (Note.String_of (octave note))) in
  let k := noteKeyOf midiNote channels in
  releaseNote channels (Some note) w
  = Ok (withTimers (fst w) (delete k (activeNoteTimers (fst w)))
                   (delete k (noteStartTimes (fst w))),
        sendAll (noteOff midiNote <$> channels)
          {| clock := clock (snd w); nextHandle := nextHandle (snd w);
             pending := pending (cancelled k w); wire := wire (snd w) |}).
Proof.
  intros midiNote k. destruct w as [m e]. unfold releaseNote, cancelled.
  fold midiNote. fold k. simpl fst. simpl snd.
  destruct (activeNoteTimers m !! k) as [old |] eqn:Hold.
  - reflexivity.
  - rewrite (delete_id (activeNoteTimers m) k Hold). now destruct e.
Qed.

Lemma consistent_releaseNote (channels : list Z) note (w : World) :
  consistent w -> consistent (stateOf (releaseNote channels note w)).
Proof.
  intros Hcons. destruct note as [note |]; [| now destruct w].
  rewrite releaseNote_normal_form. cbn [stateOf].
  set (k := noteKeyOf _ channels).
  pose proof (cancelled_no_key k w Hcons) as Hkeep.
  pose proof (cancelled_NoDup k w Hcons) as Hnodup'.
  destruct Hcons as (Hmap & Hfresh & Hnodup).
  repeat split; cbn [fst snd];
    rewrite ?(proj2 (proj2 (sendAll_frame _ _))), ?(proj1 (proj2 (sendAll_frame _ _)));
    cbn [pending nextHandle activeNoteTimers withTimers].
  - intros handle tm Hin. destruct (Hkeep _ _ Hin) as [Hin' Hne].
    rewrite lookup_delete_ne by congruence. eauto.
  - intros handle tm Hin. destruct (Hkeep _ _ Hin) as [Hin' _]. eauto.
  - exact Hnodup'.
Qed.

Lemma consistent_releaseEach (channels : list Z) notes (w : World) :
  consistent w -> consistent (stateOf (releaseEach channels notes w)).
Proof.
  revert w. induction notes as [| note rest IH]; intros w Hcons; [exact Hcons |].
  simpl. pose proof (consistent_releaseNote channels note w Hcons) as Hstep.
  destruct (releaseNote channels note w) as [w' | error w']; simpl in *.
  - now apply IH.
  - exact Hstep.
Qed.

Lemma consistent_releaseNotes notes (w : World) :
  consistent w -> consistent (stateOf (releaseNotes notes w)).
Proof.
  intros Hcons. unfold releaseNotes. destruct w as [m e].
  destruct (midiOut m); [| exact Hcons].
  destruct (length notes =? 0)%nat; [exact Hcons |].
  now apply consistent_releaseEach.
Qed.

Lemma consistent_sendPitchBend bendValue (w : World) :
  consistent w -> consistent (stateOf (sendPitchBend bendValue w)).
Proof.
  intros Hcons. unfold sendPitchBend. destruct w as [m e].
  destruct (midiOut m); [| exact Hcons].
  destruct Hcons as (Hmap & Hfresh & Hnodup). simpl in *.
  repeat split; simpl;
    rewrite ?(proj2 (proj2 (sendAll_frame _ _))), ?(proj1 (proj2 (sendAll_frame _ _)));
    assumption.
Qed.

Lemma clearAll_spec (entries : list (string * Z)) (e : Env) :
  let e' := foldl (fun e entry => clearTimeout (snd entry) e) e entries in
  nextHandle e' = nextHandle e
  /\ forall handle tm,
       (handle, tm) ∈ pending e' ->
       (handle, tm) ∈ pending e /\ handle ∉ snd <$> entries.
Proof.
  revert e. induction entries as [| entry rest IH]; intros e; simpl.
  - split; [done |]. intros handle tm Hin. split; [done |]. apply not_elem_of_nil.
  - destruct (IH (clearTimeout (snd entry) e)) as [Hnext Hin']. split; [exact Hnext |].
    intros handle tm Hin. destruct (Hin' _ _ Hin) as [Hpending Hrest].
    simpl in Hpending. apply list_elem_of_filter in Hpending as [Hne Hpending].
    split; [exact Hpending |]. simpl in Hne.
    rewrite not_elem_of_cons. split; [exact Hne | exact Hrest].
Qed.

Lemma close_clears_everything (w : World) :
  consistent w -> pending (snd (close w)) = [] /\ activeNoteTimers (fst (close w)) = ∅.
Proof.
  intros (Hmap & _ & _). destruct w as [m e]. unfold close. cbn [fst snd]. split; [| done].
  destruct (clearAll_spec (map_to_list (activeNoteTimers m)) e) as [_ Hin].
  cbv zeta in Hin.
  destruct (foldl _ e (map_to_list (activeNoteTimers m))) as [c n p wr] eqn:Hfold.
  simpl in *. destruct p as [| [handle tm] rest]; [done | exfalso].
  destruct (Hin handle tm) as [Hpending Hnot]; [left |].
  apply Hnot. specialize (Hmap _ _ Hpending).
  apply elem_of_map_to_list in Hmap.
  apply list_elem_of_fmap. exists (timerKey tm, handle). split; [done | exact Hmap].
Qed.

Lemma consistent_close (w : World) : consistent w -> consistent (close w).
Proof.
  intros Hcons. destruct (close_clears_everything w Hcons) as [Hpending _].
  repeat split; rewrite Hpending.
  - intros handle tm H. inversion H.
  - intros handle tm H. inversion H.
  - constructor.
Qed.

(** *** Timers that fire *)

Lemma nextDue_pending (timers : list (Z * Timer)) (time handle : Z) (tm : Timer) :
  nextDue timers time = Some (handle, tm) ->
  (handle, tm) ∈ timers /\ (fireAt tm <= time)%Z.
Proof.
  revert handle tm. induction timers as [| [h0 tm0] rest IH]; intros handle tm; simpl.
  - discriminate.
  - destruct (nextDue rest time) as [[h' tm'] |].
    + destruct (IH h' tm' eq_refl) as [Hin Hdue].
      destruct (Z.leb_spec (fireAt tm0) time); simpl;
        [destruct (Z.leb_spec (fireAt tm0) (fireAt tm')) |];
        intros [= <- <-]; split; try lia; try (now left); now right.
    + destruct (Z.leb_spec (fireAt tm0) time); [| discriminate].
      intros [= <- <-]. split; [now left | lia].
Qed.

Lemma nextDue_none (timers : list (Z * Timer)) (time : Z) :
  nextDue timers time = None ->
  forall handle tm, (handle, tm) ∈ timers -> (time < fireAt tm)%Z.
Proof.
  induction timers as [| [h0 tm0] rest IH]; simpl; intros Hnone handle tm Hin.
  - inversion Hin.
  - destruct (nextDue rest time) as [[h' tm'] |].
    + destruct ((fireAt tm0 <=? time)%Z && (fireAt tm0 <=? fireAt tm')%Z); discriminate.
    + destruct (Z.leb_spec (fireAt tm0) time); [discriminate |].
      apply elem_of_cons in Hin as [[= -> ->] | Hin]; [lia |].
      exact (IH eq_refl handle tm Hin).
Qed.

Lemma consistent_fire (w : World) (handle time : Z) (tm : Timer) :
  consistent w -> (handle, tm) ∈ pending (snd w) ->
  consistent (fire tm (fst w, setClock time (clearTimeout handle (snd w)))).
Proof.
  intros (Hmap & Hfresh & Hnodup) Hin. destruct w as [m e]. unfold fire. cbn [fst snd] in *.
  assert (Hkeep : forall h' tm',
             (h', tm') ∈ filter (fun entry => fst entry <> handle) (pending e) ->
             (h', tm') ∈ pending e /\ timerKey tm' <> timerKey tm).
  { intros h' tm' Hin'. apply list_elem_of_filter in Hin' as [Hne Hin']. simpl in Hne.
    split; [exact Hin' |]. intros Hkey.
    pose proof (Hmap _ _ Hin') as H1. pose proof (Hmap _ _ Hin) as H2. congruence. }
  destruct (midiOut m); repeat split; cbn [fst snd];
    rewrite ?(proj2 (proj2 (sendAll_frame _ _))), ?(proj1 (proj2 (sendAll_frame _ _)));
    cbn [pending nextHandle activeNoteTimers withTimers setClock clearTimeout].
  all: try (intros h' tm' Hin'; destruct (Hkeep _ _ Hin') as [Hp Hne];
            first [ rewrite lookup_delete_ne by congruence; now apply Hmap
                  | now apply (Hfresh _ _ Hp) ]).
  all: now apply NoDup_handles_filter.
Qed.

Lemma consistent_fireDue (rounds : nat) (time : Z) (w : World) :
  consistent w -> consistent (fireDue rounds time w).
Proof.
  revert w. induction rounds as [| rounds IH]; intros w Hcons; [exact Hcons |].
  simpl. destruct (nextDue (pending (snd w)) time) as [[handle tm] |] eqn:Hdue;
    [| exact Hcons].
  apply IH. apply consistent_fire; [exact Hcons |].
  exact (proj1 (nextDue_pending _ _ _ _ Hdue)).
Qed.

Lemma consistent_advanceTo (time : Z) (w : World) :
  consistent w -> consistent (advanceTo time w).
Proof.
  intros Hcons. unfold advanceTo.
  exact (consistent_fireDue (length (pending (snd w))) time w Hcons).
Qed.

Lemma consistent_perform (op : Op) (w : World) :
  consistent w -> consistent (stateOf (perform op w)).
Proof.
  intros Hcons. destruct op; simpl.
  - destruct outputs; [now destruct w | exact Hcons].
  - now apply consistent_sendNote.
  - now apply consistent_sendRawNote.
  - now apply consistent_releaseNotes.
  - now apply consistent_sendPitchBend.
  - now apply consistent_close.
  - now apply consistent_advanceTo.
Qed.

Lemma consistent_performAll (ops : list Op) (w : World) :
  consistent w -> consistent (performAll ops w).
Proof.
  revert w. unfold performAll.
  induction ops as [| op rest IH]; intros w Hcons; [exact Hcons |].
  simpl. apply IH. now apply consistent_perform.
Qed.

(** At most one element of a list without repeated handles can carry a given
    handle. *)
Lemma one_per_handle (timers : list (Z * Timer)) (P : Z * Timer -> Prop)
    `{!forall x, Decision (P x)} (handle : Z) :
  NoDup (fst <$> timers) ->
  (forall entry, entry ∈ timers -> P entry -> fst entry = handle) ->
  (length (filter P timers) <= 1)%nat.
Proof.
  induction timers as [| entry rest IH]; [simpl; lia |].
  rewrite fmap_cons, NoDup_cons. intros [Hnotin Hnodup] Hsame.
  rewrite filter_cons. destruct (decide (P entry)) as [HP | HP].
  - assert (Hnone : filter P rest = []).
    { destruct (filter P rest) as [| other more] eqn:Hf; [done | exfalso].
      assert (Hother : other ∈ filter P rest) by (rewrite Hf; left).
      apply list_elem_of_filter in Hother as [HPo Hino].
      apply Hnotin. rewrite (Hsame entry) by (done || left).
      rewrite <- (Hsame other) by (done || now right).
      now apply list_elem_of_fmap_2. }
    rewrite Hnone. simpl. lia.
  - apply IH; [exact Hnodup |]. intros other Hin. apply Hsame. now right.
Qed.

Lemma consistent_one_live_timer (w : World) (k : string) :
  consistent w -> (length (liveTimers k (snd w)) <= 1)%nat.
Proof.
  intros (Hmap & _ & Hnodup). unfold liveTimers.
  destruct (activeNoteTimers (fst w) !! k) as [handle |] eqn:Hk.
  - apply (one_per_handle _ _ handle Hnodup).
    intros [h tm] Hin Hkey. simpl in *. subst k.
    specialize (Hmap _ _ Hin). congruence.
  - apply (one_per_handle _ _ 0%Z Hnodup).
    intros [h tm] Hin Hkey. simpl in *. subst k.
    specialize (Hmap _ _ Hin). congruence.
Qed.

Lemma filter_none {A : Type} (P : A -> Prop) `{!forall x, Decision (P x)} (l : list A) :
  (forall x, x ∈ l -> ~ P x) -> filter P l = [].
Proof.
  induction l as [| x rest IH]; [done |]. intros Hnone.
  rewrite filter_cons_False by (apply Hnone; left).
  apply IH. intros y Hy. apply Hnone. now right.
Qed.

(** *** Cancel, then schedule *)

Lemma startNote_replaces_timer (midiNote velocity : Z) (channels : list Z)
    (duration : Q) (w : World) :
  consistent w ->
  let k := noteKeyOf midiNote channels in
  let w' := startNote midiNote velocity channels duration w in
  liveTimers k (snd w')
  = [(nextHandle (snd w),
      mkTimer (clock (snd w) + delayOf (duration * 1000))%Z channels midiNote k)]
  /\ activeNoteTimers (fst w') !! k = Some (nextHandle (snd w))
  /\ (forall handle tm,
        (handle, tm) ∈ pending (snd w) -> timerKey tm = k ->
        (handle, tm) ∉ pending (snd w')).
Proof.
  intros Hcons k w'. subst w'. rewrite startNote_normal_form. fold k.
  pose proof (cancelled_no_key k w Hcons) as Hkeep.
  destruct Hcons as (Hmap & Hfresh & Hnodup).
  cbn [fst snd]. split; [| split].
  - unfold liveTimers. cbn [pending]. rewrite filter_app.
    rewrite filter_none.
    + rewrite filter_cons_True by reflexivity. reflexivity.
    + intros [handle tm] Hin. simpl. exact (proj2 (Hkeep _ _ Hin)).
  - cbn [activeNoteTimers withTimers]. apply lookup_insert_eq.
  - intros handle tm Hin Hkey Hin'. cbn [pending] in Hin'.
    apply elem_of_app in Hin' as [Hin' | Hin'].
    + exact (proj2 (Hkeep _ _ Hin') Hkey).
    + apply list_elem_of_singleton in Hin'. injection Hin' as -> _.
      specialize (Hfresh _ _ Hin). lia.
Qed.

(** *** Running the clock *)

Lemma fireDue_idle (rounds : nat) (time : Z) (w : World) :
  nextDue (pending (snd w)) time = None -> fireDue rounds time w = w.
Proof. intros Hnone. destruct rounds; [done |]. simpl. now rewrite Hnone. Qed.

Lemma advanceTo_idle (time : Z) (w : World) :
  nextDue (pending (snd w)) time = None ->
  advanceTo time w = (fst w, setClock (Z.max (clock (snd w)) time) (snd w)).
Proof. intros Hnone. unfold advanceTo. now rewrite fireDue_idle. Qed.

Lemma advanceTo_single (time handle : Z) (tm : Timer) (w : World) :
  pending (snd w) = [(handle, tm)] -> (fireAt tm <= time)%Z ->
  advanceTo time w
  = (let w' := fire tm (fst w, setClock (Z.max (clock (snd w)) (fireAt tm))
                                  (clearTimeout handle (snd w))) in
     (fst w', setClock (Z.max (clock (snd w')) time) (snd w'))).
Proof.
  intros Hpending Hdue. unfold advanceTo. rewrite Hpending. cbn [length fireDue].
  rewrite Hpending. cbn [nextDue].
  destruct (Z.leb_spec (fireAt tm) time); [reflexivity | lia].
Qed.

(** *** Telling note-offs from note-ons on the wire *)

Lemma strumChannels_valid (m : t) :
  validChannel (midiStrumChannel m) -> validChannels (strumChannels m).
Proof.
  unfold strumChannels, validChannel, validChannels.
  destruct (midiStrumChannel m) as [c |]; intros Hc.
  - constructor; [lia | constructor].
  - unfold allChannels. apply Forall_forall. intros ch Hin.
    apply elem_of_seqZ in Hin. lia.
Qed.

Lemma noteOffs_of_noteOn (time midiNote velocity : Z) (channels : list Z) :
  validChannels channels ->
  List.filter isNoteOff
    ((fun message => (time, message)) <$> (noteOn midiNote velocity <$> channels)) = [].
Proof.
  induction 1 as [| ch rest Hch _ IH]; [done |].
  rewrite !fmap_cons. cbn [List.filter].
  replace (isNoteOff (time, noteOn midiNote velocity ch)) with false; [exact IH |].
  unfold isNoteOff, noteOn. cbn [snd]. symmetry.
  apply andb_false_iff. right. apply Z.ltb_ge. lia.
Qed.

Lemma noteOffs_of_noteOff (time midiNote : Z) (channels : list Z) :
  validChannels channels ->
  List.filter isNoteOff
    ((fun message => (time, message)) <$> (noteOff midiNote <$> channels))
  = (fun channel => (time, noteOff midiNote channel)) <$> channels.
Proof.
  induction 1 as [| ch rest Hch _ IH]; [done |].
  rewrite !fmap_cons. cbn [List.filter].
  replace (isNoteOff (time, noteOff midiNote ch)) with true; [now rewrite IH |].
  unfold isNoteOff, noteOff. cbn [snd]. symmetry.
  apply andb_true_iff. split; [apply Z.leb_le | apply Z.ltb_lt]; lia.
Qed.

(** *** The retrigger scenario *)

Lemma retrigger_trace (port : string) (channel : option Z) (note : NoteObject)
    (velocity1 velocity2 : Z) :
  validChannel channel ->
  let midiNote :=
    Note.notationToMIDI (String.append (notation note) (Note.String_of (octave note))) in
  let channels := strumChannels (newMidi channel) in
  let k := noteKeyOf midiNote channels in
  let at200 := fst (retrigger port channel note velocity1 velocity2) in
  let at250 := snd (retrigger port channel note velocity1 velocity2) in
  pending (snd at200) = [(2%Z, mkTimer 250 channels midiNote k)]
  /\ noteOffs (snd at200) = []
  /\ noteOffs (snd at250) = (fun channel => (250%Z, noteOff midiNote channel)) <$> channels
  /\ pending (snd at250) = []
  /\ activeNoteTimers (fst at250) = ∅.
Proof.
  intros Hch midiNote channels k.
  assert (Hvalid : validChannels channels) by (apply strumChannels_valid; exact Hch).
  unfold retrigger. cbn [fst snd].
  set (m0 := refreshConnection [port] (newMidi channel)).
  (* the first note-on, at time 0 *)
  change (sendNote (Some note) velocity1 (Some (2 # 10)) (m0, newEnv))
    with (Ok (startNote midiNote velocity1 channels (2 # 10) (m0, newEnv))).
  cbn [stateOf]. rewrite startNote_normal_form. fold k.
  unfold cancelled. norm. subst m0. norm.
  rewrite lookup_empty. norm.
  change (0 + delayOf ((2 # 10) * 1000))%Z with 200%Z. change (1 + 1)%Z with 2%Z.
  (* 50 ms pass: nothing is due *)
  rewrite (advanceTo_idle 50) by reflexivity. norm.
  change (Z.max 0 50) with 50%Z.
  (* the second note-on clears timer 1 and sets timer 2 *)
  match goal with
  | |- context [sendNote (Some note) velocity2 (Some (2 # 10)) ?w] =>
      change (sendNote (Some note) velocity2 (Some (2 # 10)) w)
        with (Ok (startNote midiNote velocity2 channels (2 # 10) w))
  end.
  cbn [stateOf]. rewrite startNote_normal_form. fold k.
  unfold cancelled. norm.
  rewrite lookup_insert_eq. norm.
  rewrite filter_cons_False by (simpl; intros H; now apply H).
  rewrite filter_nil. cbn [app].
  change (50 + delayOf ((2 # 10) * 1000))%Z with 250%Z. change (2 + 1)%Z with 3%Z.
  (* up to 200 ms: nothing is due *)
  rewrite (advanceTo_idle 200) by reflexivity. norm.
  change (Z.max 50 200) with 200%Z.
  (* up to 250 ms: timer 2 fires *)
  erewrite advanceTo_single by (reflexivity || (simpl; lia)).
  cbn zeta. unfold fire. norm.
  rewrite filter_cons_False by (simpl; intros H; now apply H). rewrite filter_nil.
  change (Z.max 200 250) with 250%Z.
  split; [reflexivity |]. split; [| split; [| split]].
  - unfold noteOffs. cbn [wire].
    now rewrite List.filter_app, !noteOffs_of_noteOn.
  - unfold noteOffs. cbn [wire]. rewrite sendAll_wire. cbn [wire clock].
    rewrite !List.filter_app, !noteOffs_of_noteOn by exact Hvalid.
    now rewrite noteOffs_of_noteOff.
  - now rewrite (proj2 (proj2 (sendAll_frame _ _))).
  - apply map_eq. intros i. destruct (decide (i = k)); simplify_map_eq; done.
Qed.

(** C3. (1) Whatever is done with a fresh [Midi] object, and however time
    passes, the bookkeeping stays consistent and no key ever has more than
    one live timer. (2) On a consistent object with an output, [sendNote]
    and [sendRawNote] leave exactly one live timer for the key of the note,
    the one they have just set, due [duration] seconds from now; every
    timer that was live for that key before is cleared; the map points to
    the new one. (3) A note sent at time 0 for 0.2 s and sent again at 50 ms
    on the same channels: by 200 ms no note-off has gone out and the only
    timer left is due at 250 ms; at 250 ms one note-off per channel of the
    channel-set goes out, all stamped 250, after which no timer is left. *)
Theorem one_live_timer_per_key :
  (forall (channel : option Z) (ops : list Op) (k : string),
      consistent (performAll ops (newMidi channel, newEnv))
      /\ (length (liveTimers k (snd (performAll ops (newMidi channel, newEnv)))) <= 1)%nat)
  /\ (forall (w : World) (port : string) (note : NoteObject) (velocity : Z)
             (duration : option Q),
        consistent w -> midiOut (fst w) = Some port ->
        let midiNote :=
          Note.notationToMIDI
            (String.append (notation note) (Note.String_of (octave note))) in
        let channels := strumChannels (fst w) in
        let k := noteKeyOf midiNote channels in
        let w' := stateOf (sendNote (Some note) velocity duration w) in
        liveTimers k (snd w')
        = [(nextHandle (snd w),
            mkTimer (clock (snd w) + delayOf (default (3 # 2) duration * 1000))%Z
                    channels midiNote k)]
        /\ activeNoteTimers (fst w') !! k = Some (nextHandle (snd w))
        /\ (forall handle tm,
              (handle, tm) ∈ pending (snd w) -> timerKey tm = k ->
              (handle, tm) ∉ pending (snd w')))
  /\ (forall (w : World) (port : string) (midiNote velocity : Z) (channel : option Z)
             (duration : option Q),
        consistent w -> midiOut (fst w) = Some port ->
        let channels :=
          match channel with
          | Some c => [(c - 1)%Z]
          | None => strumChannels (fst w)
          end in
        let k := noteKeyOf midiNote channels in
        let w' := stateOf (sendRawNote midiNote velocity channel duration w) in
        liveTimers k (snd w')
        = [(nextHandle (snd w),
            mkTimer (clock (snd w) + delayOf (default (3 # 2) duration * 1000))%Z
                    channels midiNote k)]
        /\ activeNoteTimers (fst w') !! k = Some (nextHandle (snd w))
        /\ (forall handle tm,
              (handle, tm) ∈ pending (snd w) -> timerKey tm = k ->
              (handle, tm) ∉ pending (snd w')))
  /\ (forall (port : string) (channel : option Z) (note : NoteObject)
             (velocity1 velocity2 : Z),
        validChannel channel ->
        let midiNote :=
          Note.notationToMIDI
            (String.append (notation note) (Note.String_of (octave note))) in
        let channels := strumChannels (newMidi channel) in
        let at200 := fst (retrigger port channel note velocity1 velocity2) in
        let at250 := snd (retrigger port channel note velocity1 velocity2) in
        noteOffs (snd at200) = []
        /\ pending (snd at200)
           = [(2%Z, mkTimer 250 channels midiNote (noteKeyOf midiNote channels))]
        /\ noteOffs (snd at250)
           = (fun channel => (250%Z, noteOff midiNote channel)) <$> channels
        /\ pending (snd at250) = []).
Proof.
  split; [| split; [| split]].
  - intros channel ops k.
    pose proof (consistent_performAll ops _ (consistent_initial channel)) as Hcons.
    split; [exact Hcons | now apply consistent_one_live_timer].
  - intros [m e] port note velocity duration Hcons Hout midiNote channels k w'.
    subst w'. unfold sendNote. cbn [fst] in Hout. rewrite Hout. cbn [stateOf].
    exact (startNote_replaces_timer midiNote velocity channels
             (default (3 # 2) duration) (m, e) Hcons).
  - intros [m e] port midiNote velocity channel duration Hcons Hout channels k w'.
    subst w'. unfold sendRawNote. cbn [fst] in Hout. rewrite Hout. cbn [stateOf].
    exact (startNote_replaces_timer midiNote velocity channels
             (default (3 # 2) duration) (m, e) Hcons).
  - intros port channel note velocity1 velocity2 Hch.
    destruct (retrigger_trace port channel note velocity1 velocity2 Hch)
      as (H1 & H2 & H3 & H4 & _).
    cbv zeta. auto.
Qed.

Lemma one_live_timer_per_key_witness :
  let at200 := fst (retrigger "synth" (Some 1%Z) (mkNote "A" 4 None) 60 60) in
  let at250 := snd (retrigger "synth" (Some 1%Z) (mkNote "A" 4 None) 60 60) in
  noteOffs (snd at200) = []
  /\ noteOffs (snd at250) = [(250%Z, [0x80; 57; 0x40]%Z)].
Proof.
  destruct (proj2 (proj2 (proj2 one_live_timer_per_key))
              "synth" (Some 1%Z) (mkNote "A" 4 None) 60%Z 60%Z) as (H1 & _ & H3 & _).
  - simpl. lia.
  - split; [exact H1 | exact H3].
Defined.

(** C9. Without an output port, [sendNote], [sendRawNote], [sendPitchBend]
    and [releaseNotes] complete without throwing, even on an undefined note,
    and return the object and the browser state as they were: nothing is
    put on the wire, no timer is set or cleared, and the two maps keep
    their contents. *)
Theorem no_transport_sends_are_noops
    (m : t) (e : Env) (note : option NoteObject) (midiNote velocity : Z)
    (channel : option Z) (duration : option Q) (bendValue : Q)
    (notes : list (option NoteObject)) :
  midiOut m = None ->
  sendNote note velocity duration (m, e) = Ok (m, e)
  /\ sendRawNote midiNote velocity channel duration (m, e) = Ok (m, e)
  /\ sendPitchBend bendValue (m, e) = Ok (m, e)
  /\ releaseNotes notes (m, e) = Ok (m, e).
Proof.
  intros Hout. unfold sendNote, sendRawNote, sendPitchBend, releaseNotes.
  rewrite Hout. repeat split.
Qed.

Lemma no_transport_sends_are_noops_witness :
  sendNote None 100 None (newMidi None, newEnv) = Ok (newMidi None, newEnv)
  /\ sendRawNote 60 100 (Some 1%Z) None (newMidi None, newEnv) = Ok (newMidi None, newEnv)
  /\ sendPitchBend (1 # 2) (newMidi None, newEnv) = Ok (newMidi None, newEnv)
  /\ releaseNotes [None] (newMidi None, newEnv) = Ok (newMidi None, newEnv).
Proof.
  apply (no_transport_sends_are_noops (newMidi None) newEnv None 60 100 (Some 1%Z) None
           (1 # 2) [None]).
  reflexivity.
Defined.

(** *** Pitch bend *)

Lemma seven_bits (value : Z) :
  (0 <= value < 16384)%Z ->
  let lsb := Z.land value 0x7F in
  let msb := Z.land (Z.shiftr value 7) 0x7F in
  (0 <= lsb < 128)%Z /\ (0 <= msb < 128)%Z /\ (lsb + 128 * msb = value)%Z.
Proof.
  intros Hvalue. cbv zeta.
  change 0x7F%Z with (Z.ones 7).
  rewrite !Z.land_ones, Z.shiftr_div_pow2 by lia.
  change (2 ^ 7)%Z with 128%Z.
  assert (Hhigh : (0 <= value / 128 < 128)%Z).
  { split; [apply Z.div_pos; lia | apply Z.div_lt_upper_bound; lia]. }
  rewrite (Z.mod_small (value / 128) 128) by lia.
  pose proof (Z.mod_pos_bound value 128 ltac:(lia)).
  pose proof (Z.div_mod value 128 ltac:(lia)). lia.
Qed.

(** X25. With an output port, [sendPitchBend] puts one three-byte message
    per strum channel on the wire, status [0xE0 + channel], and touches no
    timer. Its two data bytes are 7-bit and together hold the 14-bit value
    [lsb + 128 * msb]: the integer part of [(bend + 1) * 8192] for a bend
    from -1 up to, not including, 1; the centre 8192 for bend 0; the top
    16383 for every bend of 1 or more; 0 for every bend of -1 or less. *)
Theorem sendPitchBend_fourteen_bit (m : t) (e : Env) (port : string) (bendValue : Q) :
  midiOut m = Some port ->
  exists (lsb msb : Z) (e' : Env),
    sendPitchBend bendValue (m, e) = Ok (m, e')
    /\ wire e' = wire e ++ ((fun channel => (clock e, [(0xE0 + channel)%Z; lsb; msb]))
                              <$> strumChannels m)
    /\ pending e' = pending e
    /\ (0 <= lsb < 128)%Z /\ (0 <= msb < 128)%Z
    /\ ((-1 <= bendValue)%Q -> (bendValue < 1)%Q ->
        (inject_Z (lsb + 128 * msb) <= (bendValue + 1) * 8192)%Q
        /\ ((bendValue + 1) * 8192 < inject_Z (lsb + 128 * msb) + 1)%Q)
    /\ ((bendValue == 0)%Q -> (lsb + 128 * msb = 8192)%Z)
    /\ ((1 <= bendValue)%Q -> (lsb + 128 * msb = 16383)%Z)
    /\ ((bendValue <= -1)%Q -> (lsb + 128 * msb = 0)%Z).
Proof.
  intros Hout. unfold sendPitchBend. rewrite Hout.
  set (clamped := Qmax (-1) (Qmin 1 bendValue)).
  set (value := Z.max 0 (Z.min 16383 (Qfloor ((clamped + 1) * 8192)))).
  assert (Hvalue : (0 <= value < 16384)%Z) by (unfold value; lia).
  destruct (seven_bits value Hvalue) as (Hlsb & Hmsb & Hsum).
  eexists _, _, _. split; [reflexivity |].
  rewrite sendAll_wire, <- list_fmap_compose.
  split; [reflexivity |].
  split; [apply sendAll_frame |].
  split; [exact Hlsb |]. split; [exact Hmsb |].
  rewrite Hsum.
  assert (Hinside : (-1 <= bendValue)%Q -> (bendValue <= 1)%Q -> (clamped == bendValue)%Q).
  { intros Hlow Hhigh. unfold clamped.
    rewrite (Q.min_r 1 bendValue) by exact Hhigh. now apply Q.max_r. }
  split; [| split; [| split]].
  - intros Hlow Hhigh.
    assert (Hfloor : Qfloor ((clamped + 1) * 8192) = Qfloor ((bendValue + 1) * 8192)).
    { apply Qfloor_comp. rewrite Hinside by Lqa.lra. reflexivity. }
    pose proof (Qfloor_le ((bendValue + 1) * 8192)) as Hle.
    pose proof (Qlt_floor ((bendValue + 1) * 8192)) as Hlt.
    assert (Hnonneg : (0 <= Qfloor ((bendValue + 1) * 8192))%Z).
    { change 0%Z with (Qfloor 0). apply Qfloor_resp_le. clear - Hlow. Lqa.lra. }
    assert (Hbelow : (Qfloor ((bendValue + 1) * 8192) < 16384)%Z).
    { apply Z.lt_nge. intros Hge.
      assert (Hq : (inject_Z 16384 <= inject_Z (Qfloor ((bendValue + 1) * 8192)))%Q)
        by (rewrite <- Zle_Qle; exact Hge).
      change (inject_Z 16384) with (16384 : Q) in Hq.
      revert Hq Hle. generalize (inject_Z (Qfloor ((bendValue + 1) * 8192))).
      clear - Hhigh. intros q Hq Hle. Lqa.lra. }
    unfold value. rewrite Hfloor.
    rewrite Z.min_r, Z.max_r by lia.
    split; [exact Hle |]. rewrite inject_Z_plus in Hlt. exact Hlt.
  - intros Hzero.
    assert (Hfloor : Qfloor ((clamped + 1) * 8192) = Qfloor 8192).
    { apply Qfloor_comp. rewrite Hinside by Lqa.lra. rewrite Hzero. reflexivity. }
    unfold value. rewrite Hfloor. reflexivity.
  - intros Hhigh.
    assert (Hclamped : (clamped == 1)%Q).
    { unfold clamped. rewrite (Q.min_l 1 bendValue) by exact Hhigh.
      apply Q.max_r. discriminate. }
    assert (Hfloor : Qfloor ((clamped + 1) * 8192) = Qfloor 16384).
    { apply Qfloor_comp. rewrite Hclamped. reflexivity. }
    unfold value. rewrite Hfloor. reflexivity.
  - intros Hlow.
    assert (Hclamped : (clamped == -1)%Q).
    { unfold clamped. apply Q.max_l.
      apply Q.min_le_iff. right. exact Hlow. }
    assert (Hfloor : Qfloor ((clamped + 1) * 8192) = Qfloor 0).
    { apply Qfloor_comp. rewrite Hclamped. reflexivity. }
    unfold value. rewrite Hfloor. reflexivity.
Qed.

Lemma sendPitchBend_fourteen_bit_witness :
  exists (lsb msb : Z) (e' : Env),
    sendPitchBend (1 # 2) (refreshConnection ["synth"] (newMidi (Some 1%Z)), newEnv)
    = Ok (refreshConnection ["synth"] (newMidi (Some 1%Z)), e')
    /\ wire e' = [(0%Z, [0xE0%Z; lsb; msb])]
    /\ (lsb + 128 * msb = 12288)%Z.
Proof.
  destruct (sendPitchBend_fourteen_bit
              (refreshConnection ["synth"] (newMidi (Some 1%Z))) newEnv "synth" (1 # 2)
              eq_refl)
    as (lsb & msb & e' & Hsend & Hwire & _ & _ & _ & Hvalue & _).
  exists lsb, msb, e'. split; [exact Hsend |]. split; [exact Hwire |].
  destruct Hvalue as [Hle Hlt]; [discriminate | reflexivity |].
  unfold Qle, Qlt in Hle, Hlt. simpl in Hle, Hlt. lia.
Defined.

(** *** Closing *)

Lemma clearAll_frame (entries : list (string * Z)) (e : Env) :
  let e' := foldl (fun e entry => clearTimeout (snd entry) e) e entries in
  clock e' = clock e /\ wire e' = wire e.
Proof.
  revert e. induction entries as [| entry rest IH]; intros e; simpl; [done |].
  destruct (IH (clearTimeout (snd entry) e)) as [Hclock Hwire]. done.
Qed.

(** X26. Whatever was done with a [Midi] object before, [close] leaves no
    timer set and both maps empty, and it sends nothing: the wire is as it
    was, and stays so however far the clock runs afterwards. The note-offs
    that were still to come for sounding notes are never sent. *)
Theorem close_cancels_every_note_off (channel : option Z) (ops : list Op) (time : Z) :
  let w := performAll ops (newMidi channel, newEnv) in
  pending (snd (close w)) = []
  /\ activeNoteTimers (fst (close w)) = ∅
  /\ noteStartTimes (fst (close w)) = ∅
  /\ wire (snd (close w)) = wire (snd w)
  /\ wire (snd (advanceTo time (close w))) = wire (snd w)
  /\ pending (snd (advanceTo time (close w))) = [].
Proof.
  intros w.
  pose proof (consistent_performAll ops _ (consistent_initial channel)) as Hcons.
  fold w in Hcons.
  destruct (close_clears_everything w Hcons) as [Hpending Htimers].
  assert (Hwire : wire (snd (close w)) = wire (snd w)).
  { destruct w as [m e]. unfold close. cbn [snd].
    apply (clearAll_frame (map_to_list (activeNoteTimers m)) e). }
  split; [exact Hpending |]. split; [exact Htimers |].
  split; [now destruct w |]. split; [exact Hwire |].
  rewrite advanceTo_idle by now rewrite Hpending.
  cbn [fst snd setClock wire pending]. split; [exact Hwire | exact Hpending].
Qed.
(** *** Releasing *)

Lemma no_live_timer (w : World) (k : string) :
  consistent w -> activeNoteTimers (fst w) !! k = None -> liveTimers k (snd w) = [].
Proof.
  intros Hcons Hnone. unfold liveTimers. apply filter_none.
  intros [handle tm] Hin. simpl. exact (unmapped_key w k Hcons Hnone handle tm Hin).
Qed.

Lemma releaseEach_spec (channels : list Z) (notes : list NoteObject) (w : World) :
  let midi := fun note =>
    Note.notationToMIDI (String.append (notation note) (Note.String_of (octave note))) in
  consistent w ->
  exists w',
    releaseEach channels (Some <$> notes) w = Ok w'
    /\ consistent w'
    /\ clock (snd w') = clock (snd w)
    /\ wire (snd w')
       = wire (snd w)
         ++ (notes ≫= fun note =>
               (fun c => (clock (snd w), noteOff (midi note) c)) <$> channels)
    /\ (forall k, activeNoteTimers (fst w) !! k = None ->
                  activeNoteTimers (fst w') !! k = None)
    /\ (forall note, note ∈ notes ->
          activeNoteTimers (fst w') !! noteKeyOf (midi note) channels = None)
    /\ (forall handle tm, (handle, tm) ∈ pending (snd w') -> (handle, tm) ∈ pending (snd w)).
Proof.
  intros midi. revert w. induction notes as [| note rest IH]; intros w Hcons.
  - exists w. simpl. rewrite app_nil_r.
    split; [reflexivity |]. split; [exact Hcons |].
    split; [reflexivity |]. split; [reflexivity |]. split; [auto |].
    split; [| auto]. intros note Hin. inversion Hin.
  - cbn [fmap list_fmap releaseEach bind].
    pose proof (consistent_releaseNote channels (Some note) w Hcons) as Hstep.
    rewrite releaseNote_normal_form in Hstep |- *. cbn [stateOf bind] in Hstep |- *.
    fold (midi note) in Hstep |- *.
    set (k := noteKeyOf (midi note) channels) in *.
    set (w1 := (withTimers (fst w) (delete k (activeNoteTimers (fst w)))
                           (delete k (noteStartTimes (fst w))),
                sendAll (noteOff (midi note) <$> channels)
                  {| clock := clock (snd w); nextHandle := nextHandle (snd w);
                     pending := pending (cancelled k w); wire := wire (snd w) |})) in *.
    destruct (IH w1 Hstep) as (w' & Hrun & Hcons' & Hclock & Hwire & Hkeep & Hgone & Hsub).
    assert (Hclock1 : clock (snd w1) = clock (snd w)).
    { unfold w1. cbn [snd]. now rewrite (proj1 (sendAll_frame _ _)). }
    assert (Hwire1 : wire (snd w1)
                     = wire (snd w)
                       ++ ((fun c => (clock (snd w), noteOff (midi note) c)) <$> channels)).
    { unfold w1. cbn [snd]. rewrite sendAll_wire, <- list_fmap_compose. reflexivity. }
    assert (Hpending1 : pending (snd w1) = pending (cancelled k w)).
    { unfold w1. cbn [snd]. now rewrite (proj2 (proj2 (sendAll_frame _ _))). }
    exists w'. split; [exact Hrun |]. split; [exact Hcons' |].
    split; [congruence |].
    split.
    { rewrite Hwire, Hwire1, Hclock1. cbn [mbind list_bind].
      now rewrite <- app_assoc. }
    split.
    { intros k' Hnone. apply Hkeep. unfold w1. cbn [fst activeNoteTimers withTimers].
      destruct (decide (k' = k)) as [-> | Hne].
      - apply lookup_delete_eq.
      - now rewrite lookup_delete_ne by congruence. }
    split.
    { intros note' Hin. apply elem_of_cons in Hin as [-> | Hin].
      - apply Hkeep. unfold w1. cbn [fst activeNoteTimers withTimers].
        apply lookup_delete_eq.
      - now apply Hgone. }
    intros handle tm Hin. specialize (Hsub _ _ Hin). rewrite Hpending1 in Hsub.
    exact (proj1 (cancelled_no_key k w Hcons handle tm Hsub)).
Qed.

(** X27. Whatever was done with a [Midi] object before, with an output port
    [releaseNotes] completes for every list of notes and sends, at the
    current time and in the order of the list, one note-off (velocity 0x40)
    per strum channel for each note, whether or not the note was sounding.
    Afterwards no timer is live for the key of any released note and the
    map holds none for it, and no timer has been added. *)
Theorem releaseNotes_silences_notes
    (channel : option Z) (ops : list Op) (port : string) (notes : list NoteObject) :
  let w := performAll ops (newMidi channel, newEnv) in
  let channels := strumChannels (fst w) in
  let midi := fun note =>
    Note.notationToMIDI (String.append (notation note) (Note.String_of (octave note))) in
  midiOut (fst w) = Some port ->
  exists w',
    releaseNotes (Some <$> notes) w = Ok w'
    /\ wire (snd w')
       = wire (snd w)
         ++ (notes ≫= fun note =>
               (fun c => (clock (snd w), noteOff (midi note) c)) <$> channels)
    /\ (forall note, note ∈ notes ->
          liveTimers (noteKeyOf (midi note) channels) (snd w') = []
          /\ activeNoteTimers (fst w') !! noteKeyOf (midi note) channels = None)
    /\ (forall handle tm, (handle, tm) ∈ pending (snd w') -> (handle, tm) ∈ pending (snd w)).
Proof.
  intros w channels midi Hout.
  pose proof (consistent_performAll ops _ (consistent_initial channel)) as Hcons.
  fold w in Hcons.
  destruct (releaseEach_spec channels notes w Hcons)
    as (w' & Hrun & Hcons' & _ & Hwire & _ & Hgone & Hsub).
  unfold releaseNotes. destruct w as [m e] eqn:Hw. cbn [fst] in Hout. rewrite Hout.
  destruct notes as [| note rest].
  - exists (m, e). cbn. rewrite app_nil_r.
    split; [reflexivity |]. split; [reflexivity |].
    split; [| auto]. intros note Hin. inversion Hin.
  - cbn [fmap list_fmap length Nat.eqb].
    exists w'. split; [exact Hrun |]. split; [exact Hwire |].
    split; [| exact Hsub].
    intros note' Hin. split; [| now apply Hgone].
    apply no_live_timer; [exact Hcons' | now apply Hgone].
Qed.

Lemma releaseNotes_silences_notes_witness :
  exists w',
    releaseNotes [Some (mkNote "A" 4 None)]
      (performAll [DoRefreshConnection ["synth"];
                   DoSendNote (Some (mkNote "A" 4 None)) 100 None]
                  (newMidi (Some 1%Z), newEnv))
    = Ok w'
    /\ wire (snd w') = [(0%Z, [0x90; 57; 100]%Z); (0%Z, [0x80; 57; 0x40]%Z)]
    /\ liveTimers "57-0" (snd w') = [].
Proof.
  destruct (releaseNotes_silences_notes (Some 1%Z)
              [DoRefreshConnection ["synth"];
               DoSendNote (Some (mkNote "A" 4 None)) 100 None]
              "synth" [mkNote "A" 4 None] eq_refl)
    as (w' & Hrun & Hwire & Hgone & _).
  exists w'. split; [exact Hrun |]. split; [exact Hwire |].
  exact (proj1 (Hgone (mkNote "A" 4 None) ltac:(left))).
Defined.

(** *** Every note sent is turned off *)

Lemma fire_step (w : World) (port : string) (handle now : Z) (tm : Timer) :
  midiOut (fst w) = Some port ->
  let w' := fire tm (fst w, setClock now (clearTimeout handle (snd w))) in
  midiOut (fst w') = Some port
  /\ activeNoteTimers (fst w') = delete (timerKey tm) (activeNoteTimers (fst w))
  /\ clock (snd w') = now
  /\ pending (snd w') = filter (fun entry => fst entry <> handle) (pending (snd w))
  /\ wire (snd w')
     = wire (snd w) ++ ((fun c => (now, noteOff (timerNote tm) c)) <$> timerChannels tm).
Proof.
  intros Hout. destruct w as [m e]. cbn [fst snd] in *. unfold fire. rewrite Hout.
  cbn [fst snd midiOut activeNoteTimers withTimers].
  destruct (sendAll_frame (noteOff (timerNote tm) <$> timerChannels tm)
              (setClock now (clearTimeout handle e))) as (Hclock & _ & Hpending).
  rewrite Hclock, Hpending, sendAll_wire, <- list_fmap_compose. done.
Qed.

Lemma nextDue_earliest (timers : list (Z * Timer)) (time handle : Z) (tm : Timer) :
  nextDue timers time = Some (handle, tm) ->
  forall handle' tm', (handle', tm') ∈ timers -> (fireAt tm' <= time)%Z ->
                      (fireAt tm <= fireAt tm')%Z.
Proof.
  revert handle tm. induction timers as [| [h0 tm0] rest IH]; intros handle tm; simpl.
  - discriminate.
  - destruct (nextDue rest time) as [[h1 tm1] |] eqn:Hrest.
    + specialize (IH h1 tm1 eq_refl).
      destruct (Z.leb_spec (fireAt tm0) time); simpl;
        [destruct (Z.leb_spec (fireAt tm0) (fireAt tm1)) |];
        intros [= <- <-] handle' tm' Hin Hdue;
        apply elem_of_cons in Hin as [[= -> ->] | Hin];
        try lia; specialize (IH _ _ Hin Hdue); lia.
    + destruct (Z.leb_spec (fireAt tm0) time); [| discriminate].
      intros [= <- <-] handle' tm' Hin Hdue.
      apply elem_of_cons in Hin as [[= -> ->] | Hin]; [lia |].
      pose proof (nextDue_none rest time Hrest _ _ Hin). lia.
Qed.

Lemma nextDue_some (timers : list (Z * Timer)) (time handle : Z) (tm : Timer) :
  (handle, tm) ∈ timers -> (fireAt tm <= time)%Z -> nextDue timers time <> None.
Proof.
  intros Hin Hdue Hnone. pose proof (nextDue_none timers time Hnone _ _ Hin). lia.
Qed.

Lemma cleared_shorter (timers : list (Z * Timer)) (handle : Z) (tm : Timer) :
  (handle, tm) ∈ timers ->
  (length (filter (fun entry => fst entry <> handle) timers) < length timers)%nat.
Proof.
  induction timers as [| [h0 tm0] rest IH]; intros Hin; [inversion Hin |].
  destruct (decide (h0 = handle)) as [-> | Hne].
  - rewrite filter_cons_False by (simpl; tauto).
    pose proof (length_filter (fun entry => fst entry <> handle) rest). simpl. lia.
  - rewrite filter_cons_True by exact Hne.
    apply elem_of_cons in Hin as [[= <- <-] | Hin]; [contradiction |].
    specialize (IH Hin). simpl. lia.
Qed.

Lemma handle_unique (timers : list (Z * Timer)) (handle : Z) (tm1 tm2 : Timer) :
  NoDup (fst <$> timers) -> (handle, tm1) ∈ timers -> (handle, tm2) ∈ timers -> tm1 = tm2.
Proof.
  induction timers as [| [h0 tm0] rest IH]; intros Hnodup Hin1 Hin2; [inversion Hin1 |].
  cbn [fmap list_fmap fst] in Hnodup. apply NoDup_cons in Hnodup as [Hnot Hnodup].
  assert (Hother : forall tm', (h0, tm') ∈ rest -> False).
  { intros tm' Hin. apply Hnot. apply list_elem_of_fmap. now exists (h0, tm'). }
  apply elem_of_cons in Hin1 as [[= -> ->] | Hin1];
    apply elem_of_cons in Hin2 as [[= ->] | Hin2].
  - reflexivity.
  - destruct (Hother _ Hin2).
  - subst. destruct (Hother _ Hin1).
  - now apply IH.
Qed.

Lemma fireDue_extends (rounds : nat) (time : Z) (w : World) :
  exists extra, wire (snd (fireDue rounds time w)) = wire (snd w) ++ extra.
Proof.
  revert w. induction rounds as [| rounds IH]; intros w.
  - exists []. simpl. now rewrite app_nil_r.
  - cbn [fireDue]. destruct (nextDue (pending (snd w)) time) as [[h tm'] |];
      [| exists []; now rewrite app_nil_r].
    destruct (IH (fire tm' (fst w, setClock (Z.max (clock (snd w)) (fireAt tm'))
                                      (clearTimeout h (snd w))))) as [extra ->].
    destruct w as [m e]. unfold fire. cbn [fst snd].
    destruct (midiOut m); cbn [snd].
    + rewrite sendAll_wire. cbn [wire setClock clearTimeout].
      eexists. rewrite <- app_assoc. reflexivity.
    + cbn [wire setClock clearTimeout]. now exists extra.
Qed.

(** Enough rounds leave no timer that is due. *)
Lemma fireDue_exhausts (rounds : nat) (time : Z) (w : World) :
  (length (pending (snd w)) <= rounds)%nat ->
  forall handle tm, (handle, tm) ∈ pending (snd (fireDue rounds time w)) ->
                    (time < fireAt tm)%Z.
Proof.
  revert w. induction rounds as [| rounds IH]; intros w Hlen handle tm Hin.
  - simpl in Hin. destruct (pending (snd w)); [inversion Hin | simpl in Hlen; lia].
  - simpl in Hin.
    destruct (nextDue (pending (snd w)) time) as [[h1 tm1] |] eqn:Hdue.
    + apply (IH _) in Hin; [exact Hin |].
      destruct (nextDue_pending _ _ _ _ Hdue) as [Hin1 _].
      destruct w as [m e]. unfold fire. cbn [fst snd] in *.
      destruct (midiOut m); cbn [snd];
        rewrite ?(proj2 (proj2 (sendAll_frame _ _)));
        cbn [pending setClock clearTimeout];
        pose proof (cleared_shorter _ _ _ Hin1); lia.
    + exact (nextDue_none _ _ Hdue _ _ Hin).
Qed.

(** A timer that is due and set on a connected, consistent object fires
    within enough rounds: its note-offs go out stamped with its due time,
    and its key is left without a timer. *)
Lemma fireDue_fires (rounds : nat) (time : Z) (w : World) (port : string)
    (handle : Z) (tm : Timer) :
  consistent w -> midiOut (fst w) = Some port ->
  (length (pending (snd w)) <= rounds)%nat ->
  (handle, tm) ∈ pending (snd w) ->
  (clock (snd w) <= fireAt tm)%Z -> (fireAt tm <= time)%Z ->
  exists before after,
    wire (snd (fireDue rounds time w))
    = wire (snd w) ++ before
      ++ ((fun c => (fireAt tm, noteOff (timerNote tm) c)) <$> timerChannels tm)
      ++ after.
Proof.
  revert w. induction rounds as [| rounds IH];
    intros w Hcons Hout Hlen Hin Hclock Hdue.
  - destruct (pending (snd w)); [inversion Hin | simpl in Hlen; lia].
  - cbn [fireDue].
    destruct (nextDue (pending (snd w)) time) as [[h1 tm1] |] eqn:Hnext;
      [| now destruct (nextDue_some _ _ _ _ Hin Hdue)].
    destruct (nextDue_pending _ _ _ _ Hnext) as [Hin1 Hdue1].
    pose proof (nextDue_earliest _ _ _ _ Hnext _ _ Hin Hdue) as Hfirst.
    set (now := Z.max (clock (snd w)) (fireAt tm1)).
    pose proof (consistent_fire w h1 now tm1 Hcons Hin1) as Hcons1.
    destruct (fire_step w port h1 now tm1 Hout)
      as (Hout1 & _ & Hclock1 & Hpending1 & Hwire1).
    set (w1 := fire tm1 (fst w, setClock now (clearTimeout h1 (snd w)))) in *.
    destruct (decide (h1 = handle)) as [-> | Hne].
    + assert (Hsame : tm1 = tm).
      { destruct Hcons as (_ & _ & Hnodup).
        exact (handle_unique _ _ _ _ Hnodup Hin1 Hin). }
      subst tm1.
      pose proof (fireDue_extends rounds time w1) as Hwire.
      destruct Hwire as [extra ->]. rewrite Hwire1.
      exists [], extra. unfold now. rewrite Z.max_r by lia.
      cbn [app]. now rewrite <- app_assoc.
    + assert (Hin' : (handle, tm) ∈ pending (snd w1)).
      { rewrite Hpending1. apply list_elem_of_filter. split; [| exact Hin].
        simpl. congruence. }
      assert (Hlen' : (length (pending (snd w1)) <= rounds)%nat).
      { rewrite Hpending1. pose proof (cleared_shorter _ _ _ Hin1). lia. }
      destruct (IH w1 Hcons1 Hout1 Hlen' Hin' ltac:(unfold now in Hclock1; lia) Hdue)
        as (before & after & ->).
      rewrite Hwire1.
      exists (((fun c => (now, noteOff (timerNote tm1) c)) <$> timerChannels tm1) ++ before),
             after.
      now rewrite <- !app_assoc.
Qed.

Lemma fireDue_unmapped (rounds : nat) (time : Z) (w : World) (k : string) :
  activeNoteTimers (fst w) !! k = None ->
  activeNoteTimers (fst (fireDue rounds time w)) !! k = None.
Proof.
  revert w. induction rounds as [| rounds IH]; intros w Hnone; [exact Hnone |].
  simpl. destruct (nextDue (pending (snd w)) time) as [[h tm] |]; [| exact Hnone].
  apply IH. destruct w as [m e]. unfold fire. cbn [fst snd] in *.
  cbn [activeNoteTimers withTimers].
  destruct (decide (timerKey tm = k)) as [-> | Hne].
  - apply lookup_delete_eq.
  - now rewrite lookup_delete_ne.
Qed.

(** X28. Whatever was done with a [Midi] object before, a note sent with
    [sendRawNote] on an object with an output port is turned off once its
    duration has passed, unless something is done in between: when the clock
    has run to the due time or beyond, the wire holds, after the note-ons,
    one note-off per channel of the note, stamped with the due time
    ([duration] seconds, 1.5 by default, after the send); and no timer that
    is due by then is left. *)
Theorem sent_note_is_turned_off
    (channel : option Z) (ops : list Op) (port : string)
    (midiNote velocity : Z) (noteChannel : option Z) (duration : option Q) (time : Z) :
  let w := performAll ops (newMidi channel, newEnv) in
  let channels :=
    match noteChannel with
    | Some c => [(c - 1)%Z]
    | None => strumChannels (fst w)
    end in
  let due := (clock (snd w) + delayOf (default (3 # 2) duration * 1000))%Z in
  let sent := stateOf (sendRawNote midiNote velocity noteChannel duration w) in
  midiOut (fst w) = Some port -> (due <= time)%Z ->
  (exists before after,
      wire (snd (advanceTo time sent))
      = wire (snd w)
        ++ ((fun c => (clock (snd w), noteOn midiNote velocity c)) <$> channels)
        ++ before
        ++ ((fun c => (due, noteOff midiNote c)) <$> channels)
        ++ after)
  /\ (forall handle tm, (handle, tm) ∈ pending (snd (advanceTo time sent)) ->
                        (time < fireAt tm)%Z).
Proof.
  intros w channels due sent Hout Hdue.
  pose proof (consistent_performAll ops _ (consistent_initial channel)) as Hcons.
  fold w in Hcons.
  pose proof (consistent_sendRawNote midiNote velocity noteChannel duration w Hcons)
    as Hcons'.
  fold sent in Hcons'.
  assert (Hsent : sent = startNote midiNote velocity channels (default (3 # 2) duration) w).
  { unfold sent, sendRawNote. destruct w as [m e]. cbn [fst] in Hout. now rewrite Hout. }
  pose proof (startNote_normal_form midiNote velocity channels
                (default (3 # 2) duration) w) as Hform.
  cbv zeta in Hform. rewrite <- Hsent in Hform.
  set (k := noteKeyOf midiNote channels) in *.
  set (tm := mkTimer due channels midiNote k).
  assert (Hin : (nextHandle (snd w), tm) ∈ pending (snd sent)).
  { rewrite Hform. cbn [snd pending]. apply elem_of_app. right. left. }
  assert (Hout' : midiOut (fst sent) = Some port) by now rewrite Hform.
  assert (Hclock : clock (snd sent) = clock (snd w)) by now rewrite Hform.
  assert (Hwire : wire (snd sent)
                  = wire (snd w)
                    ++ ((fun c => (clock (snd w), noteOn midiNote velocity c)) <$> channels)).
  { rewrite Hform. cbn [snd wire]. now rewrite <- list_fmap_compose. }
  split.
  - destruct (fireDue_fires (length (pending (snd sent))) time sent port
                (nextHandle (snd w)) tm Hcons' Hout' (le_n _) Hin)
      as (before & after & Hfired).
    + rewrite Hclock. subst tm due. cbn [fireAt]. unfold delayOf. lia.
    + exact Hdue.
    + exists before, after. unfold advanceTo. cbn [snd setClock wire].
      rewrite Hfired, Hwire. now rewrite <- app_assoc.
  - intros handle tm' Hin'. unfold advanceTo in Hin'. cbn [snd setClock pending] in Hin'.
    exact (fireDue_exhausts _ time sent (le_n _) handle tm' Hin').
Qed.

Lemma sent_note_is_turned_off_witness :
  exists before after,
    wire (snd (advanceTo 1500
                 (stateOf (sendRawNote 60 100 (Some 1%Z) None
                             (performAll [DoRefreshConnection ["synth"]]
                                         (newMidi None, newEnv))))))
    = [] ++ [(0%Z, [0x90; 60; 100]%Z)] ++ before ++ [(1500%Z, [0x80; 60; 0x40]%Z)] ++ after.
Proof.
  exact (proj1 (sent_note_is_turned_off None [DoRefreshConnection ["synth"]] "synth"
                  60 100 (Some 1%Z) None 1500 eq_refl ltac:(vm_compute; discriminate))).
Defined.

End MidiFacts.

(** ** Facts about chord-progression-state.ts *)
Module ChordProgressionStateFacts.
Import ChordProgressionState.

(** The double remainder of the source is the mathematical modulo. *)
Lemma wrap_mod (index n : Z) : (0 < n)%Z -> wrap index n = (index mod n)%Z.
Proof.
  intros Hn. unfold wrap.
  assert (Hbound : (- n < Z.rem index n < n)%Z).
  { pose proof (Z.rem_bound_abs index n ltac:(lia)). lia. }
  rewrite Z.rem_mod_nonneg by lia.
  rewrite Z.rem_eq by lia.
  replace (index - n * (index ÷ n) + n)%Z with (index + (1 - index ÷ n) * n)%Z by lia.
  apply Z_mod_plus_full.
Qed.

Lemma nonempty_length (s : t) :
  chords s <> [] -> (0 < Z.of_nat (length (chords s)))%Z.
Proof. destruct (chords s); [contradiction | simpl; lia]. Qed.

Lemma chordAt_inside (l : list string) (index : Z) :
  (0 <= index < Z.of_nat (length l))%Z ->
  exists name, l !! Z.to_nat index = Some name /\ chordAt l index = chord name.
Proof.
  intros Hindex.
  destruct (lookup_lt_is_Some_2 l (Z.to_nat index) ltac:(lia)) as [name Hname].
  exists name. split; [exact Hname |].
  unfold chordAt, js_index. destruct (Z.ltb_spec index 0); [lia |]. now rewrite Hname.
Qed.

Lemma incrementIndex_nonempty (amount : Z) (s : t) :
  chords s <> [] ->
  incrementIndex (Some amount) s
  = (((currentIndex s + amount) mod Z.of_nat (length (chords s)))%Z,
     {| chords := chords s;
        currentIndex := ((currentIndex s + amount) mod Z.of_nat (length (chords s)))%Z |}).
Proof.
  intros Hne. pose proof (nonempty_length s Hne) as Hlen.
  unfold incrementIndex. cbn [default].
  destruct (Z.eqb_spec (Z.of_nat (length (chords s))) 0); [lia |].
  now rewrite wrap_mod.
Qed.

(** X29. On a progression that is not empty, [setIndex] accepts every
    integer, negative ones too: it stores and returns the index modulo the
    number of chords, a position inside the list, so that [getCurrentChord]
    then gives a chord (never [null] or [undefined]), the same one
    [getChordAtIndex] gives for that index. With no chords, [setIndex] and
    [incrementIndex] return 0 and change nothing, and both getters give
    [null]. *)
Theorem setIndex_wraps_into_the_progression (s : t) (index : Z) :
  chords s <> [] ->
  let n := Z.of_nat (length (chords s)) in
  (setIndex index s
   = ((index mod n)%Z, {| chords := chords s; currentIndex := (index mod n)%Z |})
   /\ (0 <= index mod n < n)%Z
   /\ exists name,
        chords s !! Z.to_nat (index mod n) = Some name
        /\ getCurrentChord (snd (setIndex index s)) = chord name
        /\ getChordAtIndex index s = chord name)
  /\ (forall index' amount position,
        let empty := {| chords := []; currentIndex := position |} in
        setIndex index' empty = (0%Z, empty)
        /\ incrementIndex amount empty = (0%Z, empty)
        /\ getCurrentChord empty = null
        /\ getChordAtIndex index' empty = null).
Proof.
  intros Hne n. pose proof (nonempty_length s Hne) as Hlen. fold n in Hlen.
  split; [| done].
  assert (Hrange : (0 <= index mod n < n)%Z) by (apply Z.mod_pos_bound; lia).
  assert (Hset : setIndex index s
                 = ((index mod n)%Z,
                    {| chords := chords s; currentIndex := (index mod n)%Z |})).
  { unfold setIndex. fold n. destruct (Z.eqb_spec n 0); [lia |]. now rewrite wrap_mod. }
  split; [exact Hset |]. split; [exact Hrange |].
  destruct (chordAt_inside (chords s) (index mod n) Hrange) as (name & Hname & Hchord).
  exists name. split; [exact Hname |]. split.
  - rewrite Hset. unfold getCurrentChord. cbn [snd chords currentIndex]. fold n.
    destruct (Z.eqb_spec n 0); [lia | exact Hchord].
  - unfold getChordAtIndex. fold n.
    destruct (Z.eqb_spec n 0); [lia |]. now rewrite wrap_mod.
Qed.

Lemma setIndex_wraps_into_the_progression_witness :
  setIndex (-1) {| chords := ["C"; "G"; "Am"; "F"]; currentIndex := 0 |}
  = (3%Z, {| chords := ["C"; "G"; "Am"; "F"]; currentIndex := 3 |})
  /\ getChordAtIndex (-1) {| chords := ["C"; "G"; "Am"; "F"]; currentIndex := 0 |}
     = chord "F".
Proof.
  destruct (proj1 (setIndex_wraps_into_the_progression
                     {| chords := ["C"; "G"; "Am"; "F"]; currentIndex := 0 |} (-1)
                     ltac:(discriminate)))
    as (Hset & _ & name & Hname & _ & Hchord).
  split; [exact Hset |].
  rewrite Hchord. injection Hname as <-. reflexivity.
Defined.

Lemma advance_spec (count : nat) (s : t) :
  chords s <> [] ->
  (0 <= currentIndex s < Z.of_nat (length (chords s)))%Z ->
  advance count s
  = {| chords := chords s;
       currentIndex := ((currentIndex s + Z.of_nat count)
                        mod Z.of_nat (length (chords s)))%Z |}.
Proof.
  revert s. induction count as [| count IH]; intros s Hne Hinside.
  - cbn [advance]. rewrite Z.add_0_r, Z.mod_small by exact Hinside. now destruct s.
  - pose proof (nonempty_length s Hne) as Hlen.
    cbn [advance]. rewrite incrementIndex_nonempty by exact Hne. cbn [snd].
    rewrite IH; cbn [chords currentIndex]; [| exact Hne | apply Z.mod_pos_bound; lia].
    f_equal. rewrite Zplus_mod_idemp_l. f_equal. lia.
Qed.

(** X30. On a progression of [n] chords, [n > 0], [incrementIndex] moves
    the index by the amount modulo [n], whatever the sign of the amount.
    Increments add up: one by [a] and then one by [b] leave the object as
    one by [a + b] does. From a position inside the list, an increment by
    any multiple of [n] and [n] increments by 1 both come back to that
    position, and an increment by [-a] undoes one by [a]. *)
Theorem incrementIndex_cycles (s : t) (a b k : Z) :
  chords s <> [] ->
  let n := Z.of_nat (length (chords s)) in
  fst (incrementIndex (Some a) s) = ((currentIndex s + a) mod n)%Z
  /\ (0 <= fst (incrementIndex (Some a) s) < n)%Z
  /\ snd (incrementIndex (Some b) (snd (incrementIndex (Some a) s)))
     = snd (incrementIndex (Some (a + b)%Z) s)
  /\ ((0 <= currentIndex s < n)%Z ->
      snd (incrementIndex (Some (k * n)%Z) s) = s
      /\ advance (length (chords s)) s = s
      /\ snd (incrementIndex (Some (- a)%Z) (snd (incrementIndex (Some a) s))) = s).
Proof.
  intros Hne n. pose proof (nonempty_length s Hne) as Hlen. fold n in Hlen.
  assert (Hcompose : forall x y,
             snd (incrementIndex (Some y) (snd (incrementIndex (Some x) s)))
             = snd (incrementIndex (Some (x + y)%Z) s)).
  { intros x y. rewrite (incrementIndex_nonempty x s Hne). cbn [snd].
    rewrite incrementIndex_nonempty by exact Hne.
    rewrite incrementIndex_nonempty by exact Hne.
    cbn [snd chords currentIndex]. fold n. f_equal.
    rewrite Zplus_mod_idemp_l. f_equal. lia. }
  split; [now rewrite (incrementIndex_nonempty a s Hne) |].
  split.
  { rewrite (incrementIndex_nonempty a s Hne). cbn [fst]. apply Z.mod_pos_bound. lia. }
  split; [apply Hcompose |].
  intros Hinside. split; [| split].
  - rewrite incrementIndex_nonempty by exact Hne. cbn [snd]. fold n.
    rewrite Z_mod_plus_full, Z.mod_small by lia. now destruct s.
  - rewrite advance_spec by first [exact Hne | exact Hinside]. fold n.
    replace (currentIndex s + n)%Z with (currentIndex s + 1 * n)%Z by lia.
    rewrite Z_mod_plus_full, Z.mod_small by lia. now destruct s.
  - rewrite Hcompose.
    rewrite incrementIndex_nonempty by exact Hne. cbn [snd]. fold n.
    replace (currentIndex s + (a + - a))%Z with (currentIndex s) by lia.
    rewrite Z.mod_small by lia. now destruct s.
Qed.

Lemma incrementIndex_cycles_witness :
  fst (incrementIndex (Some (-2)%Z)
         {| chords := ["C"; "G"; "Am"; "F"]; currentIndex := 1 |}) = 3%Z
  /\ advance 4 {| chords := ["C"; "G"; "Am"; "F"]; currentIndex := 1 |}
     = {| chords := ["C"; "G"; "Am"; "F"]; currentIndex := 1 |}.
Proof.
  destruct (incrementIndex_cycles
              {| chords := ["C"; "G"; "Am"; "F"]; currentIndex := 1 |} (-2) 0 1
              ltac:(discriminate))
    as (Hfirst & _ & _ & Hinside).
  split; [exact Hfirst |].
  destruct Hinside as (_ & Hround & _); [simpl; lia | exact Hround].
Defined.

End ChordProgressionStateFacts.
